(** * lexikonbeta-backend: the GADDAG AI service

    A shallow embedding of [src/services/QuackleGADDAGAIService.ts], of
    [DictionaryService.loadDictionary] and of the multiplier layout of
    [src/constants/board.ts], with the properties the specification states
    about them.

    Conventions of the embedding.
    - JavaScript strings are [string]s over 8-bit characters; [toUpperCase]
      maps a..z to A..Z and leaves every other character alone, [trim]
      removes the ASCII white space characters (codes 9-13 and 32).
    - A call that may throw returns a [result]: [Ok v] or [Throw e].
    - A promise is modelled by the outcome it settles with.
    - The file system is a function from paths to entries. *)

From Stdlib Require Import Ascii String List ZArith Lia Bool.
From stdpp Require Import base option list strings gmap.

Local Open Scope string_scope.
Local Open Scope list_scope.

(** ** Results of calls that may throw *)

Inductive result (A : Type) : Type :=
| Ok (a : A)
| Throw (e : string).
Arguments Ok {A} a.
Arguments Throw {A} e.

Definition isThrow {A} (r : result A) : bool :=
  match r with Ok _ => false | Throw _ => true end.

(** ** JavaScript string operations *)

Module Js.

(** White space removed by [String.prototype.trim], ASCII part. *)
Definition isWhiteSpace (c : ascii) : bool :=
  let n := nat_of_ascii c in
  ((9 <=? n)%nat && (n <=? 13)%nat) || (n =? 32)%nat.

Definition upperChar (c : ascii) : ascii :=
  let n := nat_of_ascii c in
  if ((97 <=? n)%nat && (n <=? 122)%nat)%bool
  then ascii_of_nat (n - 32) else c.

Fixpoint toUpperCase (s : string) : string :=
  match s with
  | EmptyString => EmptyString
  | String c r => String (upperChar c) (toUpperCase r)
  end.

Fixpoint trimStart (s : string) : string :=
  match s with
  | EmptyString => EmptyString
  | String c r => if isWhiteSpace c then trimStart r else s
  end.

(** [allWhite s]: [s] consists of white space only. *)
Fixpoint allWhite (s : string) : bool :=
  match s with
  | EmptyString => true
  | String c r => isWhiteSpace c && allWhite r
  end.

Fixpoint trimEnd (s : string) : string :=
  match s with
  | EmptyString => EmptyString
  | String c r => if allWhite s then EmptyString else String c (trimEnd r)
  end.

Definition trim (s : string) : string := trimEnd (trimStart s).

(** [s.split(sep)] for a one-character separator: never the empty list. *)
Fixpoint split (sep : ascii) (s : string) : list string :=
  match s with
  | EmptyString => [EmptyString]
  | String c r =>
      if Ascii.eqb c sep then EmptyString :: split sep r
      else match split sep r with
           | h :: t => String c h :: t
           | [] => [String c EmptyString]
           end
  end.

(** [a.join(sep)]. *)
Fixpoint join (sep : string) (l : list string) : string :=
  match l with
  | [] => EmptyString
  | [x] => x
  | x :: r => x +:+ sep +:+ join sep r
  end.

(** [a.slice(i, j)] for [0 <= i <= j]. *)
Definition slice {A} (i j : nat) (l : list A) : list A :=
  firstn (j - i) (skipn i l).

(** [hay.includes(needle)]. *)
Fixpoint includes (hay needle : string) : bool :=
  String.prefix needle hay ||
  match hay with
  | EmptyString => false
  | String _ r => includes r needle
  end.

(** Truthiness of a string: [if (word)]. *)
Definition truthy (s : string) : bool :=
  match s with EmptyString => false | _ => true end.

Definition newline : ascii := ascii_of_nat 10.

End Js.

(** ** The GADDAG *)

(** Modelled from the spec: the class [Gaddag] of
    [src/services/gaddag/gaddag.ts] is not among the sources.  The
    specification describes a node as a mapping from letter codes, with one
    more code for the direction change, to child nodes, and a flag telling
    that the path read so far is complete; [addWord] inserts the n+1
    rotations of a word of length n, creating nodes as needed and marking the
    last node of each rotation complete. *)
Module Gaddag.

Inductive sym : Type :=
| Letter (c : ascii)
| Delim.

Global Instance sym_eq_dec : EqDecision sym.
Proof. solve_decision. Defined.

Definition sym_to_option (s : sym) : option ascii :=
  match s with Letter c => Some c | Delim => None end.

Definition sym_of_option (o : option ascii) : sym :=
  match o with Some c => Letter c | None => Delim end.

Global Instance sym_countable : Countable sym.
Proof.
  apply (inj_countable' sym_to_option sym_of_option).
  intros [c|]; reflexivity.
Defined.

Local Unset Elimination Schemes.
Inductive node : Type :=
| Node (complete : bool) (children : gmap sym node).
Local Set Elimination Schemes.

Definition isTerminal (n : node) : bool :=
  match n with Node b _ => b end.

Definition children (n : node) : gmap sym node :=
  match n with Node _ ch => ch end.

Definition emptyNode : node := Node false ∅.

(** [followTransition(fromNode, letterCode)] *)
Definition followTransition (n : node) (s : sym) : option node :=
  children n !! s.

(** Follow a whole path from a node. *)
Fixpoint walk (p : list sym) (n : node) : option node :=
  match p with
  | [] => Some n
  | s :: r =>
      match followTransition n s with
      | Some m => walk r m
      | None => None
      end
  end.

(** Modelled from the spec: the insertion of [gaddag.ts], which is not
    among the sources.  Insert one path, creating the missing nodes, and
    mark its end complete. *)
Fixpoint insertPath (p : list sym) (n : node) : node :=
  match p with
  | [] => Node true (children n)
  | s :: r =>
      let child := default emptyNode (children n !! s) in
      Node (isTerminal n) (<[s := insertPath r child]> (children n))
  end.

Definition letters (w : string) : list sym :=
  map Letter (list_ascii_of_string w).

(** The rotation of [w] at split position [i]: the reversed prefix, the
    delimiter, the suffix. *)
Definition rotation (i : nat) (w : list sym) : list sym :=
  rev (firstn i w) ++ Delim :: skipn i w.

Record t : Type := Build { root : node }.

Definition new : t := Build emptyNode.

(** Modelled from the spec: [Gaddag.addWord] of [gaddag.ts], which is not
    among the sources; it inserts the n+1 rotations of the word, one for
    each split position. *)
Definition addWord (w : string) (g : t) : t :=
  let l := letters w in
  Build (fold_left (fun n i => insertPath (rotation i l) n)
                   (seq 0 (S (length l))) (root g)).

(** The path [p] from [n] exists and ends at a complete node. *)
Definition complete (n : node) (p : list sym) : Prop :=
  exists m, walk p n = Some m /\ isTerminal m = true.

Definition accepts (g : t) (p : list sym) : Prop := complete (root g) p.

End Gaddag.

(** ** The file system seen by the loaders *)

Inductive fsEntry : Type :=
| Absent                        (* existsSync is false *)
| Readable (content : string)   (* readFileSync returns the content *)
| Unreadable (e : string).      (* existsSync is true, readFileSync throws *)

Definition fileSystem : Type := string -> fsEntry.

Definition existsSync (fs : fileSystem) (p : string) : bool :=
  match fs p with Absent => false | _ => true end.

Definition readFileSync (fs : fileSystem) (p : string) : result string :=
  match fs p with
  | Readable c => Ok c
  | Unreadable e => Throw e
  | Absent => Throw "ENOENT: no such file or directory"
  end.

(** [process.cwd()] and [__dirname]. *)
Record processEnv : Type := { cwd : string; dirname : string }.

Definition possiblePaths (env : processEnv) : list string :=
  [ cwd env +:+ "/public/sowpods.txt";
    cwd env +:+ "/src/services/gaddag/sowpods.txt";
    dirname env +:+ "/gaddag/sowpods.txt" ].

(** [content.trim().split('\n').map(word => word.trim().toUpperCase())] *)
Definition parseWords (content : string) : list string :=
  map (fun word => Js.toUpperCase (Js.trim word))
      (Js.split Js.newline (Js.trim content)).

(** ** DictionaryService.loadDictionary *)

Module DictionaryService.

Record t : Type := Build {
  words : option (gset string);
  isLoaded : bool
}.

Definition new : t := Build None false.

(** The [for] loop over the candidate paths: the first existing one is
    read and ends the loop. *)
Fixpoint loadFromPaths (fs : fileSystem) (paths : list string)
  : option (result (gset string)) :=
  match paths with
  | [] => None
  | localPath :: rest =>
      if existsSync fs localPath then
        Some (match readFileSync fs localPath with
              | Ok content => Ok (list_to_set (parseWords content))
              | Throw e => Throw e
              end)
      else loadFromPaths fs rest
  end.

Definition loadDictionary (env : processEnv) (fs : fileSystem) (self : t)
  : result unit * t :=
  match isLoaded self, words self with
  | true, Some _ => (Ok tt, self)
  | _, _ =>
      let attempt :=
        match loadFromPaths fs (possiblePaths env) with
        | Some r => r
        | None => Throw ("No local dictionary file found. Checked paths: "
                         +:+ Js.join ", " (possiblePaths env))
        end in
      match attempt with
      | Ok ws => (Ok tt, Build (Some ws) true)
      | Throw _ => (Throw "Could not load dictionary from local files", self)
      end
  end.

Definition getDictionarySize (self : t) : nat :=
  match words self with Some ws => size ws | None => 0 end.

End DictionaryService.

(** ** buildGaddagFromDictionaryService *)

Definition CHUNK_SIZE : nat := 1000.

(** The guard [word && word.length > 0]. *)
Definition nonEmpty (word : string) : bool :=
  Js.truthy word && (0 <? String.length word)%nat.

Section BuildLoop.

(** The loop is written once for any receiver of [addWord]: the GADDAG
    itself, or a log of the calls. *)
Context {G : Type} (addWord : string -> G -> G).

(** [if (word && word.length > 0) gaddag.addWord(word)] *)
Definition processWord (g : G) (word : string) : G :=
  if nonEmpty word then addWord word g else g.

(** [for (let i = 0; i < words.length; i += CHUNK_SIZE)]; the loop gives
    the event loop a turn after every tenth chunk, which changes nothing
    in the GADDAG.  [None] when the fuel runs out. *)
Fixpoint chunkLoop (fuel : nat) (i : nat) (words : list string) (g : G)
  : option G :=
  match fuel with
  | O => None
  | S fuel' =>
      if (i <? length words)%nat then
        let chunk := Js.slice i (i + CHUNK_SIZE) words in
        chunkLoop fuel' (i + CHUNK_SIZE) words (fold_left processWord chunk g)
      else Some g
  end.

(** One turn of the loop is enough for each word. *)
Definition buildFromWords (words : list string) (g : G) : option G :=
  chunkLoop (S (length words)) 0 words g.

Fixpoint buildFromPaths (fs : fileSystem) (paths : list string) (g : G)
  : option (result G) :=
  match paths with
  | [] => None
  | localPath :: rest =>
      if existsSync fs localPath then
        Some (match readFileSync fs localPath with
              | Ok content =>
                  match buildFromWords (parseWords content) g with
                  | Some g' => Ok g'
                  | None => Throw "out of fuel"
                  end
              | Throw e => Throw e
              end)
      else buildFromPaths fs rest g
  end.

(** The [catch] logs and throws the same error again. *)
Definition buildWith (env : processEnv) (fs : fileSystem) (g : G)
  : result G :=
  match buildFromPaths fs (possiblePaths env) g with
  | Some r => r
  | None => Throw ("No local dictionary file found. Checked paths: "
                   +:+ Js.join ", " (possiblePaths env))
  end.

End BuildLoop.

Definition buildGaddagFromDictionaryService (env : processEnv) (fs : fileSystem)
  : result Gaddag.t :=
  buildWith Gaddag.addWord env fs Gaddag.new.

(** The words handed to [addWord], in call order. *)
Definition addWordCalls (env : processEnv) (fs : fileSystem)
  : result (list string) :=
  buildWith (fun w log => log ++ [w]) env fs [].

(** The content of the word source: the first candidate that exists. *)
Fixpoint firstExisting (fs : fileSystem) (paths : list string) : option string :=
  match paths with
  | [] => None
  | p :: rest => if existsSync fs p then Some p else firstExisting fs rest
  end.

Definition wordSource (env : processEnv) (fs : fileSystem) : option string :=
  match firstExisting fs (possiblePaths env) with
  | Some p => match fs p with Readable c => Some c | _ => None end
  | None => None
  end.

(** [getDictionarySet] *)
Definition getDictionarySet (env : processEnv) (fs : fileSystem)
  : result (gset string) :=
  match DictionaryService.loadFromPaths fs (possiblePaths env) with
  | Some r => r
  | None => Throw ("No local dictionary file found for dictionary set. Checked paths: "
                   +:+ Js.join ", " (possiblePaths env))
  end.

(** ** Tiles, the board and moves *)

(** The shapes of [types/game.ts], as the service uses them. *)
Record Tile : Type := mkTile {
  id : string;
  letter : string;
  value : Z;
  isBlank : bool;
  chosenLetter : option string
}.

Inductive MultiplierType : Type :=
| DOUBLE_LETTER | TRIPLE_LETTER | DOUBLE_WORD | TRIPLE_WORD | CENTER.

Module BoardCell.
Record t : Type := Build {
  tile : option Tile;
  multiplier : option MultiplierType
}.
End BoardCell.

Abbreviation Board := (list (list BoardCell.t)).

Module PlacedTile.
Record t : Type := Build {
  tile : Tile;
  row : Z;
  col : Z
}.
End PlacedTile.

Inductive Direction : Type := H | V.

(** [Move] of [gaddag/generator.ts], as the service reads it. *)
Module Move.
Record t : Type := Build {
  word : string;
  row : Z;
  col : Z;
  dir : Direction;
  score : Z
}.
End Move.

Module Player.
Record t : Type := Build {
  id : string;
  name : string;
  tiles : list Tile
}.
End Player.

Module GameState.
Record t : Type := Build {
  players : list Player.t;
  board : Board
}.
End GameState.

Inductive AIMoveType : Type := WORD | EXCHANGE | PASS.

Module AIMove.
Record t : Type := Build {
  type : AIMoveType;
  tiles : option (list PlacedTile.t);
  exchangeTileIds : option (list string)
}.
End AIMove.

Definition BOARD_SIZE : Z := 15.

(** [a[i]] of a JavaScript array: [undefined] out of range. *)
Definition index {A} (l : list A) (i : Z) : option A :=
  if (i <? 0)%Z then None else nth_error l (Z.to_nat i).

(** [gameBoard[row] && gameBoard[row][col] && gameBoard[row][col].tile] *)
Definition tileAt (gameBoard : Board) (row col : Z) : option Tile :=
  match index gameBoard row with
  | Some r => match index r col with
              | Some cell => BoardCell.tile cell
              | None => None
              end
  | None => None
  end.

Definition MULTIPLIER_LAYOUT : list (list (option MultiplierType)) :=
  let n := @None MultiplierType in
  let DL := Some DOUBLE_LETTER in let TL := Some TRIPLE_LETTER in
  let DW := Some DOUBLE_WORD in let TW := Some TRIPLE_WORD in
  [ [TW; n; n; DL; n; n; n; TW; n; n; n; DL; n; n; TW];
    [n; DW; n; n; n; TL; n; n; n; TL; n; n; n; DW; n];
    [n; n; DW; n; n; n; DL; n; DL; n; n; n; DW; n; n];
    [DL; n; n; DW; n; n; n; DL; n; n; n; DW; n; n; DL];
    [n; n; n; n; DW; n; n; n; n; n; DW; n; n; n; n];
    [n; TL; n; n; n; TL; n; n; n; TL; n; n; n; TL; n];
    [n; n; DL; n; n; n; DL; n; DL; n; n; n; DL; n; n];
    [TW; n; n; DL; n; n; n; Some CENTER; n; n; n; DL; n; n; TW];
    [n; n; DL; n; n; n; DL; n; DL; n; n; n; DL; n; n];
    [n; TL; n; n; n; TL; n; n; n; TL; n; n; n; TL; n];
    [n; n; n; n; DW; n; n; n; n; n; DW; n; n; n; n];
    [DL; n; n; DW; n; n; n; DL; n; n; n; DW; n; n; DL];
    [n; n; DW; n; n; n; DL; n; DL; n; n; n; DW; n; n];
    [n; DW; n; n; n; TL; n; n; n; TL; n; n; n; DW; n];
    [TW; n; n; DL; n; n; n; TW; n; n; n; DL; n; n; TW] ].

(** [createEmptyBoard], without the evocations it scatters over the
    [powerUp] fields: no tile anywhere, the multipliers of the layout. *)
Definition createEmptyBoard : Board :=
  map (map (fun m => BoardCell.Build None m)) MULTIPLIER_LAYOUT.

(** ** Scoring *)

(** Modelled from the spec: [services/scoreCalculator.ts] is not among the
    sources.  The specification gives the score of a word as the sum of
    letter value times letter multiplier, times the product of the word
    multipliers, where a multiplier counts only on a cell that received a
    new tile in this move; the total is the sum over the words formed: the
    primary word and the perpendicular words through new tiles; a fixed
    bonus is added when the move uses all rack tiles.  The center cell
    doubles the word. *)
Module Score.

Definition letterMultiplier (m : option MultiplierType) : Z :=
  match m with
  | Some DOUBLE_LETTER => 2
  | Some TRIPLE_LETTER => 3
  | _ => 1
  end.

Definition wordMultiplier (m : option MultiplierType) : Z :=
  match m with
  | Some DOUBLE_WORD => 2
  | Some TRIPLE_WORD => 3
  | Some CENTER => 2
  | _ => 1
  end.

(** One cell of a word: its tile value, its multiplier, and whether the
    tile was placed by this move. *)
Record cell : Type := Cell {
  cellValue : Z;
  cellMultiplier : option MultiplierType;
  isNew : bool
}.

(** The running sum and the running word multiplier, cell after cell. *)
Definition addCell (acc : Z * Z) (c : cell) : Z * Z :=
  let '(sum, mult) := acc in
  if isNew c
  then (sum + cellValue c * letterMultiplier (cellMultiplier c),
        mult * wordMultiplier (cellMultiplier c))%Z
  else ((sum + cellValue c)%Z, mult).

(** Modelled from the spec: the score of one word, of
    [scoreCalculator.ts], which is not among the sources. *)
Definition wordScore (w : list cell) : Z :=
  let '(sum, mult) := fold_left addCell w (0, 1)%Z in (sum * mult)%Z.

(** The formula of the specification, written as a sum and a product. *)
Definition letterPoints (c : cell) : Z :=
  (cellValue c * (if isNew c then letterMultiplier (cellMultiplier c) else 1))%Z.

Definition wordFactor (c : cell) : Z :=
  if isNew c then wordMultiplier (cellMultiplier c) else 1%Z.

Definition specWordScore (w : list cell) : Z :=
  (fold_right Z.add 0 (map letterPoints w)
   * fold_right Z.mul 1 (map wordFactor w))%Z.

Definition multiplierAt (b : Board) (row col : Z) : option MultiplierType :=
  match index b row with
  | Some r => match index r col with
              | Some c => BoardCell.multiplier c
              | None => None
              end
  | None => None
  end.

Definition placedAt (placed : list PlacedTile.t) (row col : Z)
  : option Tile :=
  option_map PlacedTile.tile
    (List.find (fun p => (PlacedTile.row p =? row)%Z
                         && (PlacedTile.col p =? col)%Z) placed).

(** The cell at a position after the move: a new tile, an old one, or
    nothing. *)
Definition cellAfter (b : Board) (placed : list PlacedTile.t) (row col : Z)
  : option cell :=
  match placedAt placed row col with
  | Some t => Some (Cell (value t) (multiplierAt b row col) true)
  | None =>
      match tileAt b row col with
      | Some t => Some (Cell (value t) (multiplierAt b row col) false)
      | None => None
      end
  end.

Definition delta (d : Direction) : Z * Z :=
  match d with H => (0, 1)%Z | V => (1, 0)%Z end.

Definition perpendicular (d : Direction) : Direction :=
  match d with H => V | V => H end.

(** Walk back to the first cell of the word through [(row, col)]. *)
Fixpoint wordStart (fuel : nat) (b : Board) (placed : list PlacedTile.t)
         (d : Direction) (row col : Z) : Z * Z :=
  match fuel with
  | O => (row, col)
  | S fuel' =>
      let '(dr, dc) := delta d in
      match cellAfter b placed (row - dr) (col - dc) with
      | Some _ => wordStart fuel' b placed d (row - dr)%Z (col - dc)%Z
      | None => (row, col)
      end
  end.

(** Collect the cells of the word that starts at [(row, col)]. *)
Fixpoint collect (fuel : nat) (b : Board) (placed : list PlacedTile.t)
         (d : Direction) (row col : Z) : list cell :=
  match fuel with
  | O => []
  | S fuel' =>
      let '(dr, dc) := delta d in
      match cellAfter b placed row col with
      | Some c => c :: collect fuel' b placed d (row + dr)%Z (col + dc)%Z
      | None => []
      end
  end.

Definition wordThrough (b : Board) (placed : list PlacedTile.t)
           (d : Direction) (row col : Z) : list cell :=
  let n := Z.to_nat BOARD_SIZE in
  let '(r0, c0) := wordStart n b placed d row col in
  collect n b placed d r0 c0.

Definition isWord (w : list cell) : bool := (1 <? length w)%nat.

(** The primary word along [d], then the perpendicular words through
    the new tiles; a single tile is no word. *)
Definition wordsFormed (b : Board) (placed : list PlacedTile.t)
           (d : Direction) : list (list cell) :=
  let primary :=
    match placed with
    | [] => []
    | p :: _ => [wordThrough b placed d (PlacedTile.row p) (PlacedTile.col p)]
    end in
  let crossing :=
    map (fun p => wordThrough b placed (perpendicular d)
                    (PlacedTile.row p) (PlacedTile.col p)) placed in
  List.filter isWord (primary ++ crossing).

(** Modelled from the spec: the total of [calculateTurnScore], of
    [scoreCalculator.ts], which is not among the sources. *)
Definition totalScore (bonus : Z) (usesAllRackTiles : bool) (b : Board)
           (placed : list PlacedTile.t) (d : Direction) : Z :=
  (fold_right Z.add 0 (map wordScore (wordsFormed b placed d))
   + (if usesAllRackTiles then bonus else 0))%Z.

End Score.

(** ** convertTilesToRack and convertGaddagMoveToPlacedTiles *)

Definition convertTilesToRack (tiles : list Tile) : string :=
  Js.join "" (map (fun tile => if isBlank tile then "?"
                               else Js.toUpperCase (letter tile)) tiles).

(** [usedTileIds.includes(t.id)] *)
Definition includesId (usedTileIds : list string) (i : string) : bool :=
  existsb (String.eqb i) usedTileIds.

(** [playerTiles.find(t => t.letter.toUpperCase() === letter &&
    !usedTileIds.includes(t.id))] *)
Definition findLetterTile (playerTiles : list Tile) (usedTileIds : list string)
           (l : string) : option Tile :=
  List.find (fun t => String.eqb (Js.toUpperCase (letter t)) l
                      && negb (includesId usedTileIds (id t))) playerTiles.

(** [playerTiles.find(t => t.isBlank && !usedTileIds.includes(t.id))] *)
Definition findBlankTile (playerTiles : list Tile) (usedTileIds : list string)
  : option Tile :=
  List.find (fun t => isBlank t && negb (includesId usedTileIds (id t)))
            playerTiles.

(** [{...blankTile, chosenLetter: letter, value: 0, isBlank: true}] *)
Definition asChosen (blankTile : Tile) (l : string) : Tile :=
  {| id := id blankTile; letter := letter blankTile; value := 0;
     isBlank := true; chosenLetter := Some l |}.

Definition availableTile (playerTiles : list Tile) (usedTileIds : list string)
           (l : string) : option Tile :=
  match findLetterTile playerTiles usedTileIds l with
  | Some t => Some t
  | None =>
      match findBlankTile playerTiles usedTileIds with
      | Some blankTile => Some (asChosen blankTile l)
      | None => None
      end
  end.

(** [word[i].toUpperCase()] *)
Definition letterOf (c : ascii) : string :=
  String (Js.upperChar c) EmptyString.

Section Convert.

Variables (playerTiles : list Tile) (gameBoard : Board).
Variables (startRow startCol : Z) (isHorizontal : bool).

Definition rowAt (i : Z) : Z := if isHorizontal then startRow else (startRow + i)%Z.
Definition colAt (i : Z) : Z := if isHorizontal then (startCol + i)%Z else startCol.

(** The state of the loop: [placedTiles] and [usedTileIds]. *)
Definition convertState : Type := (list PlacedTile.t * list string)%type.

(** One turn of the loop at index [i]; [None] is the early [return []]. *)
Definition convertStep (st : convertState) (i : Z) (c : ascii)
  : option convertState :=
  let '(placedTiles, usedTileIds) := st in
  match tileAt gameBoard (rowAt i) (colAt i) with
  | Some _ => Some st
  | None =>
      match availableTile playerTiles usedTileIds (letterOf c) with
      | Some t =>
          Some (placedTiles ++ [PlacedTile.Build t (rowAt i) (colAt i)],
                usedTileIds ++ [id t])
      | None => None
      end
  end.

(** The turns for the characters [cs] of the word from index [i] on. *)
Fixpoint convertFrom (cs : list ascii) (i : Z) (st : convertState)
  : option convertState :=
  match cs with
  | [] => Some st
  | c :: rest =>
      match convertStep st i c with
      | Some st' => convertFrom rest (i + 1)%Z st'
      | None => None
      end
  end.

(** Properties of the state of the loop. *)

(** [usedTileIds] lists the ids of [placedTiles], without repetition. *)
Definition idsRecorded (st : convertState) : Prop :=
  snd st = map (fun p => id (PlacedTile.tile p)) (fst st) /\ List.NoDup (snd st).

(** Every placed tile sits on a cell the board leaves free and carries
    the id of a rack tile. *)
Definition wellPlaced (st : convertState) : Prop :=
  forall p, In p (fst st) ->
    tileAt gameBoard (PlacedTile.row p) (PlacedTile.col p) = None /\
    exists t, In t playerTiles /\ id t = id (PlacedTile.tile p).

(** With blanks that spell no letter of the word, a placed tile that is
    a blank stands for the letter of its cell and is worth nothing. *)
Definition blanksTracked (chars : list ascii) (st : convertState) : Prop :=
  forall p, In p (fst st) -> isBlank (PlacedTile.tile p) = true ->
    exists k c, nth_error chars k = Some c /\
      PlacedTile.row p = rowAt (Z.of_nat k) /\
      PlacedTile.col p = colAt (Z.of_nat k) /\
      chosenLetter (PlacedTile.tile p) = Some (letterOf c) /\
      value (PlacedTile.tile p) = 0%Z.

Definition convertWord (word : string) : list PlacedTile.t :=
  match convertFrom (list_ascii_of_string word) 0%Z ([], []) with
  | Some (placedTiles, _) => placedTiles
  | None => []
  end.

End Convert.

Definition convertGaddagMoveToPlacedTiles (move : Move.t)
           (playerTiles : list Tile) (gameBoard : Board) : list PlacedTile.t :=
  convertWord playerTiles gameBoard (Move.row move) (Move.col move)
    (match Move.dir move with H => true | V => false end)
    (Move.word move).

(** ** generateStrategicExchange *)

Record tileValue : Type := TileValue {
  tvTile : Tile;
  tvValue : Z;
  isVowel : bool
}.

(** The comparator handed to [sort]. *)
Definition compareTileValues (a b : tileValue) : Z :=
  if negb (Bool.eqb (isVowel a) (isVowel b))
  then (if isVowel a then 1 else -1)%Z
  else (tvValue a - tvValue b)%Z.

(** [Array.prototype.sort] is stable.  The elements are inserted from the
    last to the first, each before the first element that is not smaller:
    equal elements keep the order they had. *)
Fixpoint insertSorted (x : tileValue) (l : list tileValue) : list tileValue :=
  match l with
  | [] => [x]
  | y :: r => if (compareTileValues x y <=? 0)%Z then x :: l
              else y :: insertSorted x r
  end.

Definition sortTileValues (l : list tileValue) : list tileValue :=
  fold_right insertSorted [] l.

(** [random3] is the value of [Math.floor(Math.random() * 3)]. *)
Definition generateStrategicExchange (random3 : nat) (tiles : list Tile)
  : AIMove.t :=
  let tileValues :=
    map (fun t => TileValue t (value t)
                    (Js.includes "AEIOU" (Js.toUpperCase (letter t)))) tiles in
  let sorted := sortTileValues tileValues in
  let exchangeCount := Nat.min (Nat.max 3 (random3 + 3)) (length tiles) in
  let tilesToExchange := map tvTile (Js.slice 0 exchangeCount sorted) in
  AIMove.Build EXCHANGE None (Some (map id tilesToExchange)).

(** ** generateMove *)

Record Validation : Type := { isValid : bool; errors : list string }.

(** [try body catch handler] *)
Definition tryCatch {A} (body : result A) (handler : string -> result A)
  : result A :=
  match body with
  | Ok a => Ok a
  | Throw e => handler e
  end.

(** [Promise.race] of a promise and a timer that rejects. *)
Definition raceTimeout {A} (timerFirst : bool) (message : string)
           (p : result A) : result A :=
  if timerFirst then Throw message else p.

(** Sequencing: a throw ends the block. *)
Global Instance result_bind : MBind result := fun A B k r =>
  match r with
  | Ok a => k a
  | Throw e => Throw e
  end.

(** What [generateMove] meets outside its arguments. *)
Record World : Type := {
  (** how [ensureInitialized()] settles *)
  initOutcome : result unit;
  (** whether the 3 s timer settles first *)
  initTimerFirst : bool;
  (** the fields [gaddag] and [dictionary] read after the wait *)
  gaddag : option Gaddag.t;
  dictionary : option (gset string);
  (** whether the 2 s timer settles before the generation promise *)
  generationTimerFirst : bool;
  (** [Math.floor(Math.random() * 3)] *)
  random3 : nat
}.

Section GenerateMove.

(** The collaborators that are not among the sources: [Board] of
    [gaddag/board.ts] with the conversion into it and its move
    generator, and [validateMove] of [wordValidator.ts].  Each may
    throw. *)
Variable GaddagBoard : Type.
Variable convertToGaddagBoard : gset string -> Board -> result GaddagBoard.
Variable generateMoves : GaddagBoard -> string -> Gaddag.t -> result (list Move.t).
Variable validateMove : list PlacedTile.t -> Board -> result Validation.

(** One turn of [for (const move of moves.slice(0, 15))]: [Some] is the
    [return] of a WORD move, [None] goes on with the next move. *)
Definition tryMove (player : Player.t) (gameBoard : Board) (move : Move.t)
  : option AIMove.t :=
  let attempt :=
    let placedTiles :=
      convertGaddagMoveToPlacedTiles move (Player.tiles player) gameBoard in
    validation ← validateMove placedTiles gameBoard;
    Ok (if isValid validation
        then Some (AIMove.Build WORD (Some placedTiles) None)
        else None) in
  match attempt with
  | Ok r => r
  | Throw _ => None   (* continue; // Try next move *)
  end.

Fixpoint tryMoves (player : Player.t) (gameBoard : Board)
         (moves : list Move.t) : option AIMove.t :=
  match moves with
  | [] => None
  | move :: rest =>
      match tryMove player gameBoard move with
      | Some m => Some m
      | None => tryMoves player gameBoard rest
      end
  end.

(** The candidate converts and [validateMove] returns a valid result. *)
Definition passesValidation (player : Player.t) (gameBoard : Board)
           (move : Move.t) : bool :=
  match validateMove
          (convertGaddagMoveToPlacedTiles move (Player.tiles player) gameBoard)
          gameBoard with
  | Ok validation => isValid validation
  | Throw _ => false
  end.

Definition generateMove (w : World) (gameState : GameState.t)
           (playerId : string) : result AIMove.t :=
  match List.find (fun p => String.eqb (Player.id p) playerId)
                  (GameState.players gameState) with
  | None => Ok (AIMove.Build PASS None None)
  | Some player =>
      let exchange := generateStrategicExchange (random3 w) (Player.tiles player) in
      match raceTimeout (initTimerFirst w) "AI initialization timeout"
                        (initOutcome w) with
      | Throw _ => Ok exchange
      | Ok _ =>
          match gaddag w, dictionary w with
          | Some g, Some d =>
              tryCatch
                (gaddagBoard ← convertToGaddagBoard d (GameState.board gameState);
                 let rack := convertTilesToRack (Player.tiles player) in
                 moves ← raceTimeout (generationTimerFirst w)
                            "Move generation timeout"
                            (generateMoves gaddagBoard rack g);
                 if (length moves =? 0)%nat then Ok exchange
                 else
                   match tryMoves player (GameState.board gameState)
                                  (Js.slice 0 15 moves) with
                   | Some m => Ok m
                   | None => Ok exchange
                   end)
                (fun _ => Ok exchange)
          | _, _ => Ok exchange
          end
      end
  end.

End GenerateMove.

(** ** initialize and ensureInitialized *)

(** The service object between two turns of the event loop.  An [async]
    method runs without interruption up to its next [await]; the calls of
    [initialize] that wait at an [await] are kept in [running], under the
    number of the promise each call returned. *)
Module Init.

Inductive stage : Type :=
| AwaitLoadDictionary   (* await dictionaryService.loadDictionary() *)
| AwaitGaddag           (* await Promise.race([build, 30 s timer]) *)
| AwaitDictionarySet.   (* await Promise.race([getDictionarySet, 10 s timer]) *)

Record t : Type := Build {
  gaddag : option Gaddag.t;
  dictionary : option (gset string);
  initPromise : option nat;
  isInitializing : bool;
  (** bookkeeping, not fields of the class *)
  running : gmap nat stage;
  promises : nat;    (* promises returned by initialize so far *)
  builds : nat       (* calls of buildGaddagFromDictionaryService so far *)
}.

(** [new QuackleGADDAGAIService()] *)
Definition new : t := Build None None None false ∅ 0 0.

Definition ready (s : t) : bool :=
  match gaddag s, dictionary s with
  | Some _, Some _ => true
  | _, _ => false
  end.

(** [initialize()] up to its first [await]; the promise it returns. *)
Definition initialize (s : t) : t * nat :=
  let p := promises s in
  if isInitializing s || ready s then
    (Build (gaddag s) (dictionary s) (initPromise s) (isInitializing s)
           (running s) (S p) (builds s), p)
  else
    (Build (gaddag s) (dictionary s) (initPromise s) true
           (<[p := AwaitLoadDictionary]> (running s)) (S p) (builds s), p).

(** [ensureInitialized()] up to its [await]; the promise it awaits. *)
Definition ensureInitialized (s : t) : t * nat :=
  match initPromise s with
  | None =>
      let '(s', p) := initialize s in
      (Build (gaddag s') (dictionary s') (Some p) (isInitializing s')
             (running s') (promises s') (builds s'), p)
  | Some p => (s, p)
  end.

(** The [catch] and [finally] of [initialize]: the call [k] ends. *)
Definition finish (k : nat) (s : t) : t :=
  Build (gaddag s) (dictionary s) (initPromise s) false
        (delete k (running s)) (promises s) (builds s).

Inductive event : Type :=
| CallInitialize
| CallEnsureInitialized
| LoadDictionarySettled (k : nat) (r : result unit)
| GaddagSettled (k : nat) (r : result Gaddag.t)
| DictionarySetSettled (k : nat) (r : result (gset string)).

Definition step (s : t) (e : event) : t :=
  match e with
  | CallInitialize => fst (initialize s)
  | CallEnsureInitialized => fst (ensureInitialized s)
  | LoadDictionarySettled k r =>
      match running s !! k with
      | Some AwaitLoadDictionary =>
          match r with
          | Ok _ =>
              (* buildGaddagFromDictionaryService() is called here *)
              Build (gaddag s) (dictionary s) (initPromise s) (isInitializing s)
                    (<[k := AwaitGaddag]> (running s)) (promises s)
                    (S (builds s))
          | Throw _ => finish k s
          end
      | _ => s
      end
  | GaddagSettled k r =>
      match running s !! k with
      | Some AwaitGaddag =>
          match r with
          | Ok g =>
              Build (Some g) (dictionary s) (initPromise s) (isInitializing s)
                    (<[k := AwaitDictionarySet]> (running s)) (promises s)
                    (builds s)
          | Throw _ => finish k s
          end
      | _ => s
      end
  | DictionarySetSettled k r =>
      match running s !! k with
      | Some AwaitDictionarySet =>
          match r with
          | Ok d =>
              finish k (Build (gaddag s) (Some d) (initPromise s)
                              (isInitializing s) (running s) (promises s)
                              (builds s))
          | Throw _ => finish k s
          end
      | _ => s
      end
  end.

Definition run (s : t) (es : list event) : t := fold_left step es s.

(** Calls that come from [generateMove] only: [initialize] is reached
    through [ensureInitialized]. *)
Definition viaEnsure (e : event) : bool :=
  match e with CallInitialize => false | _ => true end.

(** No call of [initialize] is waiting. *)
Definition idle (s : t) : Prop :=
  running s = ∅ /\ isInitializing s = false.

(** One call of [initialize] is waiting; it has not set the dictionary
    yet, and it has set the GADDAG if it is past the build. *)
Definition busy (s : t) : Prop :=
  exists k st,
    running s = {[k := st]} /\ isInitializing s = true /\
    dictionary s = None /\
    (st = AwaitDictionarySet -> gaddag s <> None).

Definition consistent (s : t) : Prop :=
  (dictionary s <> None -> gaddag s <> None) /\ (idle s \/ busy s).

(** The bookkeeping of [initPromise] when [initialize] is not called
    from outside. *)
Definition memoized (s : t) : Prop :=
  (initPromise s = None /\ running s = ∅ /\ builds s = 0%nat) \/
  (initPromise s <> None /\
   ((exists k, running s = {[k := AwaitLoadDictionary]} /\ builds s = 0%nat) \/
    ((forall k, running s !! k <> Some AwaitLoadDictionary) /\
     (builds s <= 1)%nat))).

End Init.

(** ** Concrete inputs used by the examples *)

(** A word source with one candidate file. *)
Definition exampleEnv : processEnv :=
  {| cwd := "/app"; dirname := "/app/dist/services" |}.

Definition exampleFs (content : string) : fileSystem :=
  fun p => if String.eqb p "/app/public/sowpods.txt"
           then Readable content else Absent.

Definition noFiles : fileSystem := fun _ => Absent.

(** "CATS" with the letter values C=3, A=1, T=1, S=1. *)
Definition catsTiles : list Tile :=
  [ mkTile "t1" "C" 3 false None; mkTile "t2" "A" 1 false None;
    mkTile "t3" "T" 1 false None; mkTile "t4" "S" 1 false None ].

(** The tiles laid from [(row, col)] on, along [d]. *)
Fixpoint layTiles (tiles : list Tile) (d : Direction) (row col : Z)
  : list PlacedTile.t :=
  match tiles with
  | [] => []
  | t :: rest =>
      let '(dr, dc) := Score.delta d in
      PlacedTile.Build t row col :: layTiles rest d (row + dr)%Z (col + dc)%Z
  end.

(** "CATS" laid along [d] through the center (7, 7), its first letter
    [back] cells before the center. *)
Definition catsThroughCenter (d : Direction) (back : Z) : list PlacedTile.t :=
  let '(dr, dc) := Score.delta d in
  layTiles catsTiles d (7 - back * dr)%Z (7 - back * dc)%Z.

(** A rack with a blank, and the move "CAT" from the center to the right. *)
Definition blankTile : Tile := mkTile "blank-1" "?" 0 true None.

Definition exampleRack : list Tile :=
  [ mkTile "t1" "C" 3 false None; blankTile; mkTile "t3" "T" 1 false None ].

Definition exampleMove : Move.t := Move.Build "CAT" 7 7 H 10.

(** A game with one AI player on the empty board, a service that is
    ready, and stand-ins for the collaborators: the board conversion
    succeeds, the generator returns a fixed list, and validation accepts
    exactly the moves that place a tile. *)
Definition examplePlayer : Player.t := Player.Build "ai-1" "Baal" exampleRack.

Definition exampleGame : GameState.t :=
  GameState.Build [examplePlayer] createEmptyBoard.

Definition readyWorld : World :=
  {| initOutcome := Ok tt; initTimerFirst := false;
     gaddag := Some Gaddag.new; dictionary := Some ∅;
     generationTimerFirst := false; random3 := 0 |}.

Definition timedOutWorld : World :=
  {| initOutcome := Ok tt; initTimerFirst := false;
     gaddag := Some Gaddag.new; dictionary := Some ∅;
     generationTimerFirst := true; random3 := 0 |}.

Definition exampleConvertBoard (d : gset string) (b : Board) : result unit :=
  Ok tt.

Definition exampleGenerator (moves : list Move.t)
  : unit -> string -> Gaddag.t -> result (list Move.t) :=
  fun _ _ _ => Ok moves.

Definition exampleValidate (placedTiles : list PlacedTile.t) (b : Board)
  : result Validation :=
  Ok {| isValid := (0 <? length placedTiles)%nat; errors := [] |}.

(** "ZOO" cannot be laid from the example rack, "CAT" can. *)
Definition zooMove : Move.t := Move.Build "ZOO" 7 7 H 12.

(** * More of the code *)

From Stdlib Require Import Sorted Permutation.

(** ** generateStrategicExchange: the order of the sort *)

(** ['AEIOU'.includes(t.letter.toUpperCase())] *)
Definition isVowelTile (t : Tile) : bool :=
  Js.includes "AEIOU" (Js.toUpperCase (letter t)).

(** The entry of [tileValues] made for a tile. *)
Definition tileValueOf (t : Tile) : tileValue :=
  TileValue t (value t) (isVowelTile t).

(** The comparator puts [a] before or beside [b]. *)
Definition notAfter (a b : tileValue) : Prop :=
  (compareTileValues a b <= 0)%Z.

(** [Math.min(Math.max(3, Math.floor(Math.random() * 3) + 3), tiles.length)] *)
Definition exchangeCount (random3 : nat) (tiles : list Tile) : nat :=
  Nat.min (Nat.max 3 (random3 + 3)) (length tiles).

(** The tiles behind [exchangeTileIds], and the tiles that stay. *)
Definition tilesToExchange (random3 : nat) (tiles : list Tile) : list Tile :=
  map tvTile (firstn (exchangeCount random3 tiles)
                     (sortTileValues (map tileValueOf tiles))).

Definition tilesKept (random3 : nat) (tiles : list Tile) : list Tile :=
  map tvTile (skipn (exchangeCount random3 tiles)
                    (sortTileValues (map tileValueOf tiles))).

(** ** convertGaddagMoveToPlacedTiles: the cells of the word *)

Definition positionOf (p : PlacedTile.t) : Z * Z :=
  (PlacedTile.row p, PlacedTile.col p).

(** The cell of the letter at index [k] of the word. *)
Definition cellOfIndex (startRow startCol : Z) (isHorizontal : bool) (k : nat)
  : Z * Z :=
  (rowAt startRow isHorizontal (Z.of_nat k),
   colAt startCol isHorizontal (Z.of_nat k)).

(** The board has no tile under the letter at index [k]. *)
Definition isFreeIndex (gameBoard : Board) (startRow startCol : Z)
           (isHorizontal : bool) (k : nat) : bool :=
  match tileAt gameBoard (rowAt startRow isHorizontal (Z.of_nat k))
                         (colAt startCol isHorizontal (Z.of_nat k)) with
  | Some _ => false
  | None => true
  end.

(** The tile [t] stands for the letter [l]: a rack tile that spells it, or
    a rack blank that records it. *)
Definition standsFor (playerTiles : list Tile) (t : Tile) (l : string) : Prop :=
  (In t playerTiles /\ Js.toUpperCase (letter t) = l) \/
  (exists b, In b playerTiles /\ isBlank b = true /\ t = asChosen b l).

(** Every placed tile stands for the letter of the word at its cell. *)
Definition spellsWord (playerTiles : list Tile) (startRow startCol : Z)
           (isHorizontal : bool) (chars : list ascii) (st : convertState)
  : Prop :=
  forall p, In p (fst st) ->
    exists k c,
      nth_error chars k = Some c /\
      positionOf p = cellOfIndex startRow startCol isHorizontal k /\
      standsFor playerTiles (PlacedTile.tile p) (letterOf c).

(** ** The caller: the switch of GameService.executeAIMove *)

Inductive aiAction : Type :=
| ExecuteAIWordMove (tiles : list PlacedTile.t)
| ExchangeTiles (exchangeTileIds : list string)
| PassTurn.

(** [switch (aiMove.type)]: a WORD move without tiles and an EXCHANGE
    move without ids end in [passTurn]. *)
Definition aiMoveAction (aiMove : AIMove.t) : aiAction :=
  match AIMove.type aiMove with
  | WORD =>
      match AIMove.tiles aiMove with
      | Some (t :: rest) => ExecuteAIWordMove (t :: rest)
      | _ => PassTurn
      end
  | EXCHANGE =>
      match AIMove.exchangeTileIds aiMove with
      | Some (i :: rest) => ExchangeTiles (i :: rest)
      | _ => PassTurn
      end
  | PASS => PassTurn
  end.

(** The [try] around [generateMove] and the switch: an error ends in
    [passTurn]. *)
Definition executeAIMoveAction (generated : result AIMove.t) : aiAction :=
  match generated with
  | Ok aiMove => aiMoveAction aiMove
  | Throw _ => PassTurn
  end.

(** ** DictionaryService.isValidWord *)

Definition isValidWord (env : processEnv) (fs : fileSystem)
           (self : DictionaryService.t) (word : string)
  : result bool * DictionaryService.t :=
  if negb (Js.truthy word) || (String.length word =? 0)%nat then (Ok false, self)
  else
    let '(loaded, self') :=
      match DictionaryService.isLoaded self, DictionaryService.words self with
      | true, Some _ => (Ok tt, self)
      | _, _ => DictionaryService.loadDictionary env fs self
      end in
    match loaded with
    | Throw e => (Throw e, self')
    | Ok _ =>
        match DictionaryService.words self' with
        | None => (Throw "Dictionary not loaded", self')
        | Some ws => (Ok (bool_decide (Js.toUpperCase word ∈ ws)), self')
        end
    end.

(** ** The service after a failed initialization *)

(** [initPromise] is set and no call of [initialize] is waiting. *)
Definition settled (s : Init.t) : Prop :=
  Init.initPromise s <> None /\ Init.running s = ∅.

(** ** findWordFromTile, the scan of the board and groupTilesIntoWords *)

(** [{ row, col, code }] *)
Module WordTile.
Record t : Type := Build {
  row : Z;
  col : Z;
  code : option nat   (* a char code; [None] is NaN *)
}.
End WordTile.

(** [s.charCodeAt(0)]: NaN for the empty string. *)
Definition charCodeAt0 (s : string) : option nat :=
  match s with
  | EmptyString => None
  | String c _ => Some (nat_of_ascii c)
  end.

(** [row >= 0 && col >= 0 && row < BOARD_SIZE && col < BOARD_SIZE] *)
Definition inBounds (row col : Z) : bool :=
  (0 <=? row)%Z && (0 <=? col)%Z && (row <? BOARD_SIZE)%Z && (col <? BOARD_SIZE)%Z.

(** [gameBoard[row][col]] read for its [tile]: a TypeError when the row or
    the cell is missing. *)
Definition cellOf (gameBoard : Board) (row col : Z) : result BoardCell.t :=
  match index gameBoard row with
  | None => Throw "TypeError: Cannot read properties of undefined"
  | Some r =>
      match index r col with
      | None => Throw "TypeError: Cannot read properties of undefined (reading 'tile')"
      | Some cell => Ok cell
      end
  end.

(** [direction === 'H' ? [0, 1] : [1, 0]] *)
Definition directionVector (d : Direction) : Z * Z :=
  match d with H => (0, 1)%Z | V => (1, 0)%Z end.

(** [{ row, col, code }] for the tile of a cell. *)
Definition wordTileOf (row col : Z) (t : Tile) : WordTile.t :=
  WordTile.Build row col (charCodeAt0 (Js.toUpperCase (letter t))).

(** The first [while]: back to the start of the word.  [None] when the
    fuel runs out. *)
Fixpoint backToStart (fuel : nat) (gameBoard : Board) (dr dc : Z)
         (currentRow currentCol : Z) : option (result (Z * Z)) :=
  match fuel with
  | O => None
  | S fuel' =>
      if inBounds currentRow currentCol then
        let prevRow := (currentRow - dr)%Z in
        let prevCol := (currentCol - dc)%Z in
        if inBounds prevRow prevCol then
          match cellOf gameBoard prevRow prevCol with
          | Throw e => Some (Throw e)
          | Ok cell =>
              match BoardCell.tile cell with
              | Some _ => backToStart fuel' gameBoard dr dc prevRow prevCol
              | None => Some (Ok (currentRow, currentCol))
              end
          end
        else Some (Ok (currentRow, currentCol))
      else Some (Ok (currentRow, currentCol))
  end.

(** The second [while]: the tiles of the word, going forward. *)
Fixpoint collectWord (fuel : nat) (gameBoard : Board) (dr dc : Z)
         (currentRow currentCol : Z) : option (result (list WordTile.t)) :=
  match fuel with
  | O => None
  | S fuel' =>
      if inBounds currentRow currentCol then
        match cellOf gameBoard currentRow currentCol with
        | Throw e => Some (Throw e)
        | Ok cell =>
            match BoardCell.tile cell with
            | None => Some (Ok [])
            | Some t =>
                match collectWord fuel' gameBoard dr dc
                                  (currentRow + dr)%Z (currentCol + dc)%Z with
                | Some (Ok word) =>
                    Some (Ok (wordTileOf currentRow currentCol t :: word))
                | other => other
                end
            end
        end
      else Some (Ok [])
  end.

(** A turn for each cell of a line of the board, and one to leave. *)
Definition lineFuel : nat := S (Z.to_nat BOARD_SIZE).

Definition findWordFromTile (startTile : WordTile.t) (direction : Direction)
           (gameBoard : Board) : option (result (list WordTile.t)) :=
  let '(dr, dc) := directionVector direction in
  match backToStart lineFuel gameBoard dr dc
                    (WordTile.row startTile) (WordTile.col startTile) with
  | None => None
  | Some (Throw e) => Some (Throw e)
  | Some (Ok (currentRow, currentCol)) =>
      collectWord lineFuel gameBoard dr dc currentRow currentCol
  end.

(** The coordinate that changes along the direction. *)
Definition alongAxis (d : Direction) (row col : Z) : Z :=
  match d with H => col | V => row end.

(** The cell [i] steps from [(row, col)] along [d]. *)
Definition cellAlong (d : Direction) (row col : Z) (i : Z) : Z * Z :=
  let '(dr, dc) := directionVector d in ((row + i * dr)%Z, (col + i * dc)%Z).

Definition tileOn (gameBoard : Board) (pos : Z * Z) : option Tile :=
  tileAt gameBoard (fst pos) (snd pos).

Definition onBoard (pos : Z * Z) : bool := inBounds (fst pos) (snd pos).

Definition wordTilePosition (t : WordTile.t) : Z * Z :=
  (WordTile.row t, WordTile.col t).

(** [word] is the run of tiles of the board from [(row, col)] along [d]:
    cell after cell, each on the board with its tile, and the cell after
    the last one off the board or free. *)
Definition isRunFrom (gameBoard : Board) (d : Direction) (row col : Z)
           (word : list WordTile.t) : Prop :=
  (forall i t, nth_error word i = Some t ->
     wordTilePosition t = cellAlong d row col (Z.of_nat i) /\
     onBoard (wordTilePosition t) = true /\
     exists tile, tileOn gameBoard (wordTilePosition t) = Some tile /\
                  t = wordTileOf (WordTile.row t) (WordTile.col t) tile) /\
  (onBoard (cellAlong d row col (Z.of_nat (length word))) = true ->
   tileOn gameBoard (cellAlong d row col (Z.of_nat (length word))) = None).

(** Every cell of the 15 by 15 grid is there. *)
Definition boardDefined (gameBoard : Board) : Prop :=
  forall row col, inBounds row col = true ->
    exists cell, cellOf gameBoard row col = Ok cell.

(** The cells of the grid, row after row. *)
Definition boardCells : list (Z * Z) :=
  flat_map (fun row => map (fun col => (Z.of_nat row, Z.of_nat col))
                           (seq 0 (Z.to_nat BOARD_SIZE)))
           (seq 0 (Z.to_nat BOARD_SIZE)).

(** The two [for] loops of [convertToGaddagBoard] that collect the
    existing tiles. *)
Fixpoint scanCells (gameBoard : Board) (cells : list (Z * Z))
  : result (list WordTile.t) :=
  match cells with
  | [] => Ok []
  | (row, col) :: rest =>
      cell ← cellOf gameBoard row col;
      more ← scanCells gameBoard rest;
      Ok (match BoardCell.tile cell with
          | Some t => wordTileOf row col t :: more
          | None => more
          end)
  end.

Definition existingTiles (gameBoard : Board) : result (list WordTile.t) :=
  scanCells gameBoard boardCells.

Module WordGroup.
Record t : Type := Build {
  startRow : Z;
  startCol : Z;
  direction : Direction;
  tiles : list WordTile.t
}.
End WordGroup.

(** The key [`${row}-${col}`] of [processedTiles]: the pair itself, which
    the string determines. *)
Definition tileKey (row col : Z) : Z * Z := (row, col).

Definition keysOf (word : list WordTile.t) : gset (Z * Z) :=
  list_to_set (map (fun pos => tileKey (WordTile.row pos) (WordTile.col pos)) word).

(** [word.map(pos => ({ row: pos.row, col: pos.col, code: pos.code }))] *)
Definition copyTiles (word : list WordTile.t) : list WordTile.t :=
  map (fun pos => WordTile.Build (WordTile.row pos) (WordTile.col pos)
                                 (WordTile.code pos)) word.

(** The [for] loop of [groupTilesIntoWords]. *)
Fixpoint groupLoop (gameBoard : Board) (tiles : list WordTile.t)
         (wordGroups : list WordGroup.t) (processedTiles : gset (Z * Z))
  : option (result (list WordGroup.t)) :=
  match tiles with
  | [] => Some (Ok wordGroups)
  | tile :: rest =>
      let key := tileKey (WordTile.row tile) (WordTile.col tile) in
      if bool_decide (key ∈ processedTiles)
      then groupLoop gameBoard rest wordGroups processedTiles
      else
        match findWordFromTile tile H gameBoard with
        | None => None
        | Some (Throw e) => Some (Throw e)
        | Some (Ok (first :: second :: more)) =>
            let horizontalWord := first :: second :: more in
            groupLoop gameBoard rest
              (wordGroups ++ [WordGroup.Build (WordTile.row first)
                                (WordTile.col first) H (copyTiles horizontalWord)])
              (processedTiles ∪ keysOf horizontalWord)
        | Some (Ok _) =>
            match findWordFromTile tile V gameBoard with
            | None => None
            | Some (Throw e) => Some (Throw e)
            | Some (Ok (first :: second :: more)) =>
                let verticalWord := first :: second :: more in
                groupLoop gameBoard rest
                  (wordGroups ++ [WordGroup.Build (WordTile.row first)
                                    (WordTile.col first) V (copyTiles verticalWord)])
                  (processedTiles ∪ keysOf verticalWord)
            | Some (Ok _) =>
                groupLoop gameBoard rest
                  (wordGroups ++ [WordGroup.Build (WordTile.row tile)
                                    (WordTile.col tile) H [tile]])
                  (processedTiles ∪ {[key]})
            end
        end
  end.

Definition groupTilesIntoWords (tiles : list WordTile.t) (gameBoard : Board)
  : option (result (list WordGroup.t)) :=
  groupLoop gameBoard tiles [] ∅.

(** A tile of [tiles] sits on the cell [pos]. *)
Definition coversCell (tiles : list WordTile.t) (pos : Z * Z) : Prop :=
  exists t, In t tiles /\ wordTilePosition t = pos.

(** The empty board with tiles laid on it. *)
Definition boardWith (placed : list PlacedTile.t) : Board :=
  imap (fun r cells =>
          imap (fun c cell =>
                  match Score.placedAt placed (Z.of_nat r) (Z.of_nat c) with
                  | Some t => BoardCell.Build (Some t) (BoardCell.multiplier cell)
                  | None => cell
                  end) cells)
       createEmptyBoard.

(** "CATS" across the center row and "AT" down from its second letter. *)
Definition crossBoard : Board :=
  boardWith (catsThroughCenter H 1
             ++ [PlacedTile.Build (mkTile "t5" "t" 1 false None) 8 7]).

(** The tiles of a group lie from its start along its direction, cell
    after cell, each on the board and made from the tile of the board
    there: laying the codes of the group from its start rebuilds them. *)
Definition groupOnBoard (gameBoard : Board) (g : WordGroup.t) : Prop :=
  WordGroup.tiles g <> [] /\
  forall i t, nth_error (WordGroup.tiles g) i = Some t ->
    wordTilePosition t =
      cellAlong (WordGroup.direction g) (WordGroup.startRow g)
                (WordGroup.startCol g) (Z.of_nat i) /\
    onBoard (wordTilePosition t) = true /\
    exists tile, tileOn gameBoard (wordTilePosition t) = Some tile /\
                 t = wordTileOf (WordTile.row t) (WordTile.col t) tile.

(** The keys of [processedTiles] are cells of tiles of the groups. *)
Definition keysCovered (wordGroups : list WordGroup.t)
           (processedTiles : gset (Z * Z)) : Prop :=
  forall key, key ∈ processedTiles ->
    exists g, In g wordGroups /\ coversCell (WordGroup.tiles g) key.

(** ** generateDemonName *)

Definition DEMON_NAMES : list string :=
  [ "Baal"; "Agares"; "Vassago"; "Samigina"; "Marbas"; "Valefor"; "Amon";
    "Barbatos"; "Paimon"; "Buer"; "Gusion"; "Sitri"; "Beleth"; "Leraje";
    "Eligos"; "Zepar"; "Botis"; "Bathin"; "Sallos"; "Purson"; "Marax";
    "Ipos"; "Aim"; "Naberius" ].

(** [DEMON_NAMES.filter(name => !this.usedDemonNames.has(name))] *)
Definition availableNames (usedDemonNames : gset string) : list string :=
  List.filter (fun name => negb (bool_decide (name ∈ usedDemonNames)))
              DEMON_NAMES.

(** [pick] is the value of [Math.floor(Math.random() * names.length)] for
    the list that is indexed; the result is the name and the new
    [usedDemonNames], and [None] stands for an index out of range, which
    [Math.random] never gives. *)
Definition generateDemonName (pick : nat) (usedDemonNames : gset string)
  : option (string * gset string) :=
  if (length (availableNames usedDemonNames) =? 0)%nat then
    match nth_error DEMON_NAMES pick with
    | Some name => Some (name, {[name]})
    | None => None
    end
  else
    match nth_error (availableNames usedDemonNames) pick with
    | Some name => Some (name, usedDemonNames ∪ {[name]})
    | None => None
    end.

(** One call after the other, each with its own random index. *)
Fixpoint generateDemonNames (picks : list nat) (usedDemonNames : gset string)
  : option (list string * gset string) :=
  match picks with
  | [] => Some ([], usedDemonNames)
  | pick :: rest =>
      match generateDemonName pick usedDemonNames with
      | None => None
      | Some (name, used) =>
          match generateDemonNames rest used with
          | None => None
          | Some (names, used') => Some (name :: names, used')
          end
      end
  end.

(** ** Words of ASCII characters *)

(** A character below U+0080.  On these [String.prototype.toUpperCase]
    works character by character and keeps the length, as [Js.toUpperCase]
    does; outside them it may not (U+00DF becomes two characters). *)
Definition isAsciiChar (c : ascii) : bool := (nat_of_ascii c <? 128)%nat.

Definition isAsciiString (s : string) : bool :=
  forallb isAsciiChar (list_ascii_of_string s).

(** A move whose word is in lower case. *)
Definition lowerCaseMove : Move.t := Move.Build "cat" 7 7 H 10.

(** ** EvocationManager: validateTileUsage *)

From stdpp Require Import pretty.

(** [tileUsageCount.set(id, (tileUsageCount.get(id) || 0) + 1)]; a [Map]
    keeps its keys in the order they came. *)
Fixpoint countUse (tileId : string) (counts : list (string * nat))
  : list (string * nat) :=
  match counts with
  | [] => [(tileId, 1%nat)]
  | (k, n) :: rest =>
      if String.eqb k tileId then (k, (n + 1)%nat) :: rest
      else (k, n) :: countUse tileId rest
  end.

Definition tileUsageCount (pendingTiles : list PlacedTile.t)
  : list (string * nat) :=
  fold_left (fun counts pt => countUse (id (PlacedTile.tile pt)) counts)
            pendingTiles [].

(** [player.tiles.filter(t => t.id === tileId).length] *)
Definition playerTileCount (player : Player.t) (tileId : string) : nat :=
  length (List.filter (fun t => String.eqb (id t) tileId) (Player.tiles player)).

(** The number of pending tiles with the id. *)
Definition pendingTileCount (pendingTiles : list PlacedTile.t) (tileId : string)
  : nat :=
  length (List.filter (fun pt => String.eqb (id (PlacedTile.tile pt)) tileId)
                      pendingTiles).

(** [tile?.letter || 'Unknown'] *)
Definition letterOrUnknown (player : Player.t) (tileId : string) : string :=
  match List.find (fun t => String.eqb (id t) tileId) (Player.tiles player) with
  | Some t => if Js.truthy (letter t) then letter t else "Unknown"
  | None => "Unknown"
  end.

Definition usageErrors (player : Player.t) (entry : string * nat) : list string :=
  let '(tileId, usageCount) := entry in
  if (playerTileCount player tileId <? usageCount)%nat then
    [ "Cannot use tile '" +:+ letterOrUnknown player tileId +:+ "' "
      +:+ pretty usageCount +:+ " times - you only have "
      +:+ pretty (playerTileCount player tileId) ]
  else [].

Definition validateTileUsage (player : Player.t) (pendingTiles : list PlacedTile.t)
           (allowUnlimitedTiles : bool) : Validation :=
  if allowUnlimitedTiles then {| isValid := true; errors := [] |}
  else
    let errors := flat_map (usageErrors player) (tileUsageCount pendingTiles) in
    {| isValid := (length errors =? 0)%nat; errors := errors |}.

(** The count kept for an id, 0 when there is none. *)
Definition countFor (counts : list (string * nat)) (tileId : string) : nat :=
  match List.find (fun e => String.eqb (fst e) tileId) counts with
  | Some (_, n) => n
  | None => 0%nat
  end.

(** ** EvocationManager: effects on racks, bag and board *)

(** [tiles.find(t => t.id === tileId)] *)
Definition findById (tiles : list Tile) (tileId : string) : option Tile :=
  List.find (fun t => String.eqb (id t) tileId) tiles.

(** [{ ...player, tiles }] *)
Definition withTiles (player : Player.t) (tiles : list Tile) : Player.t :=
  Player.Build (Player.id player) (Player.name player) tiles.

Module AimResult.
Record t : Type := Build {
  success : bool;
  updatedPlayer : Player.t;
  error : option string
}.
End AimResult.

Definition executeAim (targetPlayer : Player.t) (targetTileIds : list string)
  : AimResult.t :=
  if negb (length targetTileIds =? 2)%nat then
    AimResult.Build false targetPlayer
                    (Some "Must select exactly 2 tiles to discard")
  else
    let tilesToRemove :=
      map (fun i => findById (Player.tiles targetPlayer) i) targetTileIds in
    if existsb (fun tile => match tile with None => true | Some _ => false end)
               tilesToRemove then
      AimResult.Build false targetPlayer
        (Some "Target player does not have one or more of the specified tiles")
    else
      let updatedTiles :=
        List.filter (fun t => negb (includesId targetTileIds (id t)))
                    (Player.tiles targetPlayer) in
      AimResult.Build true (withTiles targetPlayer updatedTiles) None.

Module AndromaliusResult.
Record t : Type := Build {
  success : bool;
  updatedCurrentPlayer : Player.t;
  updatedTargetPlayer : Player.t;
  error : option string
}.
End AndromaliusResult.

Definition executeAndromalius (currentPlayer targetPlayer : Player.t)
           (targetTileId : string) : AndromaliusResult.t :=
  match findById (Player.tiles targetPlayer) targetTileId with
  | None =>
      AndromaliusResult.Build false currentPlayer targetPlayer
                              (Some "Target tile not found")
  | Some targetTile =>
      let updatedTargetTiles :=
        List.filter (fun t => negb (String.eqb (id t) targetTileId))
                    (Player.tiles targetPlayer) in
      let updatedCurrentTiles := Player.tiles currentPlayer ++ [targetTile] in
      AndromaliusResult.Build true
        (withTiles currentPlayer updatedCurrentTiles)
        (withTiles targetPlayer updatedTargetTiles) None
  end.

(** The ids of a rack. *)
Definition rackIds (tiles : list Tile) : list string := map id tiles.

(** [[newBag[i], newBag[j]] = [newBag[j], newBag[i]]]: both elements are
    read, then index [i] is written, then index [j].  [None] stands for an
    index outside the array, which the loop of the shuffle never gives. *)
Definition swapAt {A} (i j : nat) (newBag : list A) : option (list A) :=
  match newBag !! i, newBag !! j with
  | Some x, Some y => Some (<[j := x]> (<[i := y]> newBag))
  | _, _ => None
  end.

(** [for (let i = newBag.length - 1; i > 0; i--)] from index [i] on;
    [draw i] is the value of [Math.floor(Math.random() * (i + 1))] in the
    pass for [i], and [None] stands for a value above [i], which
    [Math.random] never gives. *)
Fixpoint shuffleFrom {A} (draw : nat -> nat) (i : nat) (newBag : list A)
  : option (list A) :=
  match i with
  | O => Some newBag
  | S i' =>
      if (draw (S i') <=? S i')%nat then
        match swapAt (S i') (draw (S i')) newBag with
        | Some swapped => shuffleFrom draw i' swapped
        | None => None
        end
      else None
  end.

Definition shuffle {A} (draw : nat -> nat) (newBag : list A) : option (list A) :=
  shuffleFrom draw (length newBag - 1) newBag.

Module SwapResult.
Record t : Type := Build {
  updatedPlayer : Player.t;
  updatedBag : list Tile
}.
End SwapResult.

Definition swapPlayerTiles (draw : nat -> nat) (currentPlayer : Player.t)
           (tileBag : list Tile) : option SwapResult.t :=
  match shuffle draw (tileBag ++ Player.tiles currentPlayer) with
  | None => None
  | Some newBag =>
      let newTiles := firstn 7 newBag in
      let remainingBag := skipn 7 newBag in
      Some (SwapResult.Build (withTiles currentPlayer newTiles) remainingBag)
  end.

Module ValeforResult.
Record t : Type := Build {
  success : bool;
  updatedBoard : Board;
  stolenMultiplier : option (MultiplierType * (Z * Z));
  error : option string
}.
End ValeforResult.

(** [board[row]?.[col]] *)
Definition cellAt (board : Board) (row col : Z) : option BoardCell.t :=
  match index board row with
  | Some r => index r col
  | None => None
  end.

(** [board.map((row, rowIndex) => row.map((cell, colIndex) => ...))] with
    the multiplier of the target cell set to [null]. *)
Definition withoutMultiplier (board : Board) (row col : Z) : Board :=
  imap (fun rowIndex cells =>
          imap (fun colIndex cell =>
                  if (Z.of_nat rowIndex =? row)%Z && (Z.of_nat colIndex =? col)%Z
                  then BoardCell.Build (BoardCell.tile cell) None
                  else cell) cells)
       board.

Definition executeValefor (board : Board) (row col : Z) : ValeforResult.t :=
  match cellAt board row col with
  | None =>
      ValeforResult.Build false board None (Some "Invalid board position")
  | Some targetCell =>
      match BoardCell.multiplier targetCell, BoardCell.tile targetCell with
      | Some m, None =>
          ValeforResult.Build true (withoutMultiplier board row col)
                              (Some (m, (row, col))) None
      | _, _ =>
          ValeforResult.Build false board None
            (Some "No available multiplier at target position")
      end
  end.

(** A rack of two players' worth of tiles, a bag, and the draws of one
    shuffle. *)
Definition exampleBag : list Tile :=
  [ mkTile "b1" "E" 1 false None; mkTile "b2" "R" 1 false None;
    mkTile "b3" "Q" 10 false None; mkTile "b4" "I" 1 false None;
    mkTile "b5" "N" 1 false None; mkTile "b6" "O" 1 false None ].

Definition exampleDraw (i : nat) : nat := (i / 2)%nat.

(** * Properties *)

(** ** Strings *)

Module JsFacts.

Lemma upperChar_idempotent (c : ascii) :
  Js.upperChar (Js.upperChar c) = Js.upperChar c.
Proof.
  destruct c as [[] [] [] [] [] [] [] []]; vm_compute; reflexivity.
Qed.

Lemma toUpperCase_idempotent (s : string) :
  Js.toUpperCase (Js.toUpperCase s) = Js.toUpperCase s.
Proof.
  induction s as [|c s IH]; simpl; [reflexivity|].
  now rewrite upperChar_idempotent, IH.
Qed.

Lemma toUpperCase_length (s : string) :
  String.length (Js.toUpperCase s) = String.length s.
Proof. induction s; simpl; congruence. Qed.

Lemma split_not_nil (sep : ascii) (s : string) : Js.split sep s <> [].
Proof.
  induction s as [|c s IH]; simpl; [discriminate|].
  destruct (Ascii.eqb c sep); [discriminate|].
  destruct (Js.split sep s); discriminate.
Qed.

Lemma slice_from_zero {A} (n : nat) (l : list A) :
  Js.slice 0 n l = firstn n l.
Proof. unfold Js.slice. now rewrite Nat.sub_0_r. Qed.

Example split_keeps_blank_lines :
  Js.split Js.newline "a

b" = ["a"; ""; "b"].
Proof. reflexivity. Qed.

Example split_of_empty : Js.split Js.newline "" = [""].
Proof. reflexivity. Qed.

Example trim_inner_space : Js.trim "  c at  " = "c at".
Proof. reflexivity. Qed.

Example parseWords_lines :
  parseWords " cat
Dog
" = ["CAT"; "DOG"].
Proof. reflexivity. Qed.

End JsFacts.

(** ** The build loop *)

Module BuildFacts.

Lemma nonEmpty_spec (w : string) :
  nonEmpty w = true <-> (1 <= String.length w)%nat.
Proof.
  unfold nonEmpty. destruct w as [|c w]; simpl; split; intros Hw;
    try discriminate; try lia; reflexivity.
Qed.

Section Loop.

Context {G : Type} (addWord : string -> G -> G).

Lemma fold_processWord (words : list string) (g : G) :
  fold_left (processWord addWord) words g =
  fold_left (fun g w => addWord w g) (List.filter nonEmpty words) g.
Proof.
  revert g. induction words as [|w words IH]; intros g; simpl; [reflexivity|].
  rewrite IH. unfold processWord at 1.
  destruct (nonEmpty w); reflexivity.
Qed.

(** With fuel for the chunks left, the loop ends and has processed
    every word from [i] on, in order. *)
Lemma chunkLoop_total (fuel i : nat) (words : list string) (g : G) :
  (length words - i < fuel)%nat ->
  chunkLoop addWord fuel i words g =
  Some (fold_left (processWord addWord) (skipn i words) g).
Proof.
  revert i g. induction fuel as [|fuel IH]; intros i g Hfuel; [lia|].
  simpl. destruct (Nat.ltb_spec i (length words)) as [Hlt|Hge].
  - rewrite IH by (unfold CHUNK_SIZE; lia).
    f_equal. unfold Js.slice.
    replace (i + CHUNK_SIZE - i)%nat with CHUNK_SIZE by lia.
    transitivity (fold_left (processWord addWord)
                    (firstn CHUNK_SIZE (skipn i words)
                     ++ skipn CHUNK_SIZE (skipn i words)) g).
    + rewrite fold_left_app, skipn_skipn.
      now replace (CHUNK_SIZE + i)%nat with (i + CHUNK_SIZE)%nat by lia.
    + now rewrite firstn_skipn.
  - now rewrite skipn_all2 by lia.
Qed.

Lemma buildFromWords_total (words : list string) (g : G) :
  buildFromWords addWord words g =
  Some (fold_left (fun g w => addWord w g) (List.filter nonEmpty words) g).
Proof.
  unfold buildFromWords. rewrite chunkLoop_total by lia.
  simpl. now rewrite fold_processWord.
Qed.

Lemma buildFromPaths_readable fs paths p content (g : G) :
  firstExisting fs paths = Some p -> fs p = Readable content ->
  buildFromPaths addWord fs paths g =
  Some (Ok (fold_left (fun g w => addWord w g)
                      (List.filter nonEmpty (parseWords content)) g)).
Proof.
  induction paths as [|q paths IH]; simpl; [discriminate|].
  destruct (existsSync fs q) eqn:Hq.
  - intros [= ->] Hp. unfold readFileSync. rewrite Hp.
    now rewrite buildFromWords_total.
  - exact IH.
Qed.

Lemma buildFromPaths_absent fs paths (g : G) :
  (forall p, In p paths -> fs p = Absent) ->
  buildFromPaths addWord fs paths g = None.
Proof.
  induction paths as [|q paths IH]; simpl; intros Habs; [reflexivity|].
  unfold existsSync. rewrite (Habs q) by now left.
  apply IH. intros p Hp. apply Habs. now right.
Qed.

(** A build that returns has read the word source. *)
Lemma buildWith_ok env fs (g g' : G) :
  buildWith addWord env fs g = Ok g' ->
  exists content, wordSource env fs = Some content /\
    g' = fold_left (fun g w => addWord w g)
                   (List.filter nonEmpty (parseWords content)) g.
Proof.
  unfold buildWith, wordSource.
  generalize (possiblePaths env) as paths.
  intros paths.
  assert (Hgen : forall r,
    buildFromPaths addWord fs paths g = Some r -> r = Ok g' ->
    exists content,
      match firstExisting fs paths with
      | Some p => match fs p with Readable c => Some c | _ => None end
      | None => None
      end = Some content /\
      g' = fold_left (fun g w => addWord w g)
             (List.filter nonEmpty (parseWords content)) g).
  { induction paths as [|q paths IH]; simpl; [discriminate|].
    intros r. unfold existsSync, readFileSync.
    destruct (fs q) as [|c|e] eqn:Hq.
    - apply IH.
    - rewrite buildFromWords_total, Hq. intros [= <-] [= Hg].
      exists c. split; [reflexivity | now symmetry].
    - intros [= <-]; discriminate. }
  destruct (buildFromPaths addWord fs paths g) as [r|]; [|discriminate].
  intros ->. now apply (Hgen (Ok g')).
Qed.

Lemma buildWith_of_source env fs content (g : G) :
  wordSource env fs = Some content ->
  buildWith addWord env fs g =
  Ok (fold_left (fun g w => addWord w g)
                (List.filter nonEmpty (parseWords content)) g).
Proof.
  unfold wordSource, buildWith.
  destruct (firstExisting fs (possiblePaths env)) as [p|] eqn:Hp;
    [|discriminate].
  destruct (fs p) as [|c|e] eqn:Hfs; try discriminate.
  intros [= ->]. now rewrite (buildFromPaths_readable _ _ p content).
Qed.

End Loop.

Lemma loadFromPaths_readable fs paths p content :
  firstExisting fs paths = Some p -> fs p = Readable content ->
  DictionaryService.loadFromPaths fs paths =
  Some (Ok (list_to_set (parseWords content))).
Proof.
  induction paths as [|q paths IH]; simpl; [discriminate|].
  destruct (existsSync fs q) eqn:Hq.
  - intros [= ->] Hp. unfold readFileSync. now rewrite Hp.
  - exact IH.
Qed.

Lemma loadFromPaths_absent fs paths :
  (forall p, In p paths -> fs p = Absent) ->
  DictionaryService.loadFromPaths fs paths = None.
Proof.
  induction paths as [|q paths IH]; simpl; intros Habs; [reflexivity|].
  unfold existsSync. rewrite (Habs q) by now left.
  apply IH. intros p Hp. apply Habs. now right.
Qed.

Lemma log_fold (ws : list string) (log : list string) :
  fold_left (fun l w => l ++ [w]) ws log = log ++ ws.
Proof.
  revert log. induction ws as [|w ws IH]; intros log; simpl.
  - now rewrite app_nil_r.
  - rewrite IH, <- app_assoc. reflexivity.
Qed.

End BuildFacts.

(** ** The GADDAG *)

Module GaddagFacts.
Import Gaddag.

Lemma insertPath_self (p : list sym) (n : node) :
  complete (insertPath p n) p.
Proof.
  revert n. induction p as [|s p IH]; intros n.
  - exists (Node true (children n)). split; reflexivity.
  - destruct (IH (default emptyNode (children n !! s))) as (m & Hm & Ht).
    exists m. split; [|exact Ht].
    simpl. unfold followTransition. simpl.
    now rewrite lookup_insert_eq.
Qed.

(** Insertion only adds: a complete path stays one. *)
Lemma insertPath_keeps (q p : list sym) (n : node) :
  complete n p -> complete (insertPath q n) p.
Proof.
  revert p n. induction q as [|s q IH]; intros p n (m & Hm & Ht).
  - destruct p as [|s' p].
    + exists (Node true (children n)). split; reflexivity.
    + exists m. split; [|exact Ht]. exact Hm.
  - destruct p as [|s' p].
    + injection Hm as <-. exists (insertPath (s :: q) n).
      split; [reflexivity | exact Ht].
    + simpl in Hm. unfold followTransition in Hm.
      destruct (children n !! s') as [c|] eqn:Hc; [|discriminate].
      destruct (decide (s = s')) as [->|Hne].
      * destruct (IH p c) as (m' & Hm' & Ht'); [now exists m|].
        exists m'. split; [|exact Ht'].
        simpl. unfold followTransition. simpl.
        rewrite lookup_insert_eq, Hc. exact Hm'.
      * exists m. split; [|exact Ht].
        simpl. unfold followTransition. simpl.
        rewrite lookup_insert_ne by exact Hne. now rewrite Hc.
Qed.

Section Folds.

Context {X : Type} (path : X -> list sym).

Lemma insertAll_keeps (xs : list X) (n : node) (p : list sym) :
  complete n p ->
  complete (fold_left (fun n x => insertPath (path x) n) xs n) p.
Proof.
  revert n. induction xs as [|x xs IH]; intros n Hp; simpl; [exact Hp|].
  apply IH. now apply insertPath_keeps.
Qed.

Lemma insertAll_has (xs : list X) (n : node) (x : X) :
  In x xs ->
  complete (fold_left (fun n x => insertPath (path x) n) xs n) (path x).
Proof.
  revert n. induction xs as [|y xs IH]; intros n; simpl; [tauto|].
  intros [->|Hin].
  - apply insertAll_keeps, insertPath_self.
  - now apply IH.
Qed.

End Folds.

Lemma letters_length (w : string) :
  length (list_ascii_of_string w) = String.length w.
Proof. induction w; simpl; congruence. Qed.

Lemma addWord_keeps (w : string) (g : t) (p : list sym) :
  accepts g p -> accepts (addWord w g) p.
Proof. apply (insertAll_keeps (fun i => rotation i (letters w))). Qed.

Lemma addWord_rotations (w : string) (g : t) (i : nat) :
  (i <= String.length w)%nat ->
  accepts (addWord w g) (rotation i (letters w)).
Proof.
  intros Hi. apply (insertAll_has (fun i => rotation i (letters w))).
  apply in_seq. unfold letters.
  rewrite length_map, letters_length. lia.
Qed.

Lemma addWords_keeps (ws : list string) (g : t) (p : list sym) :
  accepts g p -> accepts (fold_left (fun g w => addWord w g) ws g) p.
Proof.
  revert g. induction ws as [|w ws IH]; intros g Hp; simpl; [exact Hp|].
  apply IH. now apply addWord_keeps.
Qed.

Lemma addWords_rotations (ws : list string) (g : t) (w : string) (i : nat) :
  In w ws -> (i <= String.length w)%nat ->
  accepts (fold_left (fun g w => addWord w g) ws g) (rotation i (letters w)).
Proof.
  revert g. induction ws as [|v ws IH]; intros g; simpl; [tauto|].
  intros [->|Hin] Hi.
  - apply addWords_keeps. now apply addWord_rotations.
  - now apply IH.
Qed.

End GaddagFacts.

(** C1.  A word source that can be read makes
    [buildGaddagFromDictionaryService] return a GADDAG in which every
    dictionary word [W] (a line of the source, trimmed, in upper case and
    not empty) has, for every split position [i] from 0 to its length, the
    path made of the reversed prefix [W[0..i)], the delimiter and the
    suffix [W[i..n)], and the path ends at a node marked complete. *)
Theorem C1_gaddag_has_every_rotation
  (env : processEnv) (fs : fileSystem) (content : string) :
  wordSource env fs = Some content ->
  exists g,
    buildGaddagFromDictionaryService env fs = Ok g /\
    forall (line : string) (i : nat),
      In line (Js.split Js.newline (Js.trim content)) ->
      let W := Js.toUpperCase (Js.trim line) in
      W <> EmptyString ->
      (i <= String.length W)%nat ->
      Gaddag.accepts g (Gaddag.rotation i (Gaddag.letters W)).
Proof.
  intros Hsrc. eexists. split.
  - unfold buildGaddagFromDictionaryService.
    apply BuildFacts.buildWith_of_source. exact Hsrc.
  - intros line i Hline W Hne Hi.
    apply GaddagFacts.addWords_rotations; [|exact Hi].
    apply filter_In. split.
    + unfold parseWords. apply in_map_iff. now exists line.
    + apply BuildFacts.nonEmpty_spec. destruct W; [congruence | simpl; lia].
Qed.

Lemma C1_gaddag_has_every_rotation_witness :
  exists g,
    buildGaddagFromDictionaryService exampleEnv (exampleFs "cat
dog") = Ok g /\
    Gaddag.accepts g
      (Gaddag.rotation 1 (Gaddag.letters (Js.toUpperCase (Js.trim "cat")))).
Proof.
  destruct (C1_gaddag_has_every_rotation exampleEnv (exampleFs "cat
dog") "cat
dog") as (g & Hg & Hpaths).
  - reflexivity.
  - exists g. split; [exact Hg|].
    apply (Hpaths "cat" 1%nat).
    + simpl. left. reflexivity.
    + discriminate.
    + simpl. lia.
Defined.

(** C7.  When the word source can be read, the words handed to [addWord]
    are, in order, the lines of the trimmed source, each trimmed and put in
    upper case, without the empty ones; the GADDAG that is built is the one
    these calls of [addWord] make; and every word that reaches [addWord] is
    the trimmed upper-case form of a line, is in upper case, and has length
    at least 1. *)
Theorem C7_words_normalized_before_insertion
  (env : processEnv) (fs : fileSystem) (content : string) :
  wordSource env fs = Some content ->
  let calls := List.filter nonEmpty
                 (map (fun line => Js.toUpperCase (Js.trim line))
                      (Js.split Js.newline (Js.trim content))) in
  addWordCalls env fs = Ok calls /\
  buildGaddagFromDictionaryService env fs =
    Ok (fold_left (fun g w => Gaddag.addWord w g) calls Gaddag.new) /\
  forall w, In w calls ->
    (exists line, In line (Js.split Js.newline (Js.trim content)) /\
                  w = Js.toUpperCase (Js.trim line)) /\
    (1 <= String.length w)%nat /\
    Js.toUpperCase w = w.
Proof.
  intros Hsrc calls. split; [|split].
  - unfold addWordCalls.
    rewrite (BuildFacts.buildWith_of_source _ _ _ content) by exact Hsrc.
    now rewrite BuildFacts.log_fold.
  - unfold buildGaddagFromDictionaryService.
    now rewrite (BuildFacts.buildWith_of_source _ _ _ content) by exact Hsrc.
  - intros w Hw. apply filter_In in Hw as [Hin Hne].
    apply in_map_iff in Hin as (line & <- & Hline).
    split; [now exists line|]. split.
    + now apply BuildFacts.nonEmpty_spec.
    + apply JsFacts.toUpperCase_idempotent.
Qed.

Lemma C7_words_normalized_before_insertion_witness :
  addWordCalls exampleEnv (exampleFs "  cat 

Dog
") = Ok ["CAT"; "DOG"].
Proof.
  destruct (C7_words_normalized_before_insertion exampleEnv (exampleFs "  cat 

Dog
") "  cat 

Dog
") as (Hcalls & _).
  - reflexivity.
  - exact Hcalls.
Defined.

(** C2, as the claim states it, fails: a word source that exists and is
    empty makes neither loader throw.  The build returns a GADDAG without
    any word and [loadDictionary] reports success. *)
Lemma C2_empty_source_counterexample :
  wordSource exampleEnv (exampleFs "") = Some "" /\
  addWordCalls exampleEnv (exampleFs "") = Ok [] /\
  buildGaddagFromDictionaryService exampleEnv (exampleFs "") = Ok Gaddag.new /\
  isThrow (fst (DictionaryService.loadDictionary
                  exampleEnv (exampleFs "") DictionaryService.new)) = false.
Proof. repeat split; vm_compute; reflexivity. Qed.

(** C2, amended.  When none of the candidate files exists,
    [buildGaddagFromDictionaryService] throws and [loadDictionary], on a
    service that has not loaded yet, throws and leaves the service as it
    was.  When the word source exists but holds no word, neither throws:
    the build returns the GADDAG without any word and [loadDictionary]
    marks the service loaded. *)
Theorem C2_missing_source_throws (env : processEnv) (fs : fileSystem) :
  (forall p, In p (possiblePaths env) -> fs p = Absent) ->
  isThrow (buildGaddagFromDictionaryService env fs) = true /\
  (forall self,
     DictionaryService.isLoaded self = false \/
     DictionaryService.words self = None ->
     DictionaryService.loadDictionary env fs self =
       (Throw "Could not load dictionary from local files", self)) /\
  (forall fs' content,
     wordSource env fs' = Some content ->
     List.filter nonEmpty (parseWords content) = [] ->
     buildGaddagFromDictionaryService env fs' = Ok Gaddag.new /\
     exists ws,
       DictionaryService.loadDictionary env fs' DictionaryService.new =
         (Ok tt, DictionaryService.Build (Some ws) true)).
Proof.
  intros Habs. split; [|split].
  - unfold buildGaddagFromDictionaryService, buildWith.
    now rewrite BuildFacts.buildFromPaths_absent.
  - intros self Hself. unfold DictionaryService.loadDictionary.
    rewrite BuildFacts.loadFromPaths_absent by exact Habs.
    destruct Hself as [-> | ->]; [reflexivity|].
    now destruct (DictionaryService.isLoaded self).
  - intros fs' content Hsrc Hnone. split.
    { unfold buildGaddagFromDictionaryService.
      rewrite (BuildFacts.buildWith_of_source _ _ _ content) by assumption.
      now rewrite Hnone. }
    exists (list_to_set (parseWords content)).
    unfold wordSource in Hsrc.
    destruct (firstExisting fs' (possiblePaths env)) as [p|] eqn:Hp;
      [|discriminate].
    destruct (fs' p) as [|c|e] eqn:Hfs; try discriminate.
    injection Hsrc as ->.
    unfold DictionaryService.loadDictionary.
    now rewrite (BuildFacts.loadFromPaths_readable _ _ p content).
Qed.

Lemma C2_missing_source_throws_witness :
  isThrow (buildGaddagFromDictionaryService exampleEnv noFiles) = true /\
  DictionaryService.loadDictionary exampleEnv noFiles DictionaryService.new =
    (Throw "Could not load dictionary from local files", DictionaryService.new).
Proof.
  destruct (C2_missing_source_throws exampleEnv noFiles) as (Hb & Hl & _).
  - intros p _. reflexivity.
  - split; [exact Hb|]. apply Hl. left. reflexivity.
Defined.

(** ** Scoring *)

Module ScoreFacts.
Import Score.

Lemma fold_addCell (w : list cell) (sum mult : Z) :
  fold_left addCell w (sum, mult) =
  ((sum + fold_right Z.add 0 (map letterPoints w))%Z,
   (mult * fold_right Z.mul 1 (map wordFactor w))%Z).
Proof.
  revert sum mult. induction w as [|c w IH]; intros sum mult;
    cbn [fold_left map fold_right].
  - f_equal; lia.
  - unfold addCell at 2, letterPoints at 1, wordFactor at 1.
    destruct (isNew c); rewrite IH; f_equal; lia.
Qed.

Lemma wordScore_formula (w : list cell) : wordScore w = specWordScore w.
Proof.
  unfold wordScore, specWordScore. rewrite fold_addCell.
  f_equal; lia.
Qed.

End ScoreFacts.

(** C5.  The score of a word is the sum of letter value times letter
    multiplier, the multiplier counted on new tiles only, times the product
    of the word multipliers under new tiles; and "CATS" with C=3, A=1, T=1,
    S=1, laid through the center of the empty 15x15 board in either
    direction, forms that one word and gets (3+1+1+1) * 2 = 12 in total,
    the bonus for emptying the rack left aside. *)
Theorem C5_cats_through_center_scores_12 :
  (forall w, Score.wordScore w = Score.specWordScore w) /\
  forall (d : Direction) (back bonus : Z),
    (0 <= back <= 3)%Z ->
    let placed := catsThroughCenter d back in
    map (map Score.cellValue) (Score.wordsFormed createEmptyBoard placed d)
      = [[3; 1; 1; 1]%Z] /\
    Score.totalScore bonus false createEmptyBoard placed d = 12%Z.
Proof.
  split; [exact ScoreFacts.wordScore_formula|].
  intros d back bonus Hback.
  assert (Hcases : back = 0%Z \/ back = 1%Z \/ back = 2%Z \/ back = 3%Z) by lia.
  destruct Hcases as [-> | [-> | [-> | ->]]]; destruct d;
    split; vm_compute; reflexivity.
Qed.

Lemma C5_cats_through_center_scores_12_witness :
  Score.totalScore 50 false createEmptyBoard (catsThroughCenter H 1) H = 12%Z.
Proof.
  destruct C5_cats_through_center_scores_12 as [_ Hcats].
  destruct (Hcats H 1%Z 50%Z) as [_ Htotal]; [lia|].
  exact Htotal.
Defined.

(** ** convertGaddagMoveToPlacedTiles *)

Module ConvertFacts.

Lemma includesId_false (used : list string) (i : string) :
  includesId used i = false -> ~ In i used.
Proof.
  unfold includesId. intros Hex Hin.
  assert (Htrue : existsb (String.eqb i) used = true).
  { apply existsb_exists. exists i. split; [exact Hin | apply String.eqb_refl]. }
  congruence.
Qed.

(** What the two lookups return: a rack tile that spells the letter, or a
    rack blank rewritten by [asChosen]; in both cases an unused id. *)
Lemma availableTile_cases playerTiles used l t :
  availableTile playerTiles used l = Some t ->
  ~ In (id t) used /\
  ((In t playerTiles /\ Js.toUpperCase (letter t) = l) \/
   (findLetterTile playerTiles used l = None /\
    exists b, In b playerTiles /\ isBlank b = true /\ t = asChosen b l)).
Proof.
  unfold availableTile.
  destruct (findLetterTile playerTiles used l) as [t'|] eqn:Hl.
  - intros [= ->]. apply find_some in Hl as [Hin Hp].
    apply andb_true_iff in Hp as [Heq Hused].
    apply String.eqb_eq in Heq. apply negb_true_iff in Hused.
    split; [now apply includesId_false | left; now split].
  - destruct (findBlankTile playerTiles used) as [b|] eqn:Hb; [|discriminate].
    intros [= <-]. apply find_some in Hb as [Hin Hp].
    apply andb_true_iff in Hp as [Hblank Hused].
    apply negb_true_iff in Hused.
    split; [now apply includesId_false|].
    right. split; [reflexivity|]. now exists b.
Qed.

Lemma skipn_cons_nth {A} (l : list A) (k : nat) (x : A) (rest : list A) :
  skipn k l = x :: rest -> nth_error l k = Some x /\ skipn (S k) l = rest.
Proof.
  revert k. induction l as [|y l IH]; intros [|k]; simpl; try discriminate.
  - intros [= -> ->]. split; reflexivity.
  - intros Hk. destruct (IH k Hk) as [Hn Hs]. split; [exact Hn|].
    destruct l; [destruct k; discriminate | exact Hs].
Qed.

Section Loop.

Variables (playerTiles : list Tile) (gameBoard : Board).
Variables (startRow startCol : Z) (isHorizontal : bool).

Local Abbreviation step := (convertStep playerTiles gameBoard startRow startCol isHorizontal).
Local Abbreviation from := (convertFrom playerTiles gameBoard startRow startCol isHorizontal).
Local Abbreviation rowAt := (rowAt startRow isHorizontal).
Local Abbreviation colAt := (colAt startCol isHorizontal).

(** A property kept by every turn of the loop holds when it ends. *)
Lemma convertFrom_invariant (chars : list ascii) (I : convertState -> Prop) :
  (forall st k c st',
     nth_error chars k = Some c -> I st ->
     step st (Z.of_nat k) c = Some st' -> I st') ->
  forall cs k st st',
    skipn k chars = cs -> I st ->
    from cs (Z.of_nat k) st = Some st' -> I st'.
Proof.
  intros Hstep. induction cs as [|c cs IH]; intros k st st' Hk HI; simpl.
  - now intros [= <-].
  - destruct (skipn_cons_nth _ _ _ _ Hk) as [Hnth Hrest].
    destruct (step st (Z.of_nat k) c) as [st1|] eqn:Hst; [|discriminate].
    replace (Z.of_nat k + 1)%Z with (Z.of_nat (S k)) by lia.
    apply IH; [exact Hrest|]. eapply Hstep; eassumption.
Qed.

(** The turns for [pre ++ post] are those for [pre], then for [post]. *)
Lemma convertFrom_app (pre post : list ascii) (i : Z) (st : convertState) :
  from (pre ++ post) i st =
  match from pre i st with
  | Some st' => from post (i + Z.of_nat (length pre))%Z st'
  | None => None
  end.
Proof.
  revert i st. induction pre as [|c pre IH]; intros i st; simpl.
  - now rewrite Z.add_0_r.
  - destruct (step st i c) as [st1|]; [|reflexivity].
    rewrite IH. destruct (from pre (i + 1)%Z st1); [|reflexivity].
    f_equal. lia.
Qed.

Lemma step_idsRecorded st i c st' :
  idsRecorded st -> step st i c = Some st' -> idsRecorded st'.
Proof.
  destruct st as [placed used]. unfold convertStep, idsRecorded. simpl.
  intros [Hrec Hnd].
  destruct (tileAt gameBoard (rowAt i) (colAt i)); [now intros [= <-]|].
  destruct (availableTile playerTiles used (letterOf c)) as [t|] eqn:Ht;
    [|discriminate].
  intros [= <-]. simpl.
  destruct (availableTile_cases _ _ _ _ Ht) as [Hfresh _].
  split.
  - rewrite List.map_app, Hrec. reflexivity.
  - apply List.NoDup_app; [exact Hnd | |].
    + repeat constructor. simpl. tauto.
    + intros x Hx [<-|[]]. contradiction.
Qed.

Lemma step_wellPlaced st i c st' :
  wellPlaced playerTiles gameBoard st -> step st i c = Some st' ->
  wellPlaced playerTiles gameBoard st'.
Proof.
  destruct st as [placed used]. unfold convertStep, wellPlaced. simpl.
  intros Hwp.
  destruct (tileAt gameBoard (rowAt i) (colAt i)) eqn:Hfree;
    [now intros [= <-]|].
  destruct (availableTile playerTiles used (letterOf c)) as [t|] eqn:Ht;
    [|discriminate].
  intros [= <-] p Hp. simpl in Hp.
  apply in_app_or in Hp as [Hp | [<- | []]]; [now apply Hwp|].
  simpl. split; [exact Hfree|].
  destruct (availableTile_cases _ _ _ _ Ht) as [_ [[Hin _] | (_ & b & Hb & _ & ->)]].
  - now exists t.
  - now exists b.
Qed.

Lemma step_blanksTracked chars st k c st' :
  (forall t c, In t playerTiles -> isBlank t = true -> In c chars ->
               Js.toUpperCase (letter t) <> letterOf c) ->
  nth_error chars k = Some c ->
  blanksTracked startRow startCol isHorizontal chars st ->
  step st (Z.of_nat k) c = Some st' ->
  blanksTracked startRow startCol isHorizontal chars st'.
Proof.
  intros Hblank Hnth.
  destruct st as [placed used]. unfold convertStep, blanksTracked. simpl.
  intros Hbt.
  destruct (tileAt gameBoard (rowAt (Z.of_nat k)) (colAt (Z.of_nat k)));
    [now intros [= <-]|].
  destruct (availableTile playerTiles used (letterOf c)) as [t|] eqn:Ht;
    [|discriminate].
  intros [= <-] p Hp. simpl in Hp.
  apply in_app_or in Hp as [Hp | [<- | []]]; [now apply Hbt|].
  simpl. intros Hb. exists k, c.
  destruct (availableTile_cases _ _ _ _ Ht)
    as [_ [[Hin Hl] | (_ & b & _ & _ & ->)]].
  - exfalso. apply (Hblank t c Hin Hb); [|exact Hl].
    eapply nth_error_In; eassumption.
  - repeat split; reflexivity || assumption.
Qed.

End Loop.

End ConvertFacts.

(** C6.  When no unused rack tile spells the letter and an unused blank is
    there, the tile that is placed is that blank with [chosenLetter] set to
    the letter, [isBlank] true and value 0.  For a rack whose blanks spell
    no letter of the word, every blank among the placed tiles of a move
    records the letter of its cell of the word and has value 0. *)
Theorem C6_blank_records_chosen_letter
  (move : Move.t) (playerTiles : list Tile) (gameBoard : Board) :
  (forall used l b,
     findLetterTile playerTiles used l = None ->
     findBlankTile playerTiles used = Some b ->
     exists t, availableTile playerTiles used l = Some t /\
       id t = id b /\ chosenLetter t = Some l /\
       isBlank t = true /\ value t = 0%Z) /\
  ((forall t c, In t playerTiles -> isBlank t = true ->
                In c (list_ascii_of_string (Move.word move)) ->
                Js.toUpperCase (letter t) <> letterOf c) ->
   forall p,
     In p (convertGaddagMoveToPlacedTiles move playerTiles gameBoard) ->
     isBlank (PlacedTile.tile p) = true ->
     exists k c,
       nth_error (list_ascii_of_string (Move.word move)) k = Some c /\
       PlacedTile.row p =
         rowAt (Move.row move) (match Move.dir move with H => true | V => false end)
               (Z.of_nat k) /\
       PlacedTile.col p =
         colAt (Move.col move) (match Move.dir move with H => true | V => false end)
               (Z.of_nat k) /\
       chosenLetter (PlacedTile.tile p) = Some (letterOf c) /\
       value (PlacedTile.tile p) = 0%Z).
Proof.
  split.
  - intros used l b Hl Hb. exists (asChosen b l).
    unfold availableTile. rewrite Hl, Hb. repeat split; reflexivity.
  - intros Hblank p. unfold convertGaddagMoveToPlacedTiles, convertWord.
    set (isH := match Move.dir move with H => true | V => false end).
    set (chars := list_ascii_of_string (Move.word move)) in *.
    destruct (convertFrom playerTiles gameBoard (Move.row move) (Move.col move)
                isH chars 0 ([], [])) as [[placed used]|] eqn:Hrun;
      [|intros []].
    intros Hp.
    assert (Hinv : blanksTracked (Move.row move) (Move.col move) isH chars
                     (placed, used)).
    { apply (ConvertFacts.convertFrom_invariant playerTiles gameBoard
               (Move.row move) (Move.col move) isH chars
               (blanksTracked (Move.row move) (Move.col move) isH chars))
        with (cs := chars) (k := 0%nat) (st := ([], [])).
      - intros st k c st' Hnth. now apply ConvertFacts.step_blanksTracked.
      - reflexivity.
      - intros q [].
      - exact Hrun. }
    now apply Hinv.
Qed.

Lemma C6_blank_records_chosen_letter_witness :
  let p := PlacedTile.Build (asChosen blankTile "A") 7 8 in
  In p (convertGaddagMoveToPlacedTiles exampleMove exampleRack createEmptyBoard) /\
  exists k c,
    nth_error (list_ascii_of_string (Move.word exampleMove)) k = Some c /\
    PlacedTile.row p = rowAt 7 true (Z.of_nat k) /\
    PlacedTile.col p = colAt 7 true (Z.of_nat k) /\
    chosenLetter (PlacedTile.tile p) = Some (letterOf c) /\
    value (PlacedTile.tile p) = 0%Z.
Proof.
  intros p.
  assert (Hp : In p (convertGaddagMoveToPlacedTiles exampleMove exampleRack
                       createEmptyBoard)).
  { vm_compute. right. left. reflexivity. }
  split; [exact Hp|].
  destruct (C6_blank_records_chosen_letter exampleMove exampleRack createEmptyBoard)
    as [_ Hout].
  apply (Hout ltac:(
    intros t c [<- | [<- | [<- | []]]] Hb; try discriminate Hb;
    intros [<- | [<- | [<- | []]]]; vm_compute; discriminate) p Hp).
  reflexivity.
Defined.

(** C10.  The tiles placed by a move carry pairwise different ids, each the
    id of a rack tile, and none sits on a cell where the board already has
    a tile; at every point of the loop the used ids are exactly the ids of
    the tiles placed so far; and when the loop reaches a free cell whose
    letter no unused rack tile spells while no unused blank is left, the
    result is the empty list. *)
Theorem C10_rack_tiles_used_once
  (move : Move.t) (playerTiles : list Tile) (gameBoard : Board) :
  let isH := match Move.dir move with H => true | V => false end in
  let out := convertGaddagMoveToPlacedTiles move playerTiles gameBoard in
  List.NoDup (map (fun p => id (PlacedTile.tile p)) out) /\
  (forall p, In p out ->
     tileAt gameBoard (PlacedTile.row p) (PlacedTile.col p) = None /\
     exists t, In t playerTiles /\ id t = id (PlacedTile.tile p)) /\
  (forall pre c post placedTiles usedTileIds,
     list_ascii_of_string (Move.word move) = pre ++ c :: post ->
     convertFrom playerTiles gameBoard (Move.row move) (Move.col move) isH
                 pre 0 ([], []) = Some (placedTiles, usedTileIds) ->
     usedTileIds = map (fun p => id (PlacedTile.tile p)) placedTiles /\
     (tileAt gameBoard (rowAt (Move.row move) isH (Z.of_nat (length pre)))
                       (colAt (Move.col move) isH (Z.of_nat (length pre))) = None ->
      findLetterTile playerTiles usedTileIds (letterOf c) = None ->
      findBlankTile playerTiles usedTileIds = None ->
      out = [])).
Proof.
  intros isH out. subst out.
  unfold convertGaddagMoveToPlacedTiles, convertWord. fold isH.
  set (chars := list_ascii_of_string (Move.word move)).
  assert (Hinv : forall cs st,
            convertFrom playerTiles gameBoard (Move.row move) (Move.col move)
                        isH cs 0 ([], []) = Some st ->
            idsRecorded st /\ wellPlaced playerTiles gameBoard st).
  { intros cs st Hrun. split.
    - apply (ConvertFacts.convertFrom_invariant playerTiles gameBoard
               (Move.row move) (Move.col move) isH cs idsRecorded)
        with (cs := cs) (k := 0%nat) (st := ([], [])); try assumption.
      + intros st0 k c st' _. apply ConvertFacts.step_idsRecorded.
      + reflexivity.
      + split; [reflexivity | constructor].
    - apply (ConvertFacts.convertFrom_invariant playerTiles gameBoard
               (Move.row move) (Move.col move) isH cs
               (wellPlaced playerTiles gameBoard))
        with (cs := cs) (k := 0%nat) (st := ([], [])); try assumption.
      + intros st0 k c st' _. apply ConvertFacts.step_wellPlaced.
      + reflexivity.
      + intros q []. }
  split; [|split].
  - destruct (convertFrom _ _ _ _ _ chars 0 ([], [])) as [[placed used]|] eqn:Hrun;
      [|constructor].
    destruct (Hinv _ _ Hrun) as [[Hrec Hnd] _]. simpl in Hrec, Hnd.
    now rewrite <- Hrec.
  - destruct (convertFrom _ _ _ _ _ chars 0 ([], [])) as [[placed used]|] eqn:Hrun;
      [|intros p []].
    destruct (Hinv _ _ Hrun) as [_ Hwp]. exact Hwp.
  - intros pre c post placedTiles usedTileIds Hword Hpre.
    destruct (Hinv _ _ Hpre) as [[Hrec _] _]. simpl in Hrec.
    split; [exact Hrec|].
    intros Hfree Hletter Hnoblank.
    subst chars. rewrite Hword, ConvertFacts.convertFrom_app, Hpre.
    rewrite Z.add_0_l. cbn [convertFrom]. unfold convertStep.
    rewrite Hfree. unfold availableTile. now rewrite Hletter, Hnoblank.
Qed.

Lemma C10_rack_tiles_used_once_witness :
  convertGaddagMoveToPlacedTiles (Move.Build "CATS" 7 7 H 12) exampleRack
                                 createEmptyBoard = [].
Proof.
  destruct (C10_rack_tiles_used_once (Move.Build "CATS" 7 7 H 12) exampleRack
              createEmptyBoard) as (_ & _ & Hret).
  destruct (Hret (list_ascii_of_string "CAT") "S"%char []
              [ PlacedTile.Build (mkTile "t1" "C" 3 false None) 7 7;
                PlacedTile.Build (asChosen blankTile "A") 7 8;
                PlacedTile.Build (mkTile "t3" "T" 1 false None) 7 9 ]
              ["t1"; "blank-1"; "t3"]) as [_ Hempty].
  - reflexivity.
  - vm_compute. reflexivity.
  - apply Hempty; vm_compute; reflexivity.
Defined.

(** ** generateMove *)

Module GenerateFacts.

Section Collaborators.

Variable GaddagBoard : Type.
Variable convertToGaddagBoard : gset string -> Board -> result GaddagBoard.
Variable generateMoves : GaddagBoard -> string -> Gaddag.t -> result (list Move.t).
Variable validateMove : list PlacedTile.t -> Board -> result Validation.

Lemma tryMove_passes player gameBoard move :
  tryMove validateMove player gameBoard move =
  if passesValidation validateMove player gameBoard move
  then Some (AIMove.Build WORD
               (Some (convertGaddagMoveToPlacedTiles move
                        (Player.tiles player) gameBoard)) None)
  else None.
Proof.
  unfold tryMove, passesValidation.
  destruct (validateMove _ gameBoard) as [v|e]; simpl; [|reflexivity].
  destruct (isValid v); reflexivity.
Qed.

(** The loop returns the first candidate that passes, if there is one. *)
Lemma tryMoves_find player gameBoard moves :
  tryMoves validateMove player gameBoard moves =
  match List.find (passesValidation validateMove player gameBoard) moves with
  | Some move =>
      Some (AIMove.Build WORD
              (Some (convertGaddagMoveToPlacedTiles move
                       (Player.tiles player) gameBoard)) None)
  | None => None
  end.
Proof.
  induction moves as [|move moves IH]; simpl; [reflexivity|].
  rewrite tryMove_passes.
  destruct (passesValidation validateMove player gameBoard move);
    [reflexivity | exact IH].
Qed.

(** Consonants go first, cheapest first; equal tiles keep their order. *)
Example exchange_low_consonants_first :
  AIMove.exchangeTileIds
    (generateStrategicExchange 0
       [ mkTile "q" "Q" 10 false None; mkTile "a" "a" 1 false None;
         mkTile "b" "B" 3 false None; mkTile "e" "E" 1 false None;
         mkTile "z" "Z" 10 false None; mkTile "b2" "B" 3 false None ])
  = Some ["b"; "b2"; "q"].
Proof. reflexivity. Qed.

Lemma exchange_type random3 tiles :
  AIMove.type (generateStrategicExchange random3 tiles) = EXCHANGE.
Proof. reflexivity. Qed.

Local Abbreviation generate :=
  (generateMove GaddagBoard convertToGaddagBoard generateMoves validateMove).

Lemma generateMove_unknown w gameState playerId :
  List.find (fun p => String.eqb (Player.id p) playerId)
            (GameState.players gameState) = None ->
  generate w gameState playerId = Ok (AIMove.Build PASS None None).
Proof. intros Hfind. unfold generateMove. now rewrite Hfind. Qed.

(** For a known player: the exchange, or a validated candidate. *)
Lemma generateMove_known w gameState playerId player :
  List.find (fun p => String.eqb (Player.id p) playerId)
            (GameState.players gameState) = Some player ->
  generate w gameState playerId =
    Ok (generateStrategicExchange (random3 w) (Player.tiles player)) \/
  exists g d gb moves move,
    gaddag w = Some g /\ dictionary w = Some d /\
    convertToGaddagBoard d (GameState.board gameState) = Ok gb /\
    generateMoves gb (convertTilesToRack (Player.tiles player)) g = Ok moves /\
    In move (firstn 15 moves) /\
    passesValidation validateMove player (GameState.board gameState) move
      = true /\
    generate w gameState playerId =
      Ok (AIMove.Build WORD
            (Some (convertGaddagMoveToPlacedTiles move (Player.tiles player)
                     (GameState.board gameState))) None).
Proof.
  intros Hfind. unfold generateMove. rewrite Hfind.
  destruct (raceTimeout (initTimerFirst w) _ (initOutcome w)); [|now left].
  destruct (gaddag w) as [g|]; [|now left].
  destruct (dictionary w) as [d|]; [|now left].
  unfold tryCatch, mbind, result_bind.
  destruct (convertToGaddagBoard d (GameState.board gameState))
    as [gb|e] eqn:Hgb; [|now left].
  destruct (generationTimerFirst w); [now left|]. simpl raceTimeout.
  destruct (generateMoves gb _ g) as [moves|e] eqn:Hmoves; [|now left].
  destruct (length moves =? 0)%nat; [now left|].
  rewrite tryMoves_find, JsFacts.slice_from_zero.
  destruct (List.find _ (firstn 15 moves)) as [move|] eqn:Hfound; [|now left].
  apply find_some in Hfound as [Hin Hpass].
  right. exists g, d, gb, moves, move.
  repeat split; reflexivity || assumption.
Qed.



End Collaborators.

End GenerateFacts.

(** C3.  With the player found, the service initialized and the generator
    returning [moves] in time, [generateMove] looks at the first 15 moves
    only, in the order of the list, and returns as a WORD move the tiles of
    the first one whose conversion passes [validateMove]; when none of the
    15 passes, it returns the strategic exchange, whatever comes later in
    the list. *)
Theorem C3_first_valid_of_top_15
  (GaddagBoard : Type)
  (convertToGaddagBoard : gset string -> Board -> result GaddagBoard)
  (generateMoves : GaddagBoard -> string -> Gaddag.t -> result (list Move.t))
  (validateMove : list PlacedTile.t -> Board -> result Validation)
  (w : World) (gameState : GameState.t) (playerId : string)
  (player : Player.t) (g : Gaddag.t) (d : gset string) (gb : GaddagBoard)
  (moves : list Move.t) :
  List.find (fun p => String.eqb (Player.id p) playerId)
            (GameState.players gameState) = Some player ->
  initTimerFirst w = false -> initOutcome w = Ok tt ->
  gaddag w = Some g -> dictionary w = Some d ->
  convertToGaddagBoard d (GameState.board gameState) = Ok gb ->
  generationTimerFirst w = false ->
  generateMoves gb (convertTilesToRack (Player.tiles player)) g = Ok moves ->
  generateMove GaddagBoard convertToGaddagBoard generateMoves validateMove
               w gameState playerId =
  Ok (match List.find (passesValidation validateMove player
                         (GameState.board gameState))
                      (firstn 15 moves) with
      | Some move =>
          AIMove.Build WORD
            (Some (convertGaddagMoveToPlacedTiles move (Player.tiles player)
                     (GameState.board gameState))) None
      | None => generateStrategicExchange (random3 w) (Player.tiles player)
      end).
Proof.
  intros Hfind Hit Hinit Hg Hd Hgb Hgt Hmoves.
  unfold generateMove. rewrite Hfind, Hit, Hinit, Hg, Hd. simpl.
  unfold tryCatch, mbind, result_bind. rewrite Hgb, Hgt. simpl.
  rewrite Hmoves.
  destruct moves as [|m moves]; [reflexivity|].
  cbn [length Nat.eqb].
  rewrite GenerateFacts.tryMoves_find, JsFacts.slice_from_zero.
  destruct (List.find _ (firstn 15 (m :: moves))); reflexivity.
Qed.

Lemma C3_first_valid_of_top_15_witness :
  generateMove unit exampleConvertBoard (exampleGenerator [zooMove; exampleMove])
               exampleValidate readyWorld exampleGame "ai-1" =
  Ok (AIMove.Build WORD
        (Some [ PlacedTile.Build (mkTile "t1" "C" 3 false None) 7 7;
                PlacedTile.Build (asChosen blankTile "A") 7 8;
                PlacedTile.Build (mkTile "t3" "T" 1 false None) 7 9 ])
        None).
Proof.
  rewrite (C3_first_valid_of_top_15 unit exampleConvertBoard
             (exampleGenerator [zooMove; exampleMove]) exampleValidate
             readyWorld exampleGame "ai-1" examplePlayer Gaddag.new ∅ tt
             [zooMove; exampleMove]); reflexivity.
Defined.

(** C4.  With the player found, a generation that times out and a
    generation that returns no move both make [generateMove] return the
    strategic exchange, an EXCHANGE move, and not throw. *)
Theorem C4_timeout_or_no_moves_exchange
  (GaddagBoard : Type)
  (convertToGaddagBoard : gset string -> Board -> result GaddagBoard)
  (generateMoves : GaddagBoard -> string -> Gaddag.t -> result (list Move.t))
  (validateMove : list PlacedTile.t -> Board -> result Validation)
  (w : World) (gameState : GameState.t) (playerId : string)
  (player : Player.t) :
  List.find (fun p => String.eqb (Player.id p) playerId)
            (GameState.players gameState) = Some player ->
  generationTimerFirst w = true \/
  (forall g d gb,
     gaddag w = Some g -> dictionary w = Some d ->
     convertToGaddagBoard d (GameState.board gameState) = Ok gb ->
     generateMoves gb (convertTilesToRack (Player.tiles player)) g = Ok []) ->
  exists m,
    generateMove GaddagBoard convertToGaddagBoard generateMoves validateMove
                 w gameState playerId = Ok m /\
    m = generateStrategicExchange (random3 w) (Player.tiles player) /\
    AIMove.type m = EXCHANGE.
Proof.
  intros Hfind Hcase.
  exists (generateStrategicExchange (random3 w) (Player.tiles player)).
  split; [|split; reflexivity].
  unfold generateMove. rewrite Hfind.
  destruct (raceTimeout (initTimerFirst w) _ (initOutcome w)); [|reflexivity].
  destruct (gaddag w) as [g|] eqn:Hg; [|reflexivity].
  destruct (dictionary w) as [d|] eqn:Hd; [|reflexivity].
  unfold tryCatch, mbind, result_bind.
  destruct (convertToGaddagBoard d (GameState.board gameState)) as [gb|e] eqn:Hgb;
    [|reflexivity].
  destruct Hcase as [Htimer | Hnone].
  - rewrite Htimer. reflexivity.
  - rewrite (Hnone g d gb) by (reflexivity || assumption).
    destruct (generationTimerFirst w); reflexivity.
Qed.

Lemma C4_timeout_or_no_moves_exchange_witness :
  exists m,
    generateMove unit exampleConvertBoard (exampleGenerator [exampleMove])
                 exampleValidate timedOutWorld exampleGame "ai-1" = Ok m /\
    AIMove.type m = EXCHANGE.
Proof.
  destruct (C4_timeout_or_no_moves_exchange unit exampleConvertBoard
              (exampleGenerator [exampleMove]) exampleValidate
              timedOutWorld exampleGame "ai-1" examplePlayer)
    as (m & Hm & _ & Htype).
  - reflexivity.
  - left. reflexivity.
  - exists m. split; assumption.
Defined.




(** ** initialize and ensureInitialized *)

Module InitFacts.
Import Init.

Lemma ready_true (s : t) :
  ready s = true <-> gaddag s <> None /\ dictionary s <> None.
Proof.
  unfold ready. destruct (gaddag s), (dictionary s); split; intros Hr;
    try discriminate; try reflexivity;
    try (split; discriminate); destruct Hr as [Hg Hd]; congruence.
Qed.

Lemma new_consistent : consistent new.
Proof. split; [intros Hd; now elim Hd | left; split; reflexivity]. Qed.

Lemma initialize_consistent (s : t) :
  consistent s -> consistent (fst (initialize s)).
Proof.
  intros [Hdg Hmode]. unfold initialize.
  destruct (isInitializing s || ready s) eqn:Hguard; simpl.
  - split; [exact Hdg|]. destruct Hmode as [Hidle | Hbusy]; [left | right];
      assumption.
  - apply orb_false_iff in Hguard as [Hinit Hready].
    split; [exact Hdg|]. right.
    destruct Hmode as [[Hrun _] | (k & st & _ & Hbusy & _)]; [|congruence].
    exists (promises s), AwaitLoadDictionary. simpl.
    rewrite Hrun, insert_empty. repeat split; try discriminate.
    destruct (dictionary s) eqn:Hd; [|reflexivity].
    assert (Hg : gaddag s <> None) by (apply Hdg; discriminate).
    unfold ready in Hready. rewrite Hd in Hready.
    destruct (gaddag s); [discriminate | now elim Hg].
Qed.

Lemma finish_consistent (k : nat) (st : stage) (s : t) :
  (dictionary s <> None -> gaddag s <> None) ->
  running s = {[k := st]} -> consistent (finish k s).
Proof.
  intros Hdg Hrun. split; [exact Hdg|]. left. split; [|reflexivity].
  simpl. rewrite Hrun. apply delete_singleton_eq.
Qed.

(** A settled promise concerns the one waiting call, or nobody. *)
Lemma busy_lookup (s : t) (k : nat) (st : stage) :
  consistent s -> running s !! k = Some st ->
  running s = {[k := st]} /\ isInitializing s = true /\
  dictionary s = None /\ (st = AwaitDictionarySet -> gaddag s <> None).
Proof.
  intros [_ [[Hrun _] | (k' & st' & Hrun & Hrest)]] Hk.
  - rewrite Hrun in Hk. discriminate.
  - rewrite Hrun in Hk. apply lookup_singleton_Some in Hk as [-> ->].
    split; assumption.
Qed.

Lemma step_consistent (s : t) (e : event) :
  consistent s -> consistent (step s e).
Proof.
  intros Hs. destruct e as [| |k r|k r|k r]; simpl.
  - now apply initialize_consistent.
  - unfold ensureInitialized. destruct (initPromise s); [exact Hs|].
    pose proof (initialize_consistent s Hs) as Hi.
    destruct (initialize s) as [s' p]. exact Hi.
  - destruct (running s !! k) as [[| |]|] eqn:Hk; try exact Hs.
    destruct (busy_lookup s k _ Hs Hk) as (Hrun & Hinit & Hd & _).
    destruct r as [u|e].
    + split; [simpl; congruence|]. right.
      exists k, AwaitGaddag. simpl. rewrite Hrun, insert_singleton_eq.
      repeat split; try assumption. discriminate.
    + apply (finish_consistent k AwaitLoadDictionary); [congruence | exact Hrun].
  - destruct (running s !! k) as [[| |]|] eqn:Hk; try exact Hs.
    destruct (busy_lookup s k _ Hs Hk) as (Hrun & Hinit & Hd & _).
    destruct r as [g|e].
    + split; [simpl; discriminate|]. right.
      exists k, AwaitDictionarySet. simpl. rewrite Hrun, insert_singleton_eq.
      repeat split; try assumption. discriminate.
    + apply (finish_consistent k AwaitGaddag); [congruence | exact Hrun].
  - destruct (running s !! k) as [[| |]|] eqn:Hk; try exact Hs.
    destruct (busy_lookup s k _ Hs Hk) as (Hrun & Hinit & Hd & Hg).
    destruct r as [d|e].
    + apply (finish_consistent k AwaitDictionarySet); [|exact Hrun].
      simpl. intros _. now apply Hg.
    + apply (finish_consistent k AwaitDictionarySet); [congruence | exact Hrun].
Qed.

Lemma run_consistent (s : t) (es : list event) :
  consistent s -> consistent (run s es).
Proof.
  revert s. induction es as [|e es IH]; intros s Hs; [exact Hs|].
  apply IH. now apply step_consistent.
Qed.

(** Once the GADDAG and the dictionary are set, nothing is rebuilt. *)
Lemma step_ready (s : t) (e : event) :
  consistent s -> ready s = true ->
  ready (step s e) = true /\ builds (step s e) = builds s.
Proof.
  intros Hs Hready.
  assert (Hrun : running s = ∅).
  { destruct Hs as [_ [[Hrun _] | (k & st & _ & _ & Hd & _)]]; [exact Hrun|].
    apply ready_true in Hready as [_ Hd']. congruence. }
  destruct e as [| |k r|k r|k r]; simpl;
    try (rewrite Hrun, lookup_empty; now split).
  - unfold initialize. rewrite Hready, orb_true_r. now split.
  - unfold ensureInitialized, initialize. rewrite Hready, orb_true_r.
    destruct (initPromise s); now split.
Qed.

Lemma run_ready (s : t) (es : list event) :
  consistent s -> ready s = true ->
  ready (run s es) = true /\ builds (run s es) = builds s.
Proof.
  revert s. induction es as [|e es IH]; intros s Hs Hready; [now split|].
  destruct (step_ready s e Hs Hready) as [Hr Hb].
  destruct (IH (step s e) (step_consistent s e Hs) Hr) as [Hr' Hb'].
  split; [exact Hr' | simpl; congruence].
Qed.

(** [initPromise] is written once. *)
Lemma step_initPromise (s : t) (e : event) (p : nat) :
  initPromise s = Some p -> initPromise (step s e) = Some p.
Proof.
  intros Hp. destruct e as [| |k r|k r|k r]; simpl.
  - unfold initialize. now destruct (isInitializing s || ready s).
  - unfold ensureInitialized. now rewrite Hp.
  - destruct (running s !! k) as [[| |]|]; try assumption.
    now destruct r.
  - destruct (running s !! k) as [[| |]|]; try assumption.
    now destruct r.
  - destruct (running s !! k) as [[| |]|]; try assumption.
    now destruct r.
Qed.

Lemma run_initPromise (s : t) (es : list event) (p : nat) :
  initPromise s = Some p -> initPromise (run s es) = Some p.
Proof.
  revert s. induction es as [|e es IH]; intros s Hp; [exact Hp|].
  apply IH. now apply step_initPromise.
Qed.

Lemma new_memoized : memoized new.
Proof. left. repeat split. Qed.

Lemma no_load_insert (m : gmap nat stage) (k : nat) (st : stage) :
  st <> AwaitLoadDictionary ->
  (forall j, m !! j <> Some AwaitLoadDictionary) ->
  forall j, <[k := st]> m !! j <> Some AwaitLoadDictionary.
Proof.
  intros Hst Hm j. destruct (decide (k = j)) as [->|Hne].
  - rewrite lookup_insert_eq. congruence.
  - rewrite lookup_insert_ne by exact Hne. apply Hm.
Qed.

Lemma no_load_delete (m : gmap nat stage) (k : nat) :
  (forall j, m !! j <> Some AwaitLoadDictionary) ->
  forall j, delete k m !! j <> Some AwaitLoadDictionary.
Proof.
  intros Hm j Hj. apply lookup_delete_Some in Hj as [_ Hj]. now apply (Hm j).
Qed.

(** Called through [ensureInitialized] only, the build starts at most
    once. *)
Lemma step_memoized (s : t) (e : event) :
  viaEnsure e = true -> memoized s -> memoized (step s e).
Proof.
  intros Hvia Hs. destruct e as [| |k r|k r|k r]; [discriminate| | | |]; simpl.
  - unfold ensureInitialized.
    destruct (initPromise s) as [p|] eqn:Hp; [exact Hs|].
    destruct Hs as [(_ & Hrun & Hb) | [Hne _]]; [|now elim Hne].
    unfold initialize. right.
    destruct (isInitializing s || ready s); simpl;
      (split; [discriminate|]).
    + right. split; [|lia]. intros j. rewrite Hrun, lookup_empty. discriminate.
    + left. exists (promises s). rewrite Hrun, insert_empty. now split.
  - destruct (running s !! k) as [[| |]|] eqn:Hk; try exact Hs.
    destruct Hs as [(_ & Hrun & _) | [Hne [(k' & Hrun & Hb) | [Hno _]]]].
    + rewrite Hrun in Hk. discriminate.
    + rewrite Hrun in Hk. apply lookup_singleton_Some in Hk as [-> _].
      right. destruct r as [u|e]; simpl; (split; [exact Hne|]); right.
      * rewrite Hrun, insert_singleton_eq. split; [|lia].
        intros j Hj. apply lookup_singleton_Some in Hj as [_ Hj]. discriminate.
      * rewrite Hrun, delete_singleton_eq. split; [|lia].
        intros j. rewrite lookup_empty. discriminate.
    + now elim (Hno k).
  - destruct (running s !! k) as [[| |]|] eqn:Hk; try exact Hs.
    destruct Hs as [(_ & Hrun & _) | [Hne [(k' & Hrun & Hb) | [Hno Hb]]]].
    + rewrite Hrun in Hk. discriminate.
    + rewrite Hrun in Hk. apply lookup_singleton_Some in Hk as [_ Hk].
      discriminate.
    + right. destruct r as [g|e]; simpl; (split; [exact Hne|]); right;
        (split; [|exact Hb]).
      * now apply no_load_insert.
      * now apply no_load_delete.
  - destruct (running s !! k) as [[| |]|] eqn:Hk; try exact Hs.
    destruct Hs as [(_ & Hrun & _) | [Hne [(k' & Hrun & Hb) | [Hno Hb]]]].
    + rewrite Hrun in Hk. discriminate.
    + rewrite Hrun in Hk. apply lookup_singleton_Some in Hk as [_ Hk].
      discriminate.
    + right. destruct r as [d|e]; simpl; (split; [exact Hne|]); right;
        (split; [|exact Hb]); now apply no_load_delete.
Qed.

Lemma run_memoized (s : t) (es : list event) :
  forallb viaEnsure es = true -> memoized s -> memoized (run s es).
Proof.
  revert s. induction es as [|e es IH]; intros s Hvia Hs; [exact Hs|].
  simpl in Hvia. apply andb_true_iff in Hvia as [He Hes].
  apply IH; [exact Hes|]. now apply step_memoized.
Qed.

Lemma memoized_builds (s : t) : memoized s -> (builds s <= 1)%nat.
Proof. intros [(_ & _ & ->) | [_ [(k & _ & ->) | [_ Hb]]]]; lia. Qed.

Lemma consistent_size (s : t) : consistent s -> (size (running s) <= 1)%nat.
Proof.
  intros [_ [[-> _] | (k & st & -> & _)]].
  - rewrite map_size_empty. lia.
  - rewrite map_size_singleton. lia.
Qed.

End InitFacts.

(** C8.  In every state the service reaches from its construction, by
    calls of [initialize] and [ensureInitialized] and by promises that
    settle, at most one call of [initialize] is in flight.  Once
    [initPromise] is set, [ensureInitialized] leaves the service as it is
    and awaits that promise, and [initPromise] keeps its value for ever.
    Once [gaddag] and [dictionary] are both set, [initialize] starts
    nothing and no later event starts a build.  When [initialize] is
    reached through [ensureInitialized] only, the build starts at most
    once. *)
Theorem C8_build_runs_once (es : list Init.event) :
  let s := Init.run Init.new es in
  (size (Init.running s) <= 1)%nat /\
  (forall p, Init.initPromise s = Some p ->
     Init.ensureInitialized s = (s, p) /\
     forall es', Init.initPromise (Init.run s es') = Some p) /\
  (Init.ready s = true ->
     fst (Init.initialize s) =
       Init.Build (Init.gaddag s) (Init.dictionary s) (Init.initPromise s)
                  (Init.isInitializing s) (Init.running s)
                  (S (Init.promises s)) (Init.builds s) /\
     forall es', Init.builds (Init.run s es') = Init.builds s /\
                 Init.ready (Init.run s es') = true) /\
  (forallb Init.viaEnsure es = true -> (Init.builds s <= 1)%nat).
Proof.
  intros s.
  assert (Hs : Init.consistent s)
    by (apply InitFacts.run_consistent, InitFacts.new_consistent).
  split; [now apply InitFacts.consistent_size|]. split; [|split].
  - intros p Hp. split.
    + unfold Init.ensureInitialized. now rewrite Hp.
    + intros es'. now apply InitFacts.run_initPromise.
  - intros Hready. split.
    + unfold Init.initialize. now rewrite Hready, orb_true_r.
    + intros es'.
      destruct (InitFacts.run_ready s es' Hs Hready) as [Hr Hb]. now split.
  - intros Hvia. apply InitFacts.memoized_builds.
    apply InitFacts.run_memoized; [exact Hvia | apply InitFacts.new_memoized].
Qed.

Lemma C8_build_runs_once_witness :
  let es := [ Init.CallEnsureInitialized;
              Init.CallEnsureInitialized;
              Init.LoadDictionarySettled 0 (Ok tt);
              Init.GaddagSettled 0 (Ok Gaddag.new);
              Init.DictionarySetSettled 0 (Ok ∅) ] in
  let s := Init.run Init.new es in
  Init.builds s = 1%nat /\
  Init.ensureInitialized s = (s, 0%nat) /\
  Init.builds (Init.run s [Init.CallEnsureInitialized; Init.CallInitialize])
    = Init.builds s /\
  (Init.builds s <= 1)%nat.
Proof.
  intros es s.
  destruct (C8_build_runs_once es) as (_ & Hpromise & Hready & Honce).
  fold s in Hpromise, Hready, Honce.
  split; [reflexivity|].
  destruct (Hpromise 0%nat) as [Hens _]; [reflexivity|].
  split; [exact Hens|].
  destruct Hready as [_ Hlater]; [reflexivity|].
  split; [apply Hlater|].
  apply Honce. reflexivity.
Defined.

(** * More properties *)

(** ** generateStrategicExchange *)

Module ExchangeFacts.

Lemma insertSorted_permutation (x : tileValue) (l : list tileValue) :
  Permutation (insertSorted x l) (x :: l).
Proof.
  induction l as [|y l IH]; simpl; [reflexivity|].
  destruct (compareTileValues x y <=? 0)%Z; [reflexivity|].
  rewrite IH. apply perm_swap.
Qed.

Lemma sortTileValues_permutation (l : list tileValue) :
  Permutation (sortTileValues l) l.
Proof.
  induction l as [|x l IH]; simpl; [reflexivity|].
  rewrite insertSorted_permutation. now constructor.
Qed.

Lemma notAfter_total (a b : tileValue) : notAfter a b \/ notAfter b a.
Proof.
  unfold notAfter, compareTileValues.
  destruct (isVowel a), (isVowel b); simpl; lia.
Qed.

Lemma notAfter_trans (a b c : tileValue) :
  notAfter a b -> notAfter b c -> notAfter a c.
Proof.
  unfold notAfter, compareTileValues.
  destruct (isVowel a), (isVowel b), (isVowel c); simpl; lia.
Qed.

Lemma insertSorted_sorted (x : tileValue) (l : list tileValue) :
  StronglySorted notAfter l -> StronglySorted notAfter (insertSorted x l).
Proof.
  induction l as [|y l IH]; intros Hs; simpl.
  - repeat constructor.
  - inversion Hs as [|? ? Hl Hy]; subst.
    destruct (Z.leb_spec (compareTileValues x y) 0) as [Hle|Hgt].
    + constructor; [exact Hs|]. constructor; [exact Hle|].
      apply List.Forall_forall. intros z Hz.
      apply (notAfter_trans x y z Hle).
      rewrite List.Forall_forall in Hy. now apply Hy.
    + constructor; [now apply IH|].
      apply List.Forall_forall. intros z Hz.
      apply (Permutation_in _ (insertSorted_permutation x l)) in Hz.
      destruct Hz as [<-|Hz].
      * destruct (notAfter_total x y) as [Hxy|Hyx]; [|exact Hyx].
        unfold notAfter in Hxy. lia.
      * rewrite List.Forall_forall in Hy. now apply Hy.
Qed.

Lemma sortTileValues_sorted (l : list tileValue) :
  StronglySorted notAfter (sortTileValues l).
Proof.
  induction l as [|x l IH]; simpl; [constructor|].
  now apply insertSorted_sorted.
Qed.

(** In a sorted list, what comes first is not after what comes later. *)
Lemma sorted_split (n : nat) (l : list tileValue) :
  StronglySorted notAfter l ->
  forall a b, In a (firstn n l) -> In b (skipn n l) -> notAfter a b.
Proof.
  revert n. induction l as [|x l IH]; intros n Hs a b Ha Hb.
  - rewrite firstn_nil in Ha. destruct Ha.
  - inversion Hs as [|? ? Hl Hx]; subst.
    destruct n as [|n]; simpl in Ha, Hb; [destruct Ha|].
    destruct Ha as [<-|Ha].
    + rewrite List.Forall_forall in Hx. apply Hx.
      rewrite <- (firstn_skipn n l). apply in_or_app. now right.
    + now apply (IH n).
Qed.

Lemma in_firstn {A} (n : nat) (l : list A) (a : A) :
  In a (firstn n l) -> In a l.
Proof.
  intros Ha. rewrite <- (firstn_skipn n l). apply in_or_app. now left.
Qed.

Lemma in_skipn {A} (n : nat) (l : list A) (a : A) :
  In a (skipn n l) -> In a l.
Proof.
  intros Ha. rewrite <- (firstn_skipn n l). apply in_or_app. now right.
Qed.

Lemma exchange_ids (random3 : nat) (tiles : list Tile) :
  generateStrategicExchange random3 tiles =
  AIMove.Build EXCHANGE None (Some (map id (tilesToExchange random3 tiles))).
Proof.
  unfold generateStrategicExchange, tilesToExchange, exchangeCount.
  now rewrite JsFacts.slice_from_zero.
Qed.

Lemma exchanged_kept_permutation (random3 : nat) (tiles : list Tile) :
  Permutation (tilesToExchange random3 tiles ++ tilesKept random3 tiles) tiles.
Proof.
  unfold tilesToExchange, tilesKept.
  rewrite <- List.map_app, firstn_skipn, sortTileValues_permutation.
  rewrite List.map_map. simpl. now rewrite List.map_id.
Qed.

Lemma tilesToExchange_length (random3 : nat) (tiles : list Tile) :
  length (tilesToExchange random3 tiles)
  = Nat.min (Nat.max 3 (random3 + 3)) (length tiles).
Proof.
  unfold tilesToExchange. rewrite length_map, firstn_length_le.
  - reflexivity.
  - rewrite (Permutation_length (sortTileValues_permutation _)).
    rewrite length_map. unfold exchangeCount. lia.
Qed.

Lemma tilesToExchange_nil (random3 : nat) : tilesToExchange random3 [] = [].
Proof. unfold tilesToExchange. simpl. now rewrite firstn_nil. Qed.

Lemma tvTile_sorted (tiles : list Tile) (tv : tileValue) :
  In tv (sortTileValues (map tileValueOf tiles)) ->
  tv = tileValueOf (tvTile tv).
Proof.
  intros Hin.
  apply (Permutation_in _ (sortTileValues_permutation _)) in Hin.
  apply in_map_iff in Hin as (t & <- & _). reflexivity.
Qed.

End ExchangeFacts.

(** X1.  The strategic exchange names tiles of the rack, as many as
    [min(max(3, r + 3), rack size)]: no more than the rack holds, and with
    [r] below 3 between 3 and 5 of a rack that has them.  The tiles named
    and the tiles kept are together the rack, so that with ids that are
    pairwise different no id is named twice. *)
Theorem X1_exchange_names_rack_tiles (random3 : nat) (tiles : list Tile) :
  let m := generateStrategicExchange random3 tiles in
  AIMove.type m = EXCHANGE /\ AIMove.tiles m = None /\
  AIMove.exchangeTileIds m = Some (map id (tilesToExchange random3 tiles)) /\
  Permutation (tilesToExchange random3 tiles ++ tilesKept random3 tiles) tiles /\
  length (tilesToExchange random3 tiles)
    = Nat.min (Nat.max 3 (random3 + 3)) (length tiles) /\
  (List.NoDup (map id tiles) ->
   List.NoDup (map id (tilesToExchange random3 tiles))).
Proof.
  intros m. subst m. rewrite ExchangeFacts.exchange_ids. simpl.
  split; [reflexivity|]. split; [reflexivity|]. split; [reflexivity|].
  split; [apply ExchangeFacts.exchanged_kept_permutation|]. split.
  - apply ExchangeFacts.tilesToExchange_length.
  - intros Hnd.
    assert (Hall : List.NoDup (map id (tilesToExchange random3 tiles
                                       ++ tilesKept random3 tiles))).
    { eapply Permutation_NoDup; [|exact Hnd].
      apply Permutation_map, Permutation_sym,
        ExchangeFacts.exchanged_kept_permutation. }
    rewrite List.map_app in Hall. now apply NoDup_app_remove_r in Hall.
Qed.

(** X2.  The exchange gives up consonants before vowels and cheap tiles
    before dear ones: of a tile that is exchanged and a tile that is kept,
    the exchanged one is a vowel only if the kept one is, and when both are
    vowels or both are consonants the exchanged one is worth no more. *)
Theorem X2_exchange_keeps_the_better_tiles
  (random3 : nat) (tiles : list Tile) (x y : Tile) :
  In x (tilesToExchange random3 tiles) ->
  In y (tilesKept random3 tiles) ->
  (isVowelTile x = true -> isVowelTile y = true) /\
  (isVowelTile x = isVowelTile y -> (value x <= value y)%Z).
Proof.
  unfold tilesToExchange, tilesKept. intros Hx Hy.
  apply in_map_iff in Hx as (a & <- & Ha).
  apply in_map_iff in Hy as (b & <- & Hb).
  pose proof (ExchangeFacts.sorted_split _ _
                (ExchangeFacts.sortTileValues_sorted _) a b Ha Hb) as Hab.
  apply ExchangeFacts.in_firstn in Ha. apply ExchangeFacts.in_skipn in Hb.
  apply ExchangeFacts.tvTile_sorted in Ha, Hb.
  rewrite Ha, Hb in Hab. unfold notAfter, compareTileValues in Hab.
  simpl in Hab.
  destruct (isVowelTile (tvTile a)), (isVowelTile (tvTile b));
    simpl in Hab; split; intros; try reflexivity; try discriminate; lia.
Qed.

Lemma X2_exchange_keeps_the_better_tiles_witness :
  (value (mkTile "b" "B" 3 false None) <= value (mkTile "z" "Z" 10 false None))%Z.
Proof.
  apply (X2_exchange_keeps_the_better_tiles 0
           [ mkTile "q" "Q" 10 false None; mkTile "a" "A" 1 false None;
             mkTile "b" "B" 3 false None; mkTile "z" "Z" 10 false None;
             mkTile "c" "C" 3 false None ]
           (mkTile "b" "B" 3 false None) (mkTile "z" "Z" 10 false None)).
  - vm_compute. left. reflexivity.
  - vm_compute. left. reflexivity.
  - reflexivity.
Defined.

(** ** convertGaddagMoveToPlacedTiles: what is placed where *)

Module ConvertMore.

Section Loop.

Variables (playerTiles : list Tile) (gameBoard : Board).
Variables (startRow startCol : Z) (isHorizontal : bool).

Local Abbreviation step :=
  (convertStep playerTiles gameBoard startRow startCol isHorizontal).
Local Abbreviation from :=
  (convertFrom playerTiles gameBoard startRow startCol isHorizontal).
Local Abbreviation free := (isFreeIndex gameBoard startRow startCol isHorizontal).
Local Abbreviation cell := (cellOfIndex startRow startCol isHorizontal).

Lemma step_spellsWord chars st k c st' :
  nth_error chars k = Some c ->
  spellsWord playerTiles startRow startCol isHorizontal chars st ->
  step st (Z.of_nat k) c = Some st' ->
  spellsWord playerTiles startRow startCol isHorizontal chars st'.
Proof.
  intros Hnth. destruct st as [placed used].
  unfold convertStep, spellsWord. simpl. intros Hsp.
  destruct (tileAt gameBoard _ _); [now intros [= <-]|].
  destruct (availableTile playerTiles used (letterOf c)) as [t|] eqn:Ht;
    [|discriminate].
  intros [= <-] p Hp. simpl in Hp.
  apply in_app_or in Hp as [Hp | [<- | []]]; [now apply Hsp|].
  exists k, c. split; [exact Hnth|]. split; [reflexivity|]. simpl.
  destruct (ConvertFacts.availableTile_cases _ _ _ _ Ht)
    as [_ [Hreg | (_ & b & Hb & Hblank & ->)]].
  - now left.
  - right. now exists b.
Qed.

(** The cells of the tiles placed by the turns from index [k] on are the
    free cells of these indices, in order. *)
Lemma convertFrom_positions cs k st st' :
  from cs (Z.of_nat k) st = Some st' ->
  map positionOf (fst st') =
  map positionOf (fst st) ++ map cell (List.filter free (seq k (length cs))).
Proof.
  revert k st. induction cs as [|c cs IH]; intros k st; simpl.
  - intros [= <-]. now rewrite app_nil_r.
  - destruct (step st (Z.of_nat k) c) as [st1|] eqn:Hstep; [|discriminate].
    replace (Z.of_nat k + 1)%Z with (Z.of_nat (S k)) by lia.
    intros Hrest. rewrite (IH _ _ Hrest).
    destruct st as [placed used]. unfold convertStep in Hstep.
    unfold isFreeIndex at 2.
    destruct (tileAt gameBoard _ _).
    + injection Hstep as <-. reflexivity.
    + destruct (availableTile playerTiles used (letterOf c)) as [t|];
        [|discriminate].
      injection Hstep as <-. simpl.
      rewrite List.map_app, <- app_assoc. reflexivity.
Qed.

(** The case of the letters of the word plays no part. *)
Lemma convertFrom_upper cs i st :
  from (map Js.upperChar cs) i st = from cs i st.
Proof.
  revert i st. induction cs as [|c cs IH]; intros i st; simpl; [reflexivity|].
  unfold convertStep, letterOf. rewrite JsFacts.upperChar_idempotent.
  fold (letterOf c).
  destruct st as [placed used].
  destruct (tileAt gameBoard _ _); [apply IH|].
  destruct (availableTile playerTiles used (letterOf c)); [apply IH | reflexivity].
Qed.

(** The loop started with nothing placed keeps its two invariants. *)
Lemma convertFrom_start cs st :
  from cs 0 ([], []) = Some st ->
  idsRecorded st /\ wellPlaced playerTiles gameBoard st /\
  spellsWord playerTiles startRow startCol isHorizontal cs st.
Proof.
  intros Hrun. split; [|split].
  - apply (ConvertFacts.convertFrom_invariant playerTiles gameBoard
             startRow startCol isHorizontal cs idsRecorded)
      with (cs := cs) (k := 0%nat) (st := ([], [])); try assumption.
    + intros st0 k c st' _. apply ConvertFacts.step_idsRecorded.
    + reflexivity.
    + split; [reflexivity | constructor].
  - apply (ConvertFacts.convertFrom_invariant playerTiles gameBoard
             startRow startCol isHorizontal cs
             (wellPlaced playerTiles gameBoard))
      with (cs := cs) (k := 0%nat) (st := ([], [])); try assumption.
    + intros st0 k c st' _. apply ConvertFacts.step_wellPlaced.
    + reflexivity.
    + intros q [].
  - apply (ConvertFacts.convertFrom_invariant playerTiles gameBoard
             startRow startCol isHorizontal cs
             (spellsWord playerTiles startRow startCol isHorizontal cs))
      with (cs := cs) (k := 0%nat) (st := ([], [])); try assumption.
    + intros st0 k c st'. apply step_spellsWord.
    + reflexivity.
    + intros q [].
Qed.

End Loop.

Lemma chars_of_upper (w : string) :
  list_ascii_of_string (Js.toUpperCase w) =
  map Js.upperChar (list_ascii_of_string w).
Proof. induction w as [|c w IH]; simpl; [reflexivity | now rewrite IH]. Qed.

(** The tiles of a conversion: ids of the rack, no id twice, free cells. *)
Lemma convert_sound (move : Move.t) (playerTiles : list Tile) (gameBoard : Board) :
  let out := convertGaddagMoveToPlacedTiles move playerTiles gameBoard in
  List.NoDup (map (fun p => id (PlacedTile.tile p)) out) /\
  forall p, In p out ->
    tileAt gameBoard (PlacedTile.row p) (PlacedTile.col p) = None /\
    exists t, In t playerTiles /\ id t = id (PlacedTile.tile p).
Proof.
  unfold convertGaddagMoveToPlacedTiles, convertWord.
  destruct (convertFrom _ _ _ _ _ _ 0 ([], [])) as [[placed used]|] eqn:Hrun.
  - destruct (convertFrom_start _ _ _ _ _ _ _ Hrun) as ([Hrec Hnd] & Hwp & _).
    simpl in Hrec, Hnd. split; [now rewrite <- Hrec | exact Hwp].
  - split; [constructor | intros p []].
Qed.

(** Without tiles nothing is placed. *)
Lemma convert_empty_rack (move : Move.t) (gameBoard : Board) :
  convertGaddagMoveToPlacedTiles move [] gameBoard = [].
Proof.
  destruct (convert_sound move [] gameBoard) as [_ Hrack].
  destruct (convertGaddagMoveToPlacedTiles move [] gameBoard) as [|p out];
    [reflexivity|].
  destruct (Hrack p) as [_ (t & [] & _)]. now left.
Qed.

End ConvertMore.

(** X3.  Every tile that [convertGaddagMoveToPlacedTiles] places lies on
    the cell of a letter of the word and stands for that letter: it is a
    rack tile whose letter, in upper case, is the letter of the word in
    upper case, or it is a rack blank turned into that letter. *)
Theorem X3_placed_tiles_spell_the_word
  (move : Move.t) (playerTiles : list Tile) (gameBoard : Board)
  (p : PlacedTile.t) :
  In p (convertGaddagMoveToPlacedTiles move playerTiles gameBoard) ->
  exists k c,
    nth_error (list_ascii_of_string (Move.word move)) k = Some c /\
    positionOf p =
      cellOfIndex (Move.row move) (Move.col move)
                  (match Move.dir move with H => true | V => false end) k /\
    standsFor playerTiles (PlacedTile.tile p) (letterOf c).
Proof.
  unfold convertGaddagMoveToPlacedTiles, convertWord.
  destruct (convertFrom _ _ _ _ _ _ 0 ([], [])) as [[placed used]|] eqn:Hrun;
    [|intros []].
  destruct (ConvertMore.convertFrom_start _ _ _ _ _ _ _ Hrun) as (_ & _ & Hsp).
  intros Hp. now apply Hsp.
Qed.

Lemma X3_placed_tiles_spell_the_word_witness :
  exists k c,
    nth_error (list_ascii_of_string "CAT") k = Some c /\
    (7, 8)%Z = cellOfIndex 7 7 true k /\
    standsFor exampleRack (asChosen blankTile "A") (letterOf c).
Proof.
  apply (X3_placed_tiles_spell_the_word exampleMove exampleRack createEmptyBoard
           (PlacedTile.Build (asChosen blankTile "A") 7 8)).
  vm_compute. right. left. reflexivity.
Defined.

(** X4.  A conversion is all or nothing: the result is empty, or its tiles
    lie on exactly the cells of the word that the board leaves free, one
    tile for each such cell, in the order of the word. *)
Theorem X4_conversion_fills_the_free_cells
  (move : Move.t) (playerTiles : list Tile) (gameBoard : Board) :
  let isH := match Move.dir move with H => true | V => false end in
  let out := convertGaddagMoveToPlacedTiles move playerTiles gameBoard in
  out = [] \/
  map positionOf out =
    map (cellOfIndex (Move.row move) (Move.col move) isH)
        (List.filter (isFreeIndex gameBoard (Move.row move) (Move.col move) isH)
                     (seq 0 (String.length (Move.word move)))).
Proof.
  intros isH out. subst out.
  unfold convertGaddagMoveToPlacedTiles, convertWord. fold isH.
  destruct (convertFrom _ _ _ _ _ _ 0 ([], [])) as [[placed used]|] eqn:Hrun;
    [|now left].
  right.
  pose proof (ConvertMore.convertFrom_positions _ _ _ _ _ _ 0%nat _ _ Hrun) as Hpos.
  simpl in Hpos. rewrite Hpos. now rewrite GaddagFacts.letters_length.
Qed.

(** X5.  For a word of ASCII characters the case of its letters does not
    matter to the conversion: the word in upper case gives the same placed
    tiles. *)
Theorem X5_conversion_ignores_case
  (move : Move.t) (playerTiles : list Tile) (gameBoard : Board) :
  isAsciiString (Move.word move) = true ->
  convertGaddagMoveToPlacedTiles
    (Move.Build (Js.toUpperCase (Move.word move)) (Move.row move)
                (Move.col move) (Move.dir move) (Move.score move))
    playerTiles gameBoard =
  convertGaddagMoveToPlacedTiles move playerTiles gameBoard.
Proof.
  intros _.
  unfold convertGaddagMoveToPlacedTiles, convertWord. simpl.
  now rewrite ConvertMore.chars_of_upper, ConvertMore.convertFrom_upper.
Qed.

Lemma X5_conversion_ignores_case_witness :
  isAsciiString (Move.word lowerCaseMove) = true /\
  convertGaddagMoveToPlacedTiles (Move.Build "CAT" 7 7 H 10) exampleRack
                                 createEmptyBoard =
  convertGaddagMoveToPlacedTiles lowerCaseMove exampleRack createEmptyBoard.
Proof.
  split; [reflexivity|].
  apply (X5_conversion_ignores_case lowerCaseMove exampleRack createEmptyBoard).
  reflexivity.
Defined.

(** ** generateMove and its caller *)

(** X6.  A WORD move returned by [generateMove] belongs to a player of the
    game and places tiles of that player's rack only: the ids of its tiles
    are ids of rack tiles, no id is used twice, and no tile is laid on a
    cell where the board already has one. *)
Theorem X6_word_move_uses_the_rack
  (GaddagBoard : Type)
  (convertToGaddagBoard : gset string -> Board -> result GaddagBoard)
  (generateMoves : GaddagBoard -> string -> Gaddag.t -> result (list Move.t))
  (validateMove : list PlacedTile.t -> Board -> result Validation)
  (w : World) (gameState : GameState.t) (playerId : string) (m : AIMove.t) :
  generateMove GaddagBoard convertToGaddagBoard generateMoves validateMove
               w gameState playerId = Ok m ->
  AIMove.type m = WORD ->
  exists player placedTiles,
    List.find (fun p => String.eqb (Player.id p) playerId)
              (GameState.players gameState) = Some player /\
    AIMove.tiles m = Some placedTiles /\
    AIMove.exchangeTileIds m = None /\
    List.NoDup (map (fun p => id (PlacedTile.tile p)) placedTiles) /\
    forall p, In p placedTiles ->
      tileAt (GameState.board gameState) (PlacedTile.row p) (PlacedTile.col p)
        = None /\
      exists t, In t (Player.tiles player) /\ id t = id (PlacedTile.tile p).
Proof.
  intros Hgen Hword.
  destruct (List.find (fun p => String.eqb (Player.id p) playerId)
                      (GameState.players gameState)) as [player|] eqn:Hfind.
  - destruct (GenerateFacts.generateMove_known GaddagBoard convertToGaddagBoard
                generateMoves validateMove w gameState playerId player Hfind)
      as [Hex | (g & d & gb & moves & move & _ & _ & _ & _ & _ & _ & Hw)].
    + rewrite Hex in Hgen. injection Hgen as <-. discriminate Hword.
    + rewrite Hw in Hgen. injection Hgen as <-.
      destruct (ConvertMore.convert_sound move (Player.tiles player)
                  (GameState.board gameState)) as [Hnd Hin].
      eexists player, _. repeat split; try reflexivity; try assumption;
        now apply Hin.
  - rewrite (GenerateFacts.generateMove_unknown _ _ _ _ _ _ _ Hfind) in Hgen.
    injection Hgen as <-. discriminate Hword.
Qed.

Lemma X6_word_move_uses_the_rack_witness :
  exists player placedTiles,
    List.find (fun p => String.eqb (Player.id p) "ai-1")
              (GameState.players exampleGame) = Some player /\
    Some [ PlacedTile.Build (mkTile "t1" "C" 3 false None) 7 7;
           PlacedTile.Build (asChosen blankTile "A") 7 8;
           PlacedTile.Build (mkTile "t3" "T" 1 false None) 7 9 ]
      = Some placedTiles /\
    List.NoDup (map (fun p => id (PlacedTile.tile p)) placedTiles).
Proof.
  destruct (X6_word_move_uses_the_rack unit exampleConvertBoard
              (exampleGenerator [zooMove; exampleMove]) exampleValidate
              readyWorld exampleGame "ai-1"
              (AIMove.Build WORD
                 (Some [ PlacedTile.Build (mkTile "t1" "C" 3 false None) 7 7;
                         PlacedTile.Build (asChosen blankTile "A") 7 8;
                         PlacedTile.Build (mkTile "t3" "T" 1 false None) 7 9 ])
                 None))
    as (player & placedTiles & Hp & Ht & _ & Hnd & _).
  - vm_compute. reflexivity.
  - reflexivity.
  - exists player, placedTiles. repeat split; assumption.
Defined.

(** X7.  What [executeAIMove] does with the move of a player whose rack
    is empty, or of a player that is not in the game, is always
    [passTurn]: the exchange names no tile and a word places none. *)
Theorem X7_empty_rack_passes
  (GaddagBoard : Type)
  (convertToGaddagBoard : gset string -> Board -> result GaddagBoard)
  (generateMoves : GaddagBoard -> string -> Gaddag.t -> result (list Move.t))
  (validateMove : list PlacedTile.t -> Board -> result Validation)
  (w : World) (gameState : GameState.t) (playerId : string) :
  (forall player,
     List.find (fun p => String.eqb (Player.id p) playerId)
               (GameState.players gameState) = Some player ->
     Player.tiles player = []) ->
  executeAIMoveAction
    (generateMove GaddagBoard convertToGaddagBoard generateMoves validateMove
                  w gameState playerId) = PassTurn.
Proof.
  intros Hempty.
  destruct (List.find (fun p => String.eqb (Player.id p) playerId)
                      (GameState.players gameState)) as [player|] eqn:Hfind.
  - specialize (Hempty player eq_refl).
    destruct (GenerateFacts.generateMove_known GaddagBoard convertToGaddagBoard
                generateMoves validateMove w gameState playerId player Hfind)
      as [Hex | (g & d & gb & moves & move & _ & _ & _ & _ & _ & _ & Hw)].
    + rewrite Hex, Hempty, ExchangeFacts.exchange_ids,
        ExchangeFacts.tilesToExchange_nil. reflexivity.
    + rewrite Hw, Hempty, ConvertMore.convert_empty_rack. reflexivity.
  - now rewrite (GenerateFacts.generateMove_unknown _ _ _ _ _ _ _ Hfind).
Qed.

Lemma X7_empty_rack_passes_witness :
  executeAIMoveAction
    (generateMove unit exampleConvertBoard (exampleGenerator [exampleMove])
                  exampleValidate readyWorld
                  (GameState.Build [Player.Build "ai-2" "Agares" []]
                                   createEmptyBoard) "ai-2") = PassTurn.
Proof.
  apply X7_empty_rack_passes.
  intros player Hfind. vm_compute in Hfind. now injection Hfind as <-.
Defined.

(** X8.  With tiles on the rack the strategic exchange is never turned
    into a pass by [executeAIMove]: it exchanges at least one tile, and at
    least three of a rack that has three. *)
Theorem X8_exchange_is_carried_out (random3 : nat) (tiles : list Tile) :
  tiles <> [] ->
  exists ids,
    aiMoveAction (generateStrategicExchange random3 tiles) = ExchangeTiles ids /\
    ids = map id (tilesToExchange random3 tiles) /\
    (Nat.min 3 (length tiles) <= length ids <= length tiles)%nat.
Proof.
  intros Hne.
  pose proof (ExchangeFacts.tilesToExchange_length random3 tiles) as Hlen.
  assert (Hpos : (Nat.min 3 (length tiles) <= length (tilesToExchange random3 tiles)
                  <= length tiles)%nat) by lia.
  assert (Hlen1 : (1 <= length tiles)%nat)
    by (destruct tiles; [now elim Hne | cbn [length]; lia]).
  exists (map id (tilesToExchange random3 tiles)).
  rewrite ExchangeFacts.exchange_ids, length_map. unfold aiMoveAction.
  cbn [AIMove.type AIMove.exchangeTileIds].
  destruct (tilesToExchange random3 tiles) as [|t ts].
  - cbn [length] in Hpos. lia.
  - split; [reflexivity|]. split; [reflexivity | exact Hpos].
Qed.

Lemma X8_exchange_is_carried_out_witness :
  exists ids,
    aiMoveAction (generateStrategicExchange 1 exampleRack) = ExchangeTiles ids /\
    (3 <= length ids)%nat.
Proof.
  destruct (X8_exchange_is_carried_out 1 exampleRack) as (ids & Ha & _ & Hlen).
  - discriminate.
  - exists ids. split; [exact Ha|]. simpl in Hlen. lia.
Defined.

(** ** The service between initializations *)

(** X9.  In every state the service reaches, [isInitializing] is true
    exactly while a call of [initialize] is waiting, the dictionary is
    never set without the GADDAG, and a service whose GADDAG and dictionary
    are set is not initializing. *)
Theorem X9_initializing_flag_is_exact (es : list Init.event) :
  let s := Init.run Init.new es in
  (Init.isInitializing s = true <-> Init.running s <> ∅) /\
  (Init.dictionary s <> None -> Init.gaddag s <> None) /\
  (Init.ready s = true -> Init.isInitializing s = false).
Proof.
  intros s.
  assert (Hs : Init.consistent s)
    by (apply InitFacts.run_consistent, InitFacts.new_consistent).
  destruct Hs as [Hdg [[Hrun Hflag] | (k & st & Hrun & Hflag & Hd & _)]].
  - split; [|split].
    + rewrite Hrun, Hflag. split; [discriminate | intros Hne; now elim Hne].
    + exact Hdg.
    + intros _. exact Hflag.
  - split; [|split].
    + rewrite Hrun, Hflag. split; [|reflexivity].
      intros _ Hempty.
      assert (Hk : ({[k := st]} : gmap nat Init.stage) !! k = Some st)
        by apply lookup_singleton_eq.
      rewrite Hempty, lookup_empty in Hk. discriminate.
    + exact Hdg.
    + intros Hready. apply InitFacts.ready_true in Hready as [_ Hd'].
      congruence.
Qed.

Module InitMore.
Import Init.

(** With [initPromise] set and nobody waiting, nothing that comes through
    [ensureInitialized] changes the service. *)
Lemma step_settled (s : t) (e : event) :
  settled s -> viaEnsure e = true -> step s e = s.
Proof.
  intros [Hp Hrun] Hvia.
  destruct e as [| |k r|k r|k r]; [discriminate| | | |]; simpl.
  - unfold ensureInitialized. destruct (initPromise s); [reflexivity|].
    now elim Hp.
  - now rewrite Hrun, lookup_empty.
  - now rewrite Hrun, lookup_empty.
  - now rewrite Hrun, lookup_empty.
Qed.

Lemma run_settled (s : t) (es : list event) :
  settled s -> forallb viaEnsure es = true -> run s es = s.
Proof.
  induction es as [|e es IH]; intros Hs Hvia; [reflexivity|].
  simpl in Hvia. apply andb_true_iff in Hvia as [He Hes].
  simpl. rewrite (step_settled s e Hs He). now apply IH.
Qed.

End InitMore.

(** X10.  A failed initialization is final for [generateMove]: once
    [initPromise] is set and its call of [initialize] has ended, calls of
    [ensureInitialized] and promises that settle leave the service exactly
    as it is; if the GADDAG or the dictionary is missing then, it stays
    missing and no build is started again. *)
Theorem X10_failed_initialization_is_final
  (s : Init.t) (es : list Init.event) :
  settled s ->
  forallb Init.viaEnsure es = true ->
  Init.run s es = s /\
  (Init.ready s = false -> Init.ready (Init.run s es) = false) /\
  Init.builds (Init.run s es) = Init.builds s.
Proof.
  intros Hs Hvia. rewrite (InitMore.run_settled s es Hs Hvia).
  split; [reflexivity|]. split; [tauto | reflexivity].
Qed.

Lemma X10_failed_initialization_is_final_witness :
  let failed := Init.run Init.new
                  [ Init.CallEnsureInitialized;
                    Init.LoadDictionarySettled 0
                      (Throw "Could not load dictionary from local files") ] in
  Init.ready failed = false /\
  Init.run failed [ Init.CallEnsureInitialized; Init.CallEnsureInitialized ]
    = failed.
Proof.
  intros failed. split; [reflexivity|].
  apply (X10_failed_initialization_is_final failed).
  - split; [discriminate | reflexivity].
  - reflexivity.
Defined.

(** ** DictionaryService *)

Module DictionaryFacts.

Lemma wordSource_readable env fs content :
  wordSource env fs = Some content ->
  DictionaryService.loadFromPaths fs (possiblePaths env) =
  Some (Ok (list_to_set (parseWords content))).
Proof.
  unfold wordSource.
  destruct (firstExisting fs (possiblePaths env)) as [p|] eqn:Hp;
    [|discriminate].
  destruct (fs p) as [|c|e] eqn:Hfs; try discriminate.
  intros [= ->]. now apply (BuildFacts.loadFromPaths_readable _ _ p).
Qed.

(** Without a readable word source the loop over the paths finds nothing
    or throws. *)
Lemma loadFromPaths_no_source fs paths :
  match firstExisting fs paths with
  | Some p => match fs p with Readable c => Some c | _ => None end
  | None => None
  end = None ->
  match DictionaryService.loadFromPaths fs paths with
  | Some (Ok _) => False
  | _ => True
  end.
Proof.
  induction paths as [|q paths IH]; simpl; [trivial|].
  unfold existsSync, readFileSync.
  destruct (fs q) as [|c|e] eqn:Hq; simpl; rewrite ?Hq; try exact IH;
    try discriminate; trivial.
Qed.

Lemma buildFromPaths_no_source {G} (addWord : string -> G -> G) fs paths g :
  match firstExisting fs paths with
  | Some p => match fs p with Readable c => Some c | _ => None end
  | None => None
  end = None ->
  match buildFromPaths addWord fs paths g with
  | Some (Ok _) => False
  | _ => True
  end.
Proof.
  induction paths as [|q paths IH]; simpl; [trivial|].
  unfold existsSync, readFileSync.
  destruct (fs q) as [|c|e] eqn:Hq; simpl; rewrite ?Hq; try exact IH;
    try discriminate; trivial.
Qed.

Lemma loadDictionary_readable env fs self content :
  wordSource env fs = Some content ->
  DictionaryService.isLoaded self = false \/
  DictionaryService.words self = None ->
  DictionaryService.loadDictionary env fs self =
  (Ok tt, DictionaryService.Build (Some (list_to_set (parseWords content))) true).
Proof.
  intros Hsrc Hself. unfold DictionaryService.loadDictionary.
  rewrite (wordSource_readable _ _ _ Hsrc).
  destruct Hself as [-> | ->]; [reflexivity|].
  now destruct (DictionaryService.isLoaded self).
Qed.

Lemma elem_of_words (w : string) (ws : list string) :
  w ∈ (list_to_set ws : gset string) <-> In w ws.
Proof. rewrite elem_of_list_to_set. apply list_elem_of_In. Qed.

Lemma truthy_nonempty (word : string) :
  word <> EmptyString ->
  negb (Js.truthy word) || (String.length word =? 0)%nat = false.
Proof. destruct word; [congruence | reflexivity]. Qed.

End DictionaryFacts.

(** X11.  The first [isValidWord] on a service that has not loaded reads
    the word source and answers whether the word, in upper case, is one of
    its lines (trimmed, in upper case); the service is loaded afterwards.
    So every line of the source is a valid word, in whatever case it is
    asked for. *)
Theorem X11_isValidWord_finds_the_lines
  (env : processEnv) (fs : fileSystem) (self : DictionaryService.t)
  (content word : string) :
  wordSource env fs = Some content ->
  DictionaryService.isLoaded self = false \/
  DictionaryService.words self = None ->
  word <> EmptyString ->
  let ws : gset string := list_to_set (parseWords content) in
  isValidWord env fs self word =
    (Ok (bool_decide (Js.toUpperCase word ∈ ws)),
     DictionaryService.Build (Some ws) true) /\
  ((exists line, In line (Js.split Js.newline (Js.trim content)) /\
                 Js.toUpperCase word = Js.toUpperCase (Js.trim line)) <->
   fst (isValidWord env fs self word) = Ok true).
Proof.
  intros Hsrc Hself Hne ws.
  assert (Hv : isValidWord env fs self word =
               (Ok (bool_decide (Js.toUpperCase word ∈ ws)),
                DictionaryService.Build (Some ws) true)).
  { unfold isValidWord. rewrite DictionaryFacts.truthy_nonempty by exact Hne.
    assert (Hload : match DictionaryService.isLoaded self,
                          DictionaryService.words self with
                    | true, Some _ => (Ok tt, self)
                    | _, _ => DictionaryService.loadDictionary env fs self
                    end = (Ok tt, DictionaryService.Build (Some ws) true)).
    { destruct Hself as [Hl | Hw].
      - rewrite Hl.
        apply DictionaryFacts.loadDictionary_readable; [exact Hsrc | now left].
      - rewrite Hw. destruct (DictionaryService.isLoaded self) eqn:Hl;
          (apply DictionaryFacts.loadDictionary_readable;
           [exact Hsrc | now right]). }
    rewrite Hload. reflexivity. }
  split; [exact Hv|]. rewrite Hv. simpl. split.
  - intros (line & Hline & Heq). f_equal. apply bool_decide_eq_true.
    apply DictionaryFacts.elem_of_words. unfold parseWords.
    apply in_map_iff. exists line. split; [now symmetry | exact Hline].
  - intros [= Hin]. apply bool_decide_eq_true in Hin.
    apply DictionaryFacts.elem_of_words in Hin. unfold parseWords in Hin.
    apply in_map_iff in Hin as (line & Heq & Hline).
    exists line. split; [exact Hline | now symmetry].
Qed.

Lemma X11_isValidWord_finds_the_lines_witness :
  fst (isValidWord exampleEnv (exampleFs "  cat 
Dog") DictionaryService.new "dOg") = Ok true.
Proof.
  destruct (X11_isValidWord_finds_the_lines exampleEnv (exampleFs "  cat 
Dog") DictionaryService.new "  cat 
Dog" "dOg") as [_ [Hfound _]].
  - reflexivity.
  - left. reflexivity.
  - discriminate.
  - apply Hfound. exists "Dog". split; [|reflexivity].
    simpl. right. left. reflexivity.
Defined.

(** X12.  The empty word is never valid and asking for it touches
    nothing: no file is read and the service is left as it is, also when
    no word source exists.  Any other word, asked of a service that has
    not loaded and finds no word source, makes [isValidWord] throw and
    leaves the service not loaded. *)
Theorem X12_isValidWord_edges
  (env : processEnv) (fs : fileSystem) (self : DictionaryService.t) :
  isValidWord env fs self EmptyString = (Ok false, self) /\
  forall word,
    word <> EmptyString ->
    (forall p, In p (possiblePaths env) -> fs p = Absent) ->
    DictionaryService.isLoaded self = false \/
    DictionaryService.words self = None ->
    isValidWord env fs self word =
      (Throw "Could not load dictionary from local files", self).
Proof.
  split; [reflexivity|].
  intros word Hne Habs Hself.
  unfold isValidWord. rewrite DictionaryFacts.truthy_nonempty by exact Hne.
  assert (Hload : DictionaryService.loadDictionary env fs self =
                  (Throw "Could not load dictionary from local files", self)).
  { unfold DictionaryService.loadDictionary.
    rewrite BuildFacts.loadFromPaths_absent by exact Habs.
    destruct Hself as [-> | ->]; [reflexivity|].
    now destruct (DictionaryService.isLoaded self). }
  destruct Hself as [Hl | Hw].
  - rewrite Hl, Hload. reflexivity.
  - rewrite Hw. destruct (DictionaryService.isLoaded self); now rewrite Hload.
Qed.

(** X13.  A loaded service never reads the files again: [loadDictionary]
    returns at once and [isValidWord] answers from the words it holds,
    whatever the file system has become. *)
Theorem X13_loaded_dictionary_is_cached
  (env : processEnv) (fs : fileSystem) (ws : gset string) (word : string) :
  let self := DictionaryService.Build (Some ws) true in
  DictionaryService.loadDictionary env fs self = (Ok tt, self) /\
  isValidWord env fs self word =
    (Ok (negb (String.eqb word EmptyString)
         && bool_decide (Js.toUpperCase word ∈ ws)), self).
Proof.
  intros self. split; [reflexivity|].
  unfold isValidWord. destruct word as [|c word]; reflexivity.
Qed.

(** X14.  The three readers of the word source agree.  With a readable
    source, [getDictionarySet] returns the set that [loadDictionary]
    stores, and the words handed to [addWord] are exactly the non-empty
    members of that set; without one, all three throw. *)
Theorem X14_loaders_agree (env : processEnv) (fs : fileSystem) :
  match wordSource env fs with
  | Some content =>
      let ws : gset string := list_to_set (parseWords content) in
      getDictionarySet env fs = Ok ws /\
      DictionaryService.loadDictionary env fs DictionaryService.new =
        (Ok tt, DictionaryService.Build (Some ws) true) /\
      exists calls,
        addWordCalls env fs = Ok calls /\
        forall w, In w calls <-> (w ∈ ws /\ w <> EmptyString)
  | None =>
      isThrow (getDictionarySet env fs) = true /\
      isThrow (fst (DictionaryService.loadDictionary env fs
                      DictionaryService.new)) = true /\
      isThrow (buildGaddagFromDictionaryService env fs) = true
  end.
Proof.
  destruct (wordSource env fs) as [content|] eqn:Hsrc.
  - intros ws. split; [|split].
    + unfold getDictionarySet.
      now rewrite (DictionaryFacts.wordSource_readable _ _ _ Hsrc).
    + apply DictionaryFacts.loadDictionary_readable; [exact Hsrc | now left].
    + eexists. split.
      * unfold addWordCalls.
        rewrite (BuildFacts.buildWith_of_source _ _ _ content) by exact Hsrc.
        rewrite BuildFacts.log_fold. reflexivity.
      * intros w. simpl. rewrite filter_In.
        unfold ws. rewrite DictionaryFacts.elem_of_words.
        rewrite BuildFacts.nonEmpty_spec.
        split; intros [Hin Hne]; (split; [exact Hin|]).
        -- destruct w; [simpl in Hne; lia | discriminate].
        -- destruct w; [now elim Hne | simpl; lia].
  - unfold wordSource in Hsrc.
    pose proof (DictionaryFacts.loadFromPaths_no_source fs (possiblePaths env) Hsrc)
      as Hload.
    pose proof (DictionaryFacts.buildFromPaths_no_source Gaddag.addWord fs
                  (possiblePaths env) Gaddag.new Hsrc) as Hbuild.
    unfold getDictionarySet, DictionaryService.loadDictionary,
      buildGaddagFromDictionaryService, buildWith.
    destruct (DictionaryService.loadFromPaths fs (possiblePaths env))
      as [[ws|e]|]; [destruct Hload| |];
    destruct (buildFromPaths Gaddag.addWord fs (possiblePaths env) Gaddag.new)
      as [[g|e']|]; try destruct Hbuild;
    (split; [reflexivity|]; split; reflexivity).
Qed.

(** ** findWordFromTile *)

Module WordFacts.

Lemma inBounds_spec (row col : Z) :
  inBounds row col = true <-> (0 <= row < 15 /\ 0 <= col < 15)%Z.
Proof. unfold inBounds, BOARD_SIZE. lia. Qed.

Lemma cellOf_tileAt (gameBoard : Board) (row col : Z) (cell : BoardCell.t) :
  cellOf gameBoard row col = Ok cell ->
  tileAt gameBoard row col = BoardCell.tile cell.
Proof.
  unfold cellOf, tileAt. destruct (index gameBoard row) as [r|]; [|discriminate].
  destruct (index r col) as [c|]; [|discriminate]. now intros [= ->].
Qed.

Lemma cellAlong_zero (d : Direction) (row col : Z) :
  cellAlong d row col 0 = (row, col).
Proof. destruct d; unfold cellAlong; simpl; f_equal; lia. Qed.

Lemma cellAlong_next (d : Direction) (row col i : Z) :
  cellAlong d (row + fst (directionVector d)) (col + snd (directionVector d)) i
  = cellAlong d row col (i + 1).
Proof. destruct d; unfold cellAlong; simpl; f_equal; lia. Qed.

Lemma cellAlong_prev (d : Direction) (row col i : Z) :
  cellAlong d (row - fst (directionVector d)) (col - snd (directionVector d)) i
  = cellAlong d row col (i - 1).
Proof. destruct d; unfold cellAlong; simpl; f_equal; lia. Qed.

Lemma cellAlong_add (d : Direction) (row col i j : Z) :
  cellAlong d (fst (cellAlong d row col i)) (snd (cellAlong d row col i)) j
  = cellAlong d row col (i + j).
Proof. destruct d; unfold cellAlong; simpl; f_equal; lia. Qed.

Section Board.

Variable gameBoard : Board.

(** The forward loop ends, and what it returns is the run of tiles from
    its first cell. *)
Lemma collectWord_run (d : Direction) (fuel : nat) (row col : Z) :
  (inBounds row col = true -> (15 - alongAxis d row col < Z.of_nat fuel)%Z) ->
  (1 <= fuel)%nat ->
  exists r,
    collectWord fuel gameBoard (fst (directionVector d)) (snd (directionVector d))
                row col = Some r /\
    (boardDefined gameBoard -> exists word, r = Ok word) /\
    forall word, r = Ok word -> isRunFrom gameBoard d row col word.
Proof.
  revert row col. induction fuel as [|fuel IH]; intros row col Hfuel Hpos; [lia|].
  cbn [collectWord].
  destruct (inBounds row col) eqn:Hb.
  2:{ eexists. split; [reflexivity|]. split; [intros _; now eexists|].
      intros word [= <-]. split.
      - intros [|i] t; discriminate.
      - simpl. rewrite cellAlong_zero. unfold onBoard. simpl. congruence. }
  destruct (cellOf gameBoard row col) as [cell|e] eqn:Hcell.
  2:{ eexists. split; [reflexivity|]. split; [|discriminate].
      intros Hdef. destruct (Hdef row col Hb) as [cell Hc]. congruence. }
  pose proof (cellOf_tileAt _ _ _ _ Hcell) as Htile.
  destruct (BoardCell.tile cell) as [t|] eqn:Ht.
  2:{ eexists. split; [reflexivity|]. split; [intros _; now eexists|].
      intros word [= <-]. split.
      - intros [|i] t; discriminate.
      - simpl. rewrite cellAlong_zero. intros _. exact Htile. }
  specialize (Hfuel eq_refl). apply inBounds_spec in Hb as Hrange.
  destruct (IH (row + fst (directionVector d))%Z (col + snd (directionVector d))%Z)
    as (r & Hr & Hok & Hrun).
  { intros _. destruct d; simpl in *; lia. }
  { destruct d; simpl in *; lia. }
  rewrite Hr. destruct r as [word|e].
  - eexists. split; [reflexivity|]. split; [intros _; now eexists|].
    intros word' [= <-]. destruct (Hrun word eq_refl) as [Hcells Hafter]. split.
    + intros [|i] t'; simpl.
      * intros [= <-]. unfold wordTilePosition. simpl.
        rewrite cellAlong_zero. split; [reflexivity|].
        split; [unfold onBoard; simpl; now apply inBounds_spec|].
        exists t. split; [exact Htile | reflexivity].
      * intros Hn. destruct (Hcells i t' Hn) as (Hp & Hon & Hex).
        rewrite cellAlong_next in Hp.
        replace (Z.of_nat (S i)) with (Z.of_nat i + 1)%Z by lia.
        now split.
    + cbn [length]. replace (Z.of_nat (S (length word)))
        with (Z.of_nat (length word) + 1)%Z by lia.
      rewrite <- cellAlong_next. exact Hafter.
  - eexists. split; [reflexivity|]. split; [exact Hok | discriminate].
Qed.

(** The backward loop ends on a cell of the line; the cells it went over
    carry tiles, and the cell before the one it ends on is off the board
    or free. *)
Lemma backToStart_start (d : Direction) (fuel : nat) (row col : Z) :
  (inBounds row col = true -> (alongAxis d row col < Z.of_nat fuel)%Z) ->
  (1 <= fuel)%nat ->
  exists r,
    backToStart fuel gameBoard (fst (directionVector d)) (snd (directionVector d))
                row col = Some r /\
    (boardDefined gameBoard -> exists pos, r = Ok pos) /\
    forall pos, r = Ok pos ->
      exists j : nat,
        pos = cellAlong d row col (- Z.of_nat j) /\
        (inBounds row col = false -> j = 0%nat) /\
        (forall i : nat, (1 <= i <= j)%nat ->
           onBoard (cellAlong d row col (- Z.of_nat i)) = true /\
           tileOn gameBoard (cellAlong d row col (- Z.of_nat i)) <> None) /\
        (inBounds row col = true ->
         onBoard (cellAlong d row col (- Z.of_nat j - 1)) = true ->
         tileOn gameBoard (cellAlong d row col (- Z.of_nat j - 1)) = None).
Proof.
  revert row col. induction fuel as [|fuel IH]; intros row col Hfuel Hpos; [lia|].
  cbn [backToStart].
  destruct (inBounds row col) eqn:Hb.
  2:{ eexists. split; [reflexivity|]. split; [intros _; now eexists|].
      intros pos [= <-]. exists 0%nat. rewrite cellAlong_zero.
      split; [reflexivity|]. split; [reflexivity|].
      split; [intros i; lia | discriminate]. }
  set (prevRow := (row - fst (directionVector d))%Z).
  set (prevCol := (col - snd (directionVector d))%Z).
  assert (Hprev : cellAlong d row col (-1) = (prevRow, prevCol)).
  { subst prevRow prevCol. destruct d; unfold cellAlong; simpl; f_equal; lia. }
  assert (Hstop : forall P : Prop,
            (onBoard (prevRow, prevCol) = true ->
             tileOn gameBoard (prevRow, prevCol) = None) ->
            exists j : nat,
              (row, col) = cellAlong d row col (- Z.of_nat j) /\
              (true = false -> j = 0%nat) /\
              (forall i : nat, (1 <= i <= j)%nat ->
                 onBoard (cellAlong d row col (- Z.of_nat i)) = true /\
                 tileOn gameBoard (cellAlong d row col (- Z.of_nat i)) <> None) /\
              (true = true ->
               onBoard (cellAlong d row col (- Z.of_nat j - 1)) = true ->
               tileOn gameBoard (cellAlong d row col (- Z.of_nat j - 1)) = None)).
  { intros _ Hfree. exists 0%nat.
    replace (- Z.of_nat 0 - 1)%Z with (-1)%Z by lia.
    replace (- Z.of_nat 0)%Z with 0%Z by lia.
    rewrite cellAlong_zero, Hprev.
    split; [reflexivity|]. split; [discriminate|].
    split; [intros i; lia | intros _; exact Hfree]. }
  destruct (inBounds prevRow prevCol) eqn:Hpb.
  2:{ eexists. split; [reflexivity|]. split; [intros _; now eexists|].
      intros pos [= <-]. apply (Hstop True). unfold onBoard. simpl. congruence. }
  destruct (cellOf gameBoard prevRow prevCol) as [cell|e] eqn:Hcell.
  2:{ eexists. split; [reflexivity|]. split; [|discriminate].
      intros Hdef. destruct (Hdef prevRow prevCol Hpb) as [cell Hc]. congruence. }
  pose proof (cellOf_tileAt _ _ _ _ Hcell) as Htile.
  destruct (BoardCell.tile cell) as [t|] eqn:Ht.
  2:{ eexists. split; [reflexivity|]. split; [intros _; now eexists|].
      intros pos [= <-]. apply (Hstop True). intros _. exact Htile. }
  specialize (Hfuel eq_refl).
  apply inBounds_spec in Hb as Hrange. apply inBounds_spec in Hpb as Hprange.
  destruct (IH prevRow prevCol) as (r & Hr & Hok & Hspec).
  { intros _. subst prevRow prevCol. destruct d; simpl in *; lia. }
  { subst prevRow prevCol. destruct d; simpl in *; lia. }
  exists r. split; [exact Hr|]. split; [exact Hok|].
  intros pos Hpos'. destruct (Hspec pos Hpos') as (j & Hj & _ & Hmid & Hbefore).
  assert (Hshift : forall i : Z,
            cellAlong d prevRow prevCol i = cellAlong d row col (i - 1)).
  { intros i. subst prevRow prevCol. apply cellAlong_prev. }
  exists (S j). split; [|split; [discriminate|split]].
  - rewrite Hj, Hshift. f_equal. lia.
  - intros i Hi. destruct (Nat.eq_dec i 1) as [->|Hne].
    + change (- Z.of_nat 1)%Z with (-1)%Z. rewrite Hprev.
      split; [exact Hpb|]. unfold tileOn. simpl. congruence.
    + destruct (Hmid (i - 1)%nat) as [Hon Hocc]; [lia|].
      rewrite Hshift in Hon, Hocc.
      replace (- Z.of_nat (i - 1) - 1)%Z with (- Z.of_nat i)%Z in Hon, Hocc by lia.
      now split.
  - intros _. specialize (Hbefore Hpb). rewrite Hshift in Hbefore.
    replace (- Z.of_nat j - 1 - 1)%Z with (- Z.of_nat (S j) - 1)%Z in Hbefore by lia.
    exact Hbefore.
Qed.

(** The word found from a tile: the run of tiles around it. *)
Lemma findWordFromTile_run (startTile : WordTile.t) (d : Direction) :
  exists r,
    findWordFromTile startTile d gameBoard = Some r /\
    (boardDefined gameBoard -> exists word, r = Ok word) /\
    forall word, r = Ok word ->
      exists row col,
        isRunFrom gameBoard d row col word /\
        (onBoard (wordTilePosition startTile) = true ->
         onBoard (cellAlong d row col (-1)) = true ->
         tileOn gameBoard (cellAlong d row col (-1)) = None) /\
        (onBoard (wordTilePosition startTile) = true ->
         tileOn gameBoard (wordTilePosition startTile) <> None ->
         coversCell word (wordTilePosition startTile)) /\
        (onBoard (wordTilePosition startTile) = false -> word = []).
Proof.
  unfold findWordFromTile.
  destruct (directionVector d) as [dr dc] eqn:Hd.
  assert (Hdr : dr = fst (directionVector d)) by now rewrite Hd.
  assert (Hdc : dc = snd (directionVector d)) by now rewrite Hd.
  rewrite Hdr, Hdc.
  set (row := WordTile.row startTile). set (col := WordTile.col startTile).
  destruct (backToStart_start d lineFuel row col) as (rb & Hrb & Hokb & Hback).
  { intros Hb. apply inBounds_spec in Hb. unfold lineFuel, BOARD_SIZE.
    destruct d; simpl; lia. }
  { unfold lineFuel. lia. }
  rewrite Hrb. destruct rb as [[row0 col0]|e].
  2:{ eexists. split; [reflexivity|]. split; [|discriminate].
      intros Hdef. destruct (Hokb Hdef) as [pos Hpos]. discriminate. }
  destruct (Hback _ eq_refl) as (j & Hj & Hout & Hmid & Hbefore).
  destruct (collectWord_run d lineFuel row0 col0) as (r & Hr & Hok & Hrun).
  { intros Hb. apply inBounds_spec in Hb. unfold lineFuel, BOARD_SIZE.
    destruct d; simpl; lia. }
  { unfold lineFuel. lia. }
  exists r. split; [exact Hr|]. split; [exact Hok|].
  intros word Hword. exists row0, col0.
  pose proof (Hrun word Hword) as Hisrun.
  assert (Hfrom0 : forall i : Z,
            cellAlong d row0 col0 i = cellAlong d row col (i - Z.of_nat j)).
  { intros i.
    pose proof (cellAlong_add d row col (- Z.of_nat j) i) as Hadd.
    rewrite <- Hj in Hadd. cbn [fst snd] in Hadd. rewrite Hadd.
    f_equal. lia. }
  split; [exact Hisrun|]. split; [|split].
  - intros Hon. specialize (Hbefore Hon).
    rewrite Hfrom0.
    now replace (-1 - Z.of_nat j)%Z with (- Z.of_nat j - 1)%Z by lia.
  - intros Hon Hocc. destruct Hisrun as [Hcells Hafter].
    assert (Hlen : (j < length word)%nat).
    { destruct (Nat.lt_ge_cases j (length word)) as [Hlt|Hge]; [exact Hlt|].
      exfalso. rewrite Hfrom0 in Hafter.
      destruct (Nat.eq_dec (length word) j) as [Heq|Hne].
      - rewrite Heq, Z.sub_diag, cellAlong_zero in Hafter.
        apply Hocc, Hafter, Hon.
      - destruct (Hmid (j - length word)%nat) as [Hon' Hocc']; [lia|].
        replace (- Z.of_nat (j - length word))%Z
          with (Z.of_nat (length word) - Z.of_nat j)%Z in Hon', Hocc' by lia.
        now apply Hocc', Hafter. }
    destruct (nth_error word j) as [t|] eqn:Ht.
    + exists t. split; [eapply nth_error_In; eassumption|].
      destruct (Hcells j t Ht) as (Hp & _).
      rewrite Hp, Hfrom0, Z.sub_diag. apply cellAlong_zero.
    + apply nth_error_None in Ht. lia.
  - intros Hoff. specialize (Hout Hoff). subst j.
    replace (- Z.of_nat 0)%Z with 0%Z in Hj by lia.
    rewrite cellAlong_zero in Hj. injection Hj as -> ->.
    unfold lineFuel in Hr. cbn [collectWord] in Hr.
    change (inBounds row col = false) in Hoff. rewrite Hoff in Hr.
    congruence.
Qed.

End Board.

End WordFacts.

(** X15.  [findWordFromTile] always ends.  When it returns, the word is
    the whole run of tiles through the start cell along the direction: its
    tiles lie on consecutive cells of the board, each with the tile of the
    board there, the cells before the first and after the last are off the
    board or free, and the start cell is one of them when it carries a
    tile; from a cell off the board the word is empty.  It throws only when
    a cell of the 15 by 15 grid is missing. *)
Theorem X15_findWordFromTile_finds_the_run
  (gameBoard : Board) (startTile : WordTile.t) (d : Direction) :
  exists r,
    findWordFromTile startTile d gameBoard = Some r /\
    (boardDefined gameBoard -> exists word, r = Ok word) /\
    forall word, r = Ok word ->
      exists row col,
        isRunFrom gameBoard d row col word /\
        (onBoard (wordTilePosition startTile) = true ->
         onBoard (cellAlong d row col (-1)) = true ->
         tileOn gameBoard (cellAlong d row col (-1)) = None) /\
        (onBoard (wordTilePosition startTile) = true ->
         tileOn gameBoard (wordTilePosition startTile) <> None ->
         coversCell word (wordTilePosition startTile)) /\
        (onBoard (wordTilePosition startTile) = false -> word = []).
Proof. apply WordFacts.findWordFromTile_run. Qed.

(** ** The scan of the board and groupTilesIntoWords *)

Module GroupFacts.

Lemma boardCells_complete (row col : Z) :
  inBounds row col = true -> In (row, col) boardCells.
Proof.
  intros Hb. apply WordFacts.inBounds_spec in Hb.
  unfold boardCells. apply in_flat_map.
  exists (Z.to_nat row). split; [apply in_seq; unfold BOARD_SIZE; lia|].
  apply in_map_iff. exists (Z.to_nat col).
  split; [f_equal; lia | apply in_seq; unfold BOARD_SIZE; lia].
Qed.

Lemma boardCells_onBoard (pos : Z * Z) :
  In pos boardCells -> onBoard pos = true.
Proof.
  unfold boardCells. intros Hin. apply in_flat_map in Hin as (r & Hr & Hin).
  apply in_map_iff in Hin as (c & <- & Hc).
  apply in_seq in Hr. apply in_seq in Hc. unfold BOARD_SIZE in *.
  apply WordFacts.inBounds_spec. simpl. lia.
Qed.

Section Board.

Variable gameBoard : Board.

(** A scan that returns has found every cell, and its tiles are the tiles
    of the cells it went over. *)
Lemma scanCells_ok (cells : list (Z * Z)) (tiles : list WordTile.t) :
  scanCells gameBoard cells = Ok tiles ->
  (forall pos, In pos cells ->
     exists cell, cellOf gameBoard (fst pos) (snd pos) = Ok cell) /\
  (forall t, In t tiles ->
     In (wordTilePosition t) cells /\
     exists tile, tileOn gameBoard (wordTilePosition t) = Some tile /\
                  t = wordTileOf (WordTile.row t) (WordTile.col t) tile) /\
  (forall pos tile, In pos cells -> tileOn gameBoard pos = Some tile ->
     coversCell tiles pos).
Proof.
  revert tiles. induction cells as [|[row col] cells IH]; intros tiles; simpl.
  - intros [= <-]. repeat split; intros; contradiction.
  - unfold mbind, result_bind.
    destruct (cellOf gameBoard row col) as [cell|e] eqn:Hcell; [|discriminate].
    destruct (scanCells gameBoard cells) as [more|e]; [|discriminate].
    destruct (IH more eq_refl) as (Hdef & Hsound & Hcomplete).
    pose proof (WordFacts.cellOf_tileAt _ _ _ _ Hcell) as Htile.
    intros [= <-]. split; [|split].
    + intros pos [<-|Hin]; [now exists cell | now apply Hdef].
    + intros t Ht.
      assert (Hmore : In t more ->
                ((row, col) = wordTilePosition t \/ In (wordTilePosition t) cells) /\
                exists tile, tileOn gameBoard (wordTilePosition t) = Some tile /\
                  t = wordTileOf (WordTile.row t) (WordTile.col t) tile).
      { intros Hin. destruct (Hsound t Hin) as [Hp Hex]. split; [now right | exact Hex]. }
      destruct (BoardCell.tile cell) as [tile|]; [|now apply Hmore].
      destruct Ht as [<-|Ht]; [|now apply Hmore].
      split; [now left|]. exists tile. split; [exact Htile | reflexivity].
    + intros pos tile [<-|Hin] Hpos.
      * unfold tileOn in Hpos. simpl in Hpos. rewrite Htile in Hpos.
        rewrite Hpos. eexists. split; [now left | reflexivity].
      * destruct (Hcomplete pos tile Hin Hpos) as (t & Ht & Hp).
        exists t. split; [|exact Hp].
        destruct (BoardCell.tile cell); [now right | exact Ht].
Qed.

Lemma existingTiles_ok (tiles : list WordTile.t) :
  existingTiles gameBoard = Ok tiles ->
  boardDefined gameBoard /\
  (forall t, In t tiles ->
     onBoard (wordTilePosition t) = true /\
     exists tile, tileOn gameBoard (wordTilePosition t) = Some tile /\
                  t = wordTileOf (WordTile.row t) (WordTile.col t) tile) /\
  (forall row col tile, inBounds row col = true ->
     tileAt gameBoard row col = Some tile -> coversCell tiles (row, col)).
Proof.
  intros Hscan. destruct (scanCells_ok _ _ Hscan) as (Hdef & Hsound & Hcomplete).
  split; [|split].
  - intros row col Hb. apply (Hdef (row, col)). now apply boardCells_complete.
  - intros t Ht. destruct (Hsound t Ht) as [Hin Hex].
    split; [now apply boardCells_onBoard | exact Hex].
  - intros row col tile Hb Htile.
    apply (Hcomplete (row, col) tile); [now apply boardCells_complete | exact Htile].
Qed.

Lemma copyTiles_id (word : list WordTile.t) : copyTiles word = word.
Proof.
  unfold copyTiles. induction word as [|[r c k] word IH]; simpl;
    [reflexivity | now rewrite IH].
Qed.

Lemma elem_of_keysOf (word : list WordTile.t) (key : Z * Z) :
  key ∈ keysOf word -> coversCell word key.
Proof.
  unfold keysOf. rewrite elem_of_list_to_set, list_elem_of_In.
  intros Hin. apply in_map_iff in Hin as (t & <- & Ht). now exists t.
Qed.

(** A run of at least one tile is a group on the board. *)
Lemma run_groupOnBoard (d : Direction) (row col : Z) (first : WordTile.t)
      (more : list WordTile.t) :
  isRunFrom gameBoard d row col (first :: more) ->
  groupOnBoard gameBoard
    (WordGroup.Build (WordTile.row first) (WordTile.col first) d
                     (copyTiles (first :: more))).
Proof.
  intros [Hcells _]. rewrite copyTiles_id. split; [discriminate|].
  cbn [WordGroup.tiles WordGroup.direction WordGroup.startRow WordGroup.startCol].
  destruct (Hcells 0%nat first eq_refl) as (Hfirst & _).
  rewrite WordFacts.cellAlong_zero in Hfirst. injection Hfirst as -> ->.
  exact Hcells.
Qed.

(** The loop ends without an error on a board that is all there; the
    groups it had stay, the groups it adds are on the board, and every
    tile it was given sits in a group. *)
Lemma groupLoop_covers (tiles : list WordTile.t) :
  boardDefined gameBoard ->
  (forall t, In t tiles ->
     onBoard (wordTilePosition t) = true /\
     exists tile, tileOn gameBoard (wordTilePosition t) = Some tile /\
                  t = wordTileOf (WordTile.row t) (WordTile.col t) tile) ->
  forall wordGroups processedTiles,
    keysCovered wordGroups processedTiles ->
    exists res more,
      groupLoop gameBoard tiles wordGroups processedTiles = Some (Ok res) /\
      res = wordGroups ++ more /\
      (forall g, In g more -> groupOnBoard gameBoard g) /\
      (forall t, In t tiles ->
         exists g, In g res /\ coversCell (WordGroup.tiles g) (wordTilePosition t)).
Proof.
  intros Hdef. induction tiles as [|tile rest IH]; intros Htiles groups processed Hinv.
  - exists groups, []. rewrite app_nil_r.
    split; [reflexivity|]. split; [reflexivity|]. split; intros ? [].
  - assert (Hrest : forall t, In t rest ->
              onBoard (wordTilePosition t) = true /\
              exists tl, tileOn gameBoard (wordTilePosition t) = Some tl /\
                         t = wordTileOf (WordTile.row t) (WordTile.col t) tl)
      by (intros t Ht; apply Htiles; now right).
    destruct (Htiles tile (or_introl eq_refl)) as (Hon & tl & Htl & Hshape).
    assert (Hocc : tileOn gameBoard (wordTilePosition tile) <> None) by congruence.
    (* a new group that holds the tile *)
    assert (Hextend : forall g newKeys,
              groupOnBoard gameBoard g ->
              coversCell (WordGroup.tiles g) (wordTilePosition tile) ->
              (forall key, key ∈ newKeys -> coversCell (WordGroup.tiles g) key) ->
              exists res more,
                groupLoop gameBoard rest (groups ++ [g]) (processed ∪ newKeys)
                  = Some (Ok res) /\
                res = groups ++ more /\
                (forall g', In g' more -> groupOnBoard gameBoard g') /\
                (forall t, In t (tile :: rest) ->
                   exists g', In g' res /\
                     coversCell (WordGroup.tiles g') (wordTilePosition t))).
    { intros g newKeys Hg Hcov Hkeys.
      destruct (IH Hrest (groups ++ [g]) (processed ∪ newKeys))
        as (res & more & Hloop & Hres & Hmore & Hall).
      { intros key Hkey. apply elem_of_union in Hkey as [Hkey|Hkey].
        - destruct (Hinv key Hkey) as (g' & Hg' & Hc).
          exists g'. split; [apply in_or_app; now left | exact Hc].
        - exists g. split; [apply in_or_app; right; now left | now apply Hkeys]. }
      exists res, (g :: more). split; [exact Hloop|].
      split; [rewrite Hres, <- app_assoc; reflexivity|]. split.
      - intros g' [<-|Hg']; [exact Hg | now apply Hmore].
      - intros t [<-|Ht]; [|now apply Hall].
        exists g. split; [|exact Hcov].
        rewrite Hres. apply in_or_app. left. apply in_or_app. right. now left. }
    cbn [groupLoop].
    destruct (bool_decide (tileKey (WordTile.row tile) (WordTile.col tile)
                           ∈ processed)) eqn:Hseen.
    + apply bool_decide_eq_true in Hseen.
      destruct (IH Hrest groups processed Hinv)
        as (res & more & Hloop & Hres & Hmore & Hall).
      exists res, more. split; [exact Hloop|]. split; [exact Hres|].
      split; [exact Hmore|].
      intros t [<-|Ht]; [|now apply Hall].
      destruct (Hinv _ Hseen) as (g & Hg & Hc).
      exists g. split; [rewrite Hres; apply in_or_app; now left | exact Hc].
    + destruct (WordFacts.findWordFromTile_run gameBoard tile H)
        as (rh & Hrh & Hokh & Hrunh).
      rewrite Hrh. destruct (Hokh Hdef) as [hw ->].
      destruct (Hrunh hw eq_refl) as (rowh & colh & Hisrunh & _ & Hcovh & _).
      destruct hw as [|first [|second more]].
      3:{ apply Hextend.
          - now apply (run_groupOnBoard H rowh colh).
          - cbn [WordGroup.tiles]. rewrite copyTiles_id. now apply Hcovh.
          - intros key Hkey. cbn [WordGroup.tiles]. rewrite copyTiles_id.
            now apply elem_of_keysOf. }
      all: destruct (WordFacts.findWordFromTile_run gameBoard tile V)
             as (rv & Hrv & Hokv & Hrunv);
           rewrite Hrv; destruct (Hokv Hdef) as [vw ->];
           destruct (Hrunv vw eq_refl) as (rowv & colv & Hisrunv & _ & Hcovv & _);
           destruct vw as [|vfirst [|vsecond vmore]].
      all: try (apply Hextend;
                [ now apply (run_groupOnBoard V rowv colv)
                | cbn [WordGroup.tiles]; rewrite copyTiles_id; now apply Hcovv
                | intros key Hkey; cbn [WordGroup.tiles]; rewrite copyTiles_id;
                  now apply elem_of_keysOf ]).
      all: apply Hextend;
        [ split; [discriminate|];
          intros [|[|i]] t;
          cbn [nth_error WordGroup.tiles WordGroup.direction
               WordGroup.startRow WordGroup.startCol];
          try discriminate; intros [= <-];
          change (Z.of_nat 0) with 0%Z;
          rewrite WordFacts.cellAlong_zero;
          split; [reflexivity|]; split; [exact Hon|];
          exists tl; split; [exact Htl | exact Hshape]
        | exists tile; split; [now left | reflexivity]
        | intros key Hkey; apply elem_of_singleton in Hkey; subst key;
          exists tile; split; [now left | reflexivity] ].
Qed.

End Board.

End GroupFacts.

(** X16.  On a board whose scan succeeds, [groupTilesIntoWords] returns
    groups without an error; every tile of the board sits in one of them;
    and the tiles of each group lie from the start of the group along its
    direction on consecutive cells, each made from the tile the board has
    there, so that laying the codes of a group from its start puts every
    code on the cell of its own tile. *)
Theorem X16_groups_cover_the_board
  (gameBoard : Board) (tiles : list WordTile.t) :
  existingTiles gameBoard = Ok tiles ->
  exists groups,
    groupTilesIntoWords tiles gameBoard = Some (Ok groups) /\
    (forall row col tile,
       inBounds row col = true -> tileAt gameBoard row col = Some tile ->
       exists g, In g groups /\ coversCell (WordGroup.tiles g) (row, col)) /\
    (forall g, In g groups -> groupOnBoard gameBoard g).
Proof.
  intros Hscan.
  destruct (GroupFacts.existingTiles_ok gameBoard tiles Hscan)
    as (Hdef & Hsound & Hcomplete).
  destruct (GroupFacts.groupLoop_covers gameBoard tiles Hdef Hsound [] ∅)
    as (res & more & Hloop & Hres & Hmore & Hall).
  { intros key Hkey. now apply not_elem_of_empty in Hkey. }
  exists res. split; [exact Hloop|]. split.
  - intros row col tile Hb Htile.
    destruct (Hcomplete row col tile Hb Htile) as (t & Ht & Hp).
    destruct (Hall t Ht) as (g & Hg & Hc). rewrite Hp in Hc. now exists g.
  - intros g Hg. apply Hmore. now rewrite Hres in Hg.
Qed.

Lemma X16_groups_cover_the_board_witness :
  exists groups,
    groupTilesIntoWords
      [ WordTile.Build 7 6 (Some 67); WordTile.Build 7 7 (Some 65);
        WordTile.Build 7 8 (Some 84); WordTile.Build 7 9 (Some 83);
        WordTile.Build 8 7 (Some 84) ] crossBoard = Some (Ok groups) /\
    exists g, In g groups /\ coversCell (WordGroup.tiles g) (8, 7)%Z.
Proof.
  destruct (X16_groups_cover_the_board crossBoard
              [ WordTile.Build 7 6 (Some 67); WordTile.Build 7 7 (Some 65);
                WordTile.Build 7 8 (Some 84); WordTile.Build 7 9 (Some 83);
                WordTile.Build 8 7 (Some 84) ])
    as (groups & Hg & Hcover & _).
  - vm_compute. reflexivity.
  - exists groups. split; [exact Hg|].
    apply (Hcover 8%Z 7%Z (mkTile "t5" "t" 1 false None)); reflexivity.
Defined.

(** ** generateDemonName *)

Module DemonFacts.

Lemma DEMON_NAMES_NoDup : List.NoDup DEMON_NAMES.
Proof.
  unfold DEMON_NAMES.
  repeat (constructor; [simpl; intuition discriminate|]). constructor.
Qed.

(** The names that are left are as many as those that are not used. *)
Lemma filter_unused_length (names : list string) (used : gset string) :
  List.NoDup names ->
  (forall n, n ∈ used -> In n names) ->
  (length (List.filter (fun name => negb (bool_decide (name ∈ used))) names)
   + size used = length names)%nat.
Proof.
  revert used. induction names as [|x names IH]; intros used Hnd Hsub.
  - simpl. assert (Hempty : used = ∅).
    { apply set_eq. intros n. split; [intros Hn; destruct (Hsub n Hn)|].
      intros Hn. now apply not_elem_of_empty in Hn. }
    rewrite Hempty. apply size_empty.
  - inversion Hnd as [|? ? Hx Hnd']; subst. simpl.
    destruct (decide (x ∈ used)) as [Hin|Hout].
    + rewrite bool_decide_eq_true_2 by exact Hin. simpl.
      assert (Hfilter :
        List.filter (fun name => negb (bool_decide (name ∈ used))) names =
        List.filter (fun name => negb (bool_decide (name ∈ used ∖ {[x]}))) names).
      { apply filter_ext_in. intros n Hn. f_equal.
        apply bool_decide_ext. rewrite elem_of_difference, elem_of_singleton.
        split; [|tauto]. intros Hnu. split; [exact Hnu|].
        intros ->. contradiction. }
      rewrite Hfilter.
      assert (Hsize : size used = S (size (used ∖ {[x]}))).
      { assert (Heq : used = {[x]} ∪ (used ∖ {[x]})).
        { apply set_eq. intros n.
          rewrite elem_of_union, elem_of_difference, elem_of_singleton.
          destruct (decide (n = x)) as [->|Hne]; tauto. }
        rewrite Heq at 1. rewrite size_union.
        - now rewrite size_singleton.
        - apply elem_of_disjoint. intros n Hn1 Hn2.
          apply elem_of_singleton in Hn1.
          apply elem_of_difference in Hn2 as [_ Hn2].
          now apply Hn2, elem_of_singleton. }
      rewrite Hsize, Nat.add_succ_r. f_equal. apply IH; [exact Hnd'|].
      intros n Hn. apply elem_of_difference in Hn as [Hn Hne].
      rewrite elem_of_singleton in Hne.
      destruct (Hsub n Hn) as [->|Hin']; [now elim Hne | exact Hin'].
    + rewrite bool_decide_eq_false_2 by exact Hout. simpl. f_equal.
      apply IH; [exact Hnd'|].
      intros n Hn. destruct (Hsub n Hn) as [->|Hin']; [contradiction | exact Hin'].
Qed.

Lemma availableNames_length (used : gset string) :
  (forall n, n ∈ used -> In n DEMON_NAMES) ->
  (length (availableNames used) + size used = 24)%nat.
Proof.
  intros Hsub. unfold availableNames.
  now rewrite (filter_unused_length DEMON_NAMES used DEMON_NAMES_NoDup Hsub).
Qed.

Lemma availableNames_spec (used : gset string) (name : string) :
  In name (availableNames used) <-> In name DEMON_NAMES /\ name ∉ used.
Proof.
  unfold availableNames. rewrite filter_In, negb_true_iff.
  now rewrite bool_decide_eq_false.
Qed.

(** The calls from a set of used names, as long as names are left. *)
Lemma generateDemonNames_fresh (picks : list nat) (used : gset string) :
  (forall n, n ∈ used -> In n DEMON_NAMES) ->
  (forall i pick, nth_error picks i = Some pick ->
                  (pick < 24 - size used - i)%nat) ->
  exists names used',
    generateDemonNames picks used = Some (names, used') /\
    length names = length picks /\
    List.NoDup names /\
    (forall n, In n names -> In n DEMON_NAMES /\ n ∉ used) /\
    (forall n, n ∈ used' <-> n ∈ used \/ In n names).
Proof.
  revert used. induction picks as [|pick picks IH]; intros used Hsub Hrange.
  - exists [], used. split; [reflexivity|]. split; [reflexivity|].
    split; [constructor|]. split; [intros n []|]. intros n. simpl. tauto.
  - pose proof (availableNames_length used Hsub) as Hlen.
    pose proof (Hrange 0%nat pick eq_refl) as Hpick.
    cbn [generateDemonNames]. unfold generateDemonName.
    destruct (Nat.eqb_spec (length (availableNames used)) 0) as [Hzero|Hpos];
      [lia|].
    destruct (nth_error (availableNames used) pick) as [name|] eqn:Hname.
    2:{ apply nth_error_None in Hname. lia. }
    apply nth_error_In, availableNames_spec in Hname as [Hin Hfresh].
    destruct (IH (used ∪ {[name]})) as (names & used' & Hgen & Hl & Hnd & Hnames & Hused).
    { intros n Hn. apply elem_of_union in Hn as [Hn|Hn]; [now apply Hsub|].
      apply elem_of_singleton in Hn. now subst. }
    { intros i p Hp. specialize (Hrange (S i) p Hp).
      rewrite size_union, size_singleton; [lia|].
      apply elem_of_disjoint. intros n Hn1 Hn2.
      apply elem_of_singleton in Hn2. now subst. }
    rewrite Hgen. exists (name :: names), used'.
    split; [reflexivity|]. split; [simpl; now rewrite Hl|]. split; [|split].
    + constructor; [|exact Hnd]. intros Hn.
      destruct (Hnames name Hn) as [_ Hnot]. apply Hnot.
      apply elem_of_union. right. now apply elem_of_singleton.
    + intros n [<-|Hn]; [now split|].
      destruct (Hnames n Hn) as [HD Hnot]. split; [exact HD|].
      intros Hu. apply Hnot, elem_of_union. now left.
    + intros n. rewrite Hused, elem_of_union, elem_of_singleton. simpl.
      split; [intros [[?|?]|?] | intros [?|[?|?]]]; auto.
Qed.

End DemonFacts.

(** X17.  The first calls of [generateDemonName] on a new service, up to
    24 of them, return names of [DEMON_NAMES] that are pairwise different,
    and the names marked used are exactly the names returned. *)
Theorem X17_demon_names_do_not_repeat (picks : list nat) :
  (forall i pick, nth_error picks i = Some pick -> (pick < 24 - i)%nat) ->
  exists names used,
    generateDemonNames picks ∅ = Some (names, used) /\
    length names = length picks /\
    List.NoDup names /\
    (forall n, In n names -> In n DEMON_NAMES) /\
    (forall n, n ∈ used <-> In n names).
Proof.
  intros Hrange.
  destruct (DemonFacts.generateDemonNames_fresh picks ∅)
    as (names & used & Hgen & Hlen & Hnd & Hnames & Hused).
  - intros n Hn. now apply not_elem_of_empty in Hn.
  - intros i pick Hp. rewrite size_empty. specialize (Hrange i pick Hp). lia.
  - exists names, used. split; [exact Hgen|]. split; [exact Hlen|].
    split; [exact Hnd|]. split; [intros n Hn; now apply Hnames|].
    intros n. rewrite Hused. split; [intros [Hn|Hn]|auto]; [|exact Hn].
    now apply not_elem_of_empty in Hn.
Qed.

Lemma X17_demon_names_do_not_repeat_witness :
  exists names used,
    generateDemonNames [3; 0; 21]%nat ∅ = Some (names, used) /\
    List.NoDup names.
Proof.
  destruct (X17_demon_names_do_not_repeat [3; 0; 21]%nat)
    as (names & used & Hgen & _ & Hnd & _).
  - intros i pick Hp.
    destruct i as [|[|[|i]]]; simpl in Hp; try (injection Hp as <-; lia).
    destruct i; discriminate.
  - exists names, used. split; assumption.
Defined.

(** X18.  When every name of [DEMON_NAMES] is used, the next call of
    [generateDemonName] forgets them all: it returns a name of the list
    and that name is the only one marked used afterwards. *)
Theorem X18_demon_names_start_over (pick : nat) (used : gset string) :
  (forall n, In n DEMON_NAMES -> n ∈ used) ->
  (pick < 24)%nat ->
  exists name,
    generateDemonName pick used = Some (name, {[name]}) /\
    In name DEMON_NAMES.
Proof.
  intros Hall Hpick. unfold generateDemonName.
  assert (Hnone : availableNames used = []).
  { destruct (availableNames used) as [|n l] eqn:Hav; [reflexivity|].
    assert (Hn : In n (availableNames used)) by (rewrite Hav; now left).
    apply DemonFacts.availableNames_spec in Hn as [Hin Hout].
    elim Hout. now apply Hall. }
  rewrite Hnone. cbn [length Nat.eqb].
  destruct (nth_error DEMON_NAMES pick) as [name|] eqn:Hname.
  - exists name. split; [reflexivity|]. eapply nth_error_In; eassumption.
  - apply nth_error_None in Hname. simpl in Hname. lia.
Qed.

Lemma X18_demon_names_start_over_witness :
  exists name,
    generateDemonName 5 (list_to_set DEMON_NAMES) = Some (name, {[name]}) /\
    In name DEMON_NAMES.
Proof.
  apply X18_demon_names_start_over.
  - intros n Hn. apply elem_of_list_to_set, list_elem_of_In. exact Hn.
  - lia.
Defined.

(** ** validateTileUsage *)

Module UsageFacts.

Lemma countFor_countUse (x tileId : string) (counts : list (string * nat)) :
  countFor (countUse x counts) tileId =
  if String.eqb x tileId then S (countFor counts tileId)
  else countFor counts tileId.
Proof.
  unfold countFor. induction counts as [|[k n] counts IH]; simpl.
  - destruct (String.eqb x tileId); reflexivity.
  - destruct (String.eqb_spec k x) as [->|Hkx]; simpl.
    + destruct (String.eqb x tileId); [f_equal; lia | reflexivity].
    + destruct (String.eqb_spec k tileId) as [->|Hkt].
      * apply String.eqb_neq in Hkx. rewrite String.eqb_sym in Hkx.
        now rewrite Hkx.
      * exact IH.
Qed.

Lemma countFor_fold (pendingTiles : list PlacedTile.t) (counts : list (string * nat))
      (tileId : string) :
  countFor (fold_left (fun counts pt => countUse (id (PlacedTile.tile pt)) counts)
                      pendingTiles counts) tileId
  = (countFor counts tileId + pendingTileCount pendingTiles tileId)%nat.
Proof.
  revert counts. induction pendingTiles as [|pt pending IH]; intros counts.
  - unfold pendingTileCount. simpl. lia.
  - cbn [fold_left]. rewrite IH, countFor_countUse.
    unfold pendingTileCount. cbn [List.filter].
    destruct (String.eqb (id (PlacedTile.tile pt)) tileId); simpl; lia.
Qed.

(** The keys of the counts: each id once. *)
Lemma countUse_keys (x : string) (counts : list (string * nat)) :
  List.NoDup (map fst counts) -> List.NoDup (map fst (countUse x counts)) /\
  forall k, In k (map fst (countUse x counts)) <-> k = x \/ In k (map fst counts).
Proof.
  induction counts as [|[k n] counts IH]; intros Hnd; simpl.
  - split; [repeat constructor; simpl; tauto|]. intros k. intuition.
  - inversion Hnd as [|? ? Hk Hnd']; subst.
    destruct (String.eqb_spec k x) as [->|Hkx]; simpl.
    + split; [exact Hnd|]. intros k. intuition.
    + destruct (IH Hnd') as [Hnd2 Hkeys]. split.
      * constructor; [|exact Hnd2]. rewrite Hkeys. intros [->|Hin]; contradiction.
      * intros k0. rewrite Hkeys. intuition.
Qed.

Lemma tileUsageCount_keys (pendingTiles : list PlacedTile.t)
      (counts : list (string * nat)) :
  List.NoDup (map fst counts) ->
  List.NoDup (map fst (fold_left
                         (fun counts pt => countUse (id (PlacedTile.tile pt)) counts)
                         pendingTiles counts)).
Proof.
  revert counts. induction pendingTiles as [|pt pending IH]; intros counts Hnd;
    [exact Hnd|].
  cbn [fold_left]. apply IH. now apply countUse_keys.
Qed.

Lemma countFor_entry (counts : list (string * nat)) (k : string) (n : nat) :
  List.NoDup (map fst counts) -> In (k, n) counts -> countFor counts k = n.
Proof.
  unfold countFor. induction counts as [|[k' n'] counts IH]; intros Hnd Hin;
    [destruct Hin|].
  inversion Hnd as [|? ? Hk Hnd']; subst. simpl.
  destruct Hin as [[= -> ->]|Hin].
  - now rewrite String.eqb_refl.
  - destruct (String.eqb_spec k' k) as [->|Hne]; [|now apply IH].
    elim Hk. apply in_map_iff. now exists (k, n).
Qed.

Lemma countFor_positive (counts : list (string * nat)) (k : string) :
  (0 < countFor counts k)%nat -> In (k, countFor counts k) counts.
Proof.
  unfold countFor.
  destruct (List.find (fun e => String.eqb (fst e) k) counts) as [[k' n]|] eqn:Hf;
    [|lia].
  intros _. apply find_some in Hf as [Hin Heq]. simpl in Heq.
  apply String.eqb_eq in Heq. now subst.
Qed.

(** The check passes exactly when no id is used more often than the
    player has it. *)
Lemma validateTileUsage_valid (player : Player.t) (pendingTiles : list PlacedTile.t) :
  isValid (validateTileUsage player pendingTiles false) = true <->
  forall tileId,
    (pendingTileCount pendingTiles tileId <= playerTileCount player tileId)%nat.
Proof.
  unfold validateTileUsage. cbn [isValid].
  assert (Hnd : List.NoDup (map fst (tileUsageCount pendingTiles)))
    by (apply tileUsageCount_keys; constructor).
  assert (Hcount : forall tileId,
            countFor (tileUsageCount pendingTiles) tileId
            = pendingTileCount pendingTiles tileId)
    by (intros tileId; unfold tileUsageCount; now rewrite countFor_fold).
  rewrite Nat.eqb_eq, length_zero_iff_nil. split.
  - intros Hnone tileId.
    destruct (Nat.eq_dec (pendingTileCount pendingTiles tileId) 0) as [->|Hpos];
      [lia|].
    assert (Hin : In (tileId, pendingTileCount pendingTiles tileId)
                     (tileUsageCount pendingTiles)).
    { rewrite <- Hcount. apply countFor_positive. rewrite Hcount. lia. }
    destruct (Nat.ltb_spec (playerTileCount player tileId)
                           (pendingTileCount pendingTiles tileId)) as [Hlt|Hge];
      [|exact Hge].
    exfalso.
    assert (Herr : In ("Cannot use tile '" +:+ letterOrUnknown player tileId +:+ "' "
                       +:+ pretty (pendingTileCount pendingTiles tileId)
                       +:+ " times - you only have "
                       +:+ pretty (playerTileCount player tileId))
                      (flat_map (usageErrors player) (tileUsageCount pendingTiles))).
    { apply in_flat_map. eexists. split; [exact Hin|].
      unfold usageErrors. apply Nat.ltb_lt in Hlt. rewrite Hlt. now left. }
    rewrite Hnone in Herr. destruct Herr.
  - intros Hle.
    destruct (flat_map (usageErrors player) (tileUsageCount pendingTiles))
      as [|err errs] eqn:Herrs; [reflexivity|].
    exfalso.
    assert (Hin : In err (flat_map (usageErrors player) (tileUsageCount pendingTiles)))
      by (rewrite Herrs; now left).
    apply in_flat_map in Hin as ([k n] & Hentry & Herr).
    unfold usageErrors in Herr.
    destruct (Nat.ltb_spec (playerTileCount player k) n) as [Hlt|Hge];
      [|destruct Herr].
    rewrite <- (countFor_entry _ _ _ Hnd Hentry), Hcount in Hlt.
    specialize (Hle k). lia.
Qed.

End UsageFacts.

(** X19.  [validateTileUsage] accepts the pending tiles exactly when no
    tile id is used more often among them than the player's rack holds it;
    with unlimited tiles allowed it accepts anything, without errors. *)
Theorem X19_tile_usage_counts_ids
  (player : Player.t) (pendingTiles : list PlacedTile.t) :
  (isValid (validateTileUsage player pendingTiles false) = true <->
   forall tileId,
     (pendingTileCount pendingTiles tileId <= playerTileCount player tileId)%nat) /\
  (isValid (validateTileUsage player pendingTiles false) = true <->
   errors (validateTileUsage player pendingTiles false) = []) /\
  validateTileUsage player pendingTiles true = {| isValid := true; errors := [] |}.
Proof.
  split; [apply UsageFacts.validateTileUsage_valid|]. split; [|reflexivity].
  unfold validateTileUsage. cbn [isValid errors].
  now rewrite Nat.eqb_eq, length_zero_iff_nil.
Qed.

(** X20.  The tiles that [convertGaddagMoveToPlacedTiles] lays from a
    player's rack always pass [validateTileUsage] for that player: the AI
    never uses a tile more often than the rack holds it. *)
Theorem X20_converted_moves_pass_tile_usage
  (move : Move.t) (player : Player.t) (gameBoard : Board) :
  validateTileUsage player
    (convertGaddagMoveToPlacedTiles move (Player.tiles player) gameBoard) false
  = {| isValid := true; errors := [] |}.
Proof.
  set (out := convertGaddagMoveToPlacedTiles move (Player.tiles player) gameBoard).
  assert (Hvalid : isValid (validateTileUsage player out false) = true).
  { apply UsageFacts.validateTileUsage_valid. intros tileId.
    destruct (ConvertMore.convert_sound move (Player.tiles player) gameBoard)
      as [Hnd Hrack]. fold out in Hnd, Hrack.
    unfold pendingTileCount, playerTileCount.
    destruct (List.filter (fun pt => String.eqb (id (PlacedTile.tile pt)) tileId) out)
      as [|p1 [|p2 ps]] eqn:Hf; simpl; [lia| |].
    - assert (Hp1 : In p1 (List.filter
                (fun pt => String.eqb (id (PlacedTile.tile pt)) tileId) out))
        by (rewrite Hf; now left).
      apply filter_In in Hp1 as [Hin Heq]. apply String.eqb_eq in Heq.
      destruct (Hrack p1 Hin) as [_ (t & Ht & Hid)].
      destruct (List.filter (fun t => String.eqb (id t) tileId) (Player.tiles player))
        as [|t1 ts] eqn:Hft; [|simpl; lia].
      assert (Hin' : In t (List.filter (fun t => String.eqb (id t) tileId)
                                       (Player.tiles player))).
      { apply filter_In. split; [exact Ht|]. apply String.eqb_eq. congruence. }
      rewrite Hft in Hin'. destruct Hin'.
    - exfalso.
      assert (Hsub : List.NoDup (map (fun p => id (PlacedTile.tile p))
                                     (p1 :: p2 :: ps))).
      { rewrite <- Hf. clear Hf Hrack. induction out as [|p out IH];
          [constructor|].
        simpl in Hnd. inversion Hnd as [|? ? Hp Hnd']; subst. simpl.
        destruct (String.eqb (id (PlacedTile.tile p)) tileId); [|now apply IH].
        simpl. constructor; [|now apply IH].
        intros Hin. apply Hp. apply in_map_iff in Hin as (q & Hq & Hin).
        apply filter_In in Hin as [Hin _]. apply in_map_iff. now exists q. }
      assert (H1 : id (PlacedTile.tile p1) = tileId).
      { apply String.eqb_eq.
        assert (Hp : In p1 (p1 :: p2 :: ps)) by now left.
        rewrite <- Hf in Hp. now apply filter_In in Hp as [_ Hp]. }
      assert (H2 : id (PlacedTile.tile p2) = tileId).
      { apply String.eqb_eq.
        assert (Hp : In p2 (p1 :: p2 :: ps)) by (right; now left).
        rewrite <- Hf in Hp. now apply filter_In in Hp as [_ Hp]. }
      simpl in Hsub. inversion Hsub as [|? ? Hnot _]; subst.
      apply Hnot. left. congruence. }
  unfold validateTileUsage in *. cbn [isValid] in Hvalid.
  apply Nat.eqb_eq, length_zero_iff_nil in Hvalid. now rewrite Hvalid.
Qed.

(** ** Evocation effects *)

Module EvocationFacts.

Lemma findById_some (tiles : list Tile) (tileId : string) :
  (exists t, findById tiles tileId = Some t) <->
  exists t, In t tiles /\ id t = tileId.
Proof.
  unfold findById. split.
  - intros [t Hf]. apply find_some in Hf as [Hin Heq].
    apply String.eqb_eq in Heq. now exists t.
  - intros (t & Hin & Hid).
    destruct (List.find (fun t => String.eqb (id t) tileId) tiles) as [t'|] eqn:Hf;
      [now exists t'|].
    apply (find_none _ _ Hf) in Hin. apply String.eqb_neq in Hin. contradiction.
Qed.

Lemma findById_id (tiles : list Tile) (tileId : string) (t : Tile) :
  findById tiles tileId = Some t -> In t tiles /\ id t = tileId.
Proof.
  unfold findById. intros Hf. apply find_some in Hf as [Hin Heq].
  now apply String.eqb_eq in Heq.
Qed.

Lemma includesId_In (ids : list string) (i : string) :
  includesId ids i = true <-> In i ids.
Proof.
  unfold includesId. rewrite existsb_exists. split.
  - intros (x & Hin & Heq). apply String.eqb_eq in Heq. now subst.
  - intros Hin. exists i. split; [exact Hin|apply String.eqb_refl].
Qed.

(** Removing one id from a rack of distinct ids removes one tile. *)
Lemma filter_out_id (tiles : list Tile) (t : Tile) :
  List.NoDup (rackIds tiles) -> In t tiles ->
  Permutation (t :: List.filter (fun u => negb (String.eqb (id u) (id t))) tiles)
              tiles.
Proof.
  unfold rackIds. induction tiles as [|u tiles IH]; intros Hnd Hin;
    [destruct Hin|].
  simpl in Hnd. inversion Hnd as [|? ? Hu Hnd']; subst.
  cbn [List.filter]. destruct Hin as [->|Hin].
  - rewrite String.eqb_refl. cbn [negb].
    replace (List.filter (fun u => negb (String.eqb (id u) (id t))) tiles)
      with tiles; [reflexivity|].
    clear IH Hnd Hnd'. induction tiles as [|v tiles IH]; [reflexivity|].
    cbn [List.filter].
    destruct (String.eqb_spec (id v) (id t)) as [Heq|Hne].
    + elim Hu. left. exact Heq.
    + cbn [negb]. f_equal. apply IH. intros Hin. apply Hu. now right.
  - destruct (String.eqb_spec (id u) (id t)) as [Heq|Hne].
    + elim Hu. rewrite Heq. now apply in_map.
    + cbn [negb]. rewrite perm_swap. now rewrite (IH Hnd' Hin).
Qed.

Lemma insert_insert_permutation {A} (l : list A) : forall (i j : nat) (x y : A),
  l !! i = Some x -> l !! j = Some y ->
  Permutation (<[j := x]> (<[i := y]> l)) l.
Proof.
  assert (Haux : forall (l : list A) (j : nat) (a y : A),
             l !! j = Some y -> Permutation (y :: <[j := a]> l) (a :: l)).
  { clear l. induction l as [|b l IH]; intros [|j] a y Hj; try discriminate.
    - injection Hj as ->. apply perm_swap.
    - cbn in Hj. cbn [insert list_insert].
      rewrite perm_swap. rewrite (IH j a y Hj). apply perm_swap. }
  induction l as [|a l IH]; intros i j x y Hi Hj.
  - destruct i; discriminate.
  - destruct i as [|i], j as [|j].
    + injection Hi as ->. injection Hj as ->. reflexivity.
    + injection Hi as ->. apply (Haux l j x y). exact Hj.
    + injection Hj as ->. apply (Haux l i y x). exact Hi.
    + apply perm_skip. apply (IH i j x y); assumption.
Qed.

Lemma swapAt_permutation {A} (l : list A) (i j : nat) (l' : list A) :
  swapAt i j l = Some l' -> Permutation l' l.
Proof.
  unfold swapAt. intros Hs.
  destruct (l !! i) as [x|] eqn:Hi; [|discriminate].
  destruct (l !! j) as [y|] eqn:Hj; [|discriminate].
  injection Hs as <-. now apply insert_insert_permutation.
Qed.

Lemma swapAt_in_range {A} (l : list A) (i j : nat) :
  (i < length l)%nat -> (j < length l)%nat ->
  exists l', swapAt i j l = Some l' /\ length l' = length l.
Proof.
  intros Hi Hj. unfold swapAt.
  destruct (lookup_lt_is_Some_2 l i Hi) as [x ->].
  destruct (lookup_lt_is_Some_2 l j Hj) as [y ->].
  eexists. split; [reflexivity|]. now rewrite !length_insert.
Qed.

Lemma shuffleFrom_permutation {A} (draw : nat -> nat) (i : nat) :
  forall (l : list A),
    (forall k, (0 < k <= i)%nat -> (draw k <= k)%nat) ->
    (i < length l \/ i = 0)%nat ->
    exists l', shuffleFrom draw i l = Some l' /\ Permutation l' l.
Proof.
  induction i as [|i IH]; intros l Hdraw Hlen.
  - exists l. split; reflexivity.
  - cbn [shuffleFrom].
    assert (Hd : (draw (S i) <= S i)%nat) by (apply Hdraw; lia).
    apply Nat.leb_le in Hd as Hd'. rewrite Hd'.
    destruct (swapAt_in_range l (S i) (draw (S i))) as (l1 & Hs & Hl1); [lia..|].
    rewrite Hs.
    destruct (IH l1) as (l' & Hl' & Hperm).
    + intros k Hk. apply Hdraw. lia.
    + left. lia.
    + exists l'. split; [exact Hl'|].
      rewrite Hperm. now apply swapAt_permutation in Hs.
Qed.

Lemma shuffle_permutation {A} (draw : nat -> nat) (l : list A) :
  (forall k, (0 < k < length l)%nat -> (draw k <= k)%nat) ->
  exists l', shuffle draw l = Some l' /\ Permutation l' l.
Proof.
  intros Hdraw. unfold shuffle. apply shuffleFrom_permutation.
  - intros k Hk. apply Hdraw. lia.
  - destruct l; simpl; lia.
Qed.

Lemma index_imap {A B} (f : nat -> A -> B) (l : list A) (i : Z) :
  index (imap f l) i = option_map (f (Z.to_nat i)) (index l i).
Proof.
  unfold index. destruct (i <? 0)%Z; [reflexivity|].
  generalize (Z.to_nat i) as n. clear i. intros n. revert f n.
  induction l as [|a l IH]; intros f [|n]; try reflexivity.
  cbn [imap nth_error]. now rewrite IH.
Qed.

Lemma index_some_nonneg {A} (l : list A) (i : Z) (a : A) :
  index l i = Some a -> (0 <= i)%Z.
Proof. unfold index. destruct (Z.ltb_spec i 0); [discriminate|lia]. Qed.

Lemma cellAt_withoutMultiplier (board : Board) (row col r c : Z) :
  cellAt (withoutMultiplier board row col) r c =
  option_map (fun cell => if (r =? row)%Z && (c =? col)%Z
                          then BoardCell.Build (BoardCell.tile cell) None
                          else cell)
             (cellAt board r c).
Proof.
  unfold cellAt, withoutMultiplier. rewrite index_imap.
  destruct (index board r) as [cells|] eqn:Hr; [|reflexivity].
  cbn [option_map]. rewrite index_imap.
  destruct (index cells c) as [cell|] eqn:Hc; [|reflexivity].
  cbn [option_map]. apply index_some_nonneg in Hr, Hc.
  now rewrite !Z2Nat.id by lia.
Qed.

Lemma filter_rackIds_NoDup (f : Tile -> bool) (tiles : list Tile) :
  List.NoDup (rackIds tiles) -> List.NoDup (rackIds (List.filter f tiles)).
Proof.
  unfold rackIds. induction tiles as [|t tiles IH]; intros Hnd; [constructor|].
  simpl in Hnd. inversion Hnd as [|? ? Ht Hnd']; subst. cbn [List.filter].
  destruct (f t); [|now apply IH].
  cbn [map]. constructor; [|now apply IH].
  intros Hin. apply Ht. apply in_map_iff in Hin as (u & Hu & Hin).
  apply filter_In in Hin as [Hin _]. apply in_map_iff. now exists u.
Qed.

Lemma filter_includesId_cons (i : string) (ids : list string) (tiles : list Tile) :
  List.filter (fun t => negb (includesId (i :: ids) (id t))) tiles =
  List.filter (fun t => negb (includesId ids (id t)))
              (List.filter (fun t => negb (String.eqb (id t) i)) tiles).
Proof.
  induction tiles as [|t tiles IH]; [reflexivity|].
  cbn [List.filter]. unfold includesId at 1. cbn [existsb].
  fold (includesId ids (id t)).
  destruct (String.eqb (id t) i); cbn [orb negb].
  - exact IH.
  - cbn [List.filter]. destruct (includesId ids (id t)); cbn [negb];
      [exact IH | now f_equal].
Qed.

(** Discarding distinct ids that the rack has, from a rack of distinct
    ids, removes one tile for each id. *)
Lemma filter_out_ids (ids : list string) : forall (tiles : list Tile),
  List.NoDup (rackIds tiles) -> List.NoDup ids ->
  (forall i, In i ids -> exists t, In t tiles /\ id t = i) ->
  (length (List.filter (fun t => negb (includesId ids (id t))) tiles)
   + length ids = length tiles)%nat.
Proof.
  induction ids as [|i ids IH]; intros tiles Hnd Hids Hhas.
  - cbn [length]. rewrite Nat.add_0_r. f_equal. clear Hnd Hids Hhas.
    induction tiles as [|t tiles IHt]; [reflexivity|].
    cbn. now f_equal.
  - inversion Hids as [|? ? Hi Hids']; subst.
    destruct (Hhas i) as (t & Ht & Hid); [now left|]. subst i.
    rewrite filter_includesId_cons.
    pose proof (Permutation_length (filter_out_id tiles t Hnd Ht)) as Hlen.
    cbn [length] in Hlen |- *. rewrite <- Hlen.
    rewrite <- (IH (List.filter (fun u => negb (String.eqb (id u) (id t))) tiles)).
    + lia.
    + now apply filter_rackIds_NoDup.
    + exact Hids'.
    + intros j Hj. destruct (Hhas j) as (u & Hu & Huj); [now right|].
      exists u. split; [|exact Huj]. apply filter_In. split; [exact Hu|].
      apply Bool.negb_true_iff, String.eqb_neq. intros Heq. apply Hi.
      now rewrite <- Heq, Huj.
Qed.

Lemma executeAim_success (targetPlayer : Player.t) (targetTileIds : list string) :
  AimResult.success (executeAim targetPlayer targetTileIds) = true <->
  length targetTileIds = 2%nat /\
  forall i, In i targetTileIds ->
            exists t, In t (Player.tiles targetPlayer) /\ id t = i.
Proof.
  unfold executeAim.
  destruct (Nat.eqb_spec (length targetTileIds) 2) as [Hlen|Hlen]; cbn [negb].
  - destruct (existsb _ _) eqn:Hex; cbn [AimResult.success].
    + split; [discriminate|]. intros [_ Hhas]. exfalso.
      apply existsb_exists in Hex as (o & Hin & Ho).
      apply in_map_iff in Hin as (i & <- & Hi).
      destruct (proj2 (findById_some (Player.tiles targetPlayer) i) (Hhas i Hi))
        as [t Hf].
      rewrite Hf in Ho. discriminate.
    + split; [|reflexivity]. intros _. split; [exact Hlen|]. intros i Hi.
      apply findById_some.
      destruct (findById (Player.tiles targetPlayer) i) as [t|] eqn:Hf;
        [now exists t|].
      exfalso. apply Bool.not_true_iff_false in Hex. apply Hex.
      apply existsb_exists. exists None. split; [|reflexivity].
      apply in_map_iff. exists i. now split.
  - cbn [AimResult.success]. split; [discriminate|]. intros [Hl _]. contradiction.
Qed.

Lemma executeAim_tiles (targetPlayer : Player.t) (targetTileIds : list string) :
  AimResult.success (executeAim targetPlayer targetTileIds) = true ->
  Player.tiles (AimResult.updatedPlayer (executeAim targetPlayer targetTileIds))
  = List.filter (fun t => negb (includesId targetTileIds (id t)))
                (Player.tiles targetPlayer).
Proof.
  unfold executeAim. destruct (negb _); [discriminate|].
  destruct (existsb _ _); [discriminate|]. reflexivity.
Qed.

Lemma tileAt_cellAt (board : Board) (row col : Z) :
  tileAt board row col = match cellAt board row col with
                         | Some cell => BoardCell.tile cell
                         | None => None
                         end.
Proof. unfold tileAt, cellAt. now destruct (index board row). Qed.

End EvocationFacts.

(** X21.  [executeAim] succeeds exactly when two ids are given and the
    target's rack has a tile for each; a failure leaves the player as it
    was.  On success the rack keeps exactly the tiles whose id was not
    given: two tiles fewer when the rack's ids are distinct and the
    two ids differ, but only one fewer when the same id is given twice. *)
Theorem X21_aim_discards_the_chosen_tiles
  (targetPlayer : Player.t) (targetTileIds : list string) :
  (AimResult.success (executeAim targetPlayer targetTileIds) = true <->
   length targetTileIds = 2%nat /\
   forall i, In i targetTileIds ->
             exists t, In t (Player.tiles targetPlayer) /\ id t = i) /\
  (AimResult.success (executeAim targetPlayer targetTileIds) = false ->
   AimResult.updatedPlayer (executeAim targetPlayer targetTileIds) = targetPlayer) /\
  (AimResult.success (executeAim targetPlayer targetTileIds) = true ->
   forall t,
     In t (Player.tiles
             (AimResult.updatedPlayer (executeAim targetPlayer targetTileIds)))
     <-> In t (Player.tiles targetPlayer) /\ ~ In (id t) targetTileIds) /\
  (AimResult.success (executeAim targetPlayer targetTileIds) = true ->
   List.NoDup (rackIds (Player.tiles targetPlayer)) ->
   List.NoDup targetTileIds ->
   (length (Player.tiles
              (AimResult.updatedPlayer (executeAim targetPlayer targetTileIds)))
    + 2 = length (Player.tiles targetPlayer))%nat) /\
  (forall a,
     targetTileIds = [a; a] ->
     AimResult.success (executeAim targetPlayer targetTileIds) = true ->
     List.NoDup (rackIds (Player.tiles targetPlayer)) ->
     (length (Player.tiles
                (AimResult.updatedPlayer (executeAim targetPlayer targetTileIds)))
      + 1 = length (Player.tiles targetPlayer))%nat).
Proof.
  split; [apply EvocationFacts.executeAim_success|].
  split.
  { unfold executeAim. destruct (negb _); [reflexivity|].
    destruct (existsb _ _); [reflexivity|discriminate]. }
  split.
  { intros Hok t. rewrite (EvocationFacts.executeAim_tiles _ _ Hok).
    rewrite filter_In, Bool.negb_true_iff, <- Bool.not_true_iff_false,
      EvocationFacts.includesId_In. reflexivity. }
  split.
  { intros Hok Hnd Hids. rewrite (EvocationFacts.executeAim_tiles _ _ Hok).
    apply EvocationFacts.executeAim_success in Hok as [Hlen Hhas].
    rewrite <- Hlen. now apply EvocationFacts.filter_out_ids. }
  intros a -> Hok Hnd. rewrite (EvocationFacts.executeAim_tiles _ _ Hok).
  apply EvocationFacts.executeAim_success in Hok as [_ Hhas].
  rewrite EvocationFacts.filter_includesId_cons.
  destruct (Hhas a) as (t & Ht & <-); [now left|].
  pose proof (Permutation_length
                (EvocationFacts.filter_out_id _ t Hnd Ht)) as Hlen.
  cbn [length] in Hlen. rewrite <- Hlen.
  set (rest := List.filter (fun u => negb (String.eqb (id u) (id t)))
                           (Player.tiles targetPlayer)).
  replace (List.filter (fun u => negb (includesId [id t] (id u))) rest)
    with rest; [lia|].
  assert (Hrest : forall u, In u rest -> String.eqb (id u) (id t) = false).
  { intros u Hu. apply filter_In in Hu as [_ Hu].
    now apply Bool.negb_true_iff in Hu. }
  clearbody rest. induction rest as [|u rest IH]; [reflexivity|].
  cbn [List.filter]. unfold includesId at 1. cbn [existsb].
  rewrite (Hrest u) by now left. cbn [orb negb]. f_equal.
  apply IH. intros v Hv. apply Hrest. now right.
Qed.

(** X22.  [executeAndromalius] succeeds exactly when the target's rack has
    a tile with the id; a failure leaves both players as they were.  On
    success the current player gets the first such tile at the end of the
    rack and the target keeps exactly the tiles with another id; when
    the ids of the target's rack are distinct, the two racks together hold
    the same tiles as before. *)
Theorem X22_andromalius_moves_one_tile
  (currentPlayer targetPlayer : Player.t) (targetTileId : string) :
  (AndromaliusResult.success
     (executeAndromalius currentPlayer targetPlayer targetTileId) = true <->
   exists t, In t (Player.tiles targetPlayer) /\ id t = targetTileId) /\
  (AndromaliusResult.success
     (executeAndromalius currentPlayer targetPlayer targetTileId) = false ->
   AndromaliusResult.updatedCurrentPlayer
     (executeAndromalius currentPlayer targetPlayer targetTileId) = currentPlayer /\
   AndromaliusResult.updatedTargetPlayer
     (executeAndromalius currentPlayer targetPlayer targetTileId) = targetPlayer) /\
  (AndromaliusResult.success
     (executeAndromalius currentPlayer targetPlayer targetTileId) = true ->
   exists t,
     findById (Player.tiles targetPlayer) targetTileId = Some t /\
     id t = targetTileId /\
     Player.tiles (AndromaliusResult.updatedCurrentPlayer
                     (executeAndromalius currentPlayer targetPlayer targetTileId))
     = Player.tiles currentPlayer ++ [t] /\
     (forall u,
        In u (Player.tiles
                (AndromaliusResult.updatedTargetPlayer
                   (executeAndromalius currentPlayer targetPlayer targetTileId)))
        <-> In u (Player.tiles targetPlayer) /\ id u <> targetTileId) /\
     (List.NoDup (rackIds (Player.tiles targetPlayer)) ->
      Permutation
        (Player.tiles (AndromaliusResult.updatedCurrentPlayer
                         (executeAndromalius currentPlayer targetPlayer targetTileId))
         ++ Player.tiles (AndromaliusResult.updatedTargetPlayer
                            (executeAndromalius currentPlayer targetPlayer targetTileId)))
        (Player.tiles currentPlayer ++ Player.tiles targetPlayer))).
Proof.
  unfold executeAndromalius.
  destruct (findById (Player.tiles targetPlayer) targetTileId) as [t|] eqn:Hf;
    cbn [AndromaliusResult.success AndromaliusResult.updatedCurrentPlayer
         AndromaliusResult.updatedTargetPlayer withTiles Player.tiles].
  - destruct (EvocationFacts.findById_id _ _ _ Hf) as [Hin Hid].
    split; [split; [intros _; now exists t|reflexivity]|].
    split; [discriminate|]. intros _. exists t.
    split; [reflexivity|]. split; [exact Hid|]. split; [reflexivity|]. split.
    + intros u. rewrite filter_In, Bool.negb_true_iff, String.eqb_neq.
      reflexivity.
    + intros Hnd. rewrite <- app_assoc. apply Permutation_app_head.
      cbn [app]. subst targetTileId.
      now apply EvocationFacts.filter_out_id.
  - split.
    + split; [discriminate|]. intros Hex.
      apply EvocationFacts.findById_some in Hex as [t Ht]. congruence.
    + split; [intros _; now split | discriminate].
Qed.

(** X23.  [swapPlayerTiles] loses and invents no tile: whatever the draws
    of the shuffle, the new rack and the new bag together are a
    rearrangement of the old bag and the old rack; the new rack has seven
    tiles, or all of them when there are fewer, and the player is
    otherwise unchanged. *)
Theorem X23_swapPlayerTiles_conserves_tiles
  (draw : nat -> nat) (currentPlayer : Player.t) (tileBag : list Tile) :
  (forall i, (0 < i < length tileBag + length (Player.tiles currentPlayer))%nat ->
             (draw i <= i)%nat) ->
  exists r,
    swapPlayerTiles draw currentPlayer tileBag = Some r /\
    Permutation (Player.tiles (SwapResult.updatedPlayer r) ++ SwapResult.updatedBag r)
                (tileBag ++ Player.tiles currentPlayer) /\
    length (Player.tiles (SwapResult.updatedPlayer r))
    = Nat.min 7 (length tileBag + length (Player.tiles currentPlayer)) /\
    Player.id (SwapResult.updatedPlayer r) = Player.id currentPlayer /\
    Player.name (SwapResult.updatedPlayer r) = Player.name currentPlayer.
Proof.
  intros Hdraw. unfold swapPlayerTiles.
  destruct (EvocationFacts.shuffle_permutation
              draw (tileBag ++ Player.tiles currentPlayer))
    as (newBag & -> & Hperm).
  { intros k Hk. apply Hdraw. now rewrite length_app in Hk. }
  eexists. split; [reflexivity|].
  cbn [SwapResult.updatedPlayer SwapResult.updatedBag withTiles Player.tiles
       Player.id Player.name].
  split; [now rewrite firstn_skipn|]. split; [|split; reflexivity].
  rewrite length_firstn. apply Permutation_length in Hperm.
  now rewrite Hperm, length_app.
Qed.

Lemma X23_swapPlayerTiles_conserves_tiles_witness :
  exists r,
    swapPlayerTiles exampleDraw examplePlayer exampleBag = Some r /\
    Permutation (Player.tiles (SwapResult.updatedPlayer r) ++ SwapResult.updatedBag r)
                (exampleBag ++ Player.tiles examplePlayer) /\
    length (Player.tiles (SwapResult.updatedPlayer r)) = 7%nat.
Proof.
  destruct (X23_swapPlayerTiles_conserves_tiles exampleDraw examplePlayer exampleBag)
    as (r & Hr & Hperm & Hlen & _).
  - intros i _. unfold exampleDraw. apply Nat.Div0.div_le_upper_bound. lia.
  - exists r. split; [exact Hr|]. split; [exact Hperm|]. exact Hlen.
Defined.

(** X24.  [executeValefor] succeeds exactly when the position is a cell of
    the board that has a multiplier and no tile; a failure leaves the board
    as it was and steals nothing.  On success the multiplier that was
    there, of whatever kind, is returned with the position, the cell has no
    multiplier any more, every other cell and every tile is as before, and
    a second call at the same position fails. *)
Theorem X24_valefor_takes_one_multiplier (board : Board) (row col : Z) :
  (ValeforResult.success (executeValefor board row col) = true <->
   exists cell m, cellAt board row col = Some cell /\
                  BoardCell.multiplier cell = Some m /\
                  BoardCell.tile cell = None) /\
  (ValeforResult.success (executeValefor board row col) = false ->
   ValeforResult.updatedBoard (executeValefor board row col) = board /\
   ValeforResult.stolenMultiplier (executeValefor board row col) = None) /\
  (ValeforResult.success (executeValefor board row col) = true ->
   (exists cell m,
      cellAt board row col = Some cell /\
      BoardCell.multiplier cell = Some m /\
      ValeforResult.stolenMultiplier (executeValefor board row col)
      = Some (m, (row, col))) /\
   cellAt (ValeforResult.updatedBoard (executeValefor board row col)) row col
   = Some (BoardCell.Build None None) /\
   (forall r c, (r, c) <> (row, col) ->
      cellAt (ValeforResult.updatedBoard (executeValefor board row col)) r c
      = cellAt board r c) /\
   (forall r c,
      tileAt (ValeforResult.updatedBoard (executeValefor board row col)) r c
      = tileAt board r c) /\
   ValeforResult.success
     (executeValefor (ValeforResult.updatedBoard (executeValefor board row col))
                     row col) = false).
Proof.
  destruct (cellAt board row col) as [[tile multiplier]|] eqn:Hcell;
    [destruct multiplier as [m|], tile as [t|]|].
  2: {
    assert (E : executeValefor board row col
                = ValeforResult.Build true (withoutMultiplier board row col)
                                      (Some (m, (row, col))) None)
      by (unfold executeValefor; now rewrite Hcell).
    rewrite E.
    cbn [ValeforResult.success ValeforResult.updatedBoard
         ValeforResult.stolenMultiplier].
    split; [split; [intros _; now eexists _, m|reflexivity]|].
    split; [discriminate|]. intros _.
    split; [now eexists _, m|].
    assert (Hat : cellAt (withoutMultiplier board row col) row col
                  = Some (BoardCell.Build None None)).
    { rewrite EvocationFacts.cellAt_withoutMultiplier, Hcell.
      cbn [option_map BoardCell.tile]. now rewrite !Z.eqb_refl. }
    split; [exact Hat|]. split.
    { intros r c Hne. rewrite EvocationFacts.cellAt_withoutMultiplier.
      destruct (Z.eqb_spec r row) as [->|Hr];
        [destruct (Z.eqb_spec c col) as [->|Hc]; [now elim Hne|]|];
        cbn [andb]; now destruct (cellAt board _ c). }
    split.
    { intros r c. rewrite !EvocationFacts.tileAt_cellAt.
      rewrite EvocationFacts.cellAt_withoutMultiplier.
      destruct (cellAt board r c) as [cell|]; [|reflexivity].
      cbn [option_map]. now destruct ((r =? row)%Z && (c =? col)%Z). }
    unfold executeValefor. now rewrite Hat. }
  all: assert (E : executeValefor board row col
                   = ValeforResult.Build false board None
                       (ValeforResult.error (executeValefor board row col)))
         by (unfold executeValefor; now rewrite Hcell).
  all: rewrite E.
  all: cbn [ValeforResult.success ValeforResult.updatedBoard
            ValeforResult.stolenMultiplier].
  all: split; [split; [discriminate|]|split; [now split|discriminate]].
  all: intros (cell & m' & Hc & Hm & Ht).
  all: try discriminate.
  all: injection Hc as <-; discriminate.
Qed.
